(** * Traffic-simulation core of the city-driving demo

    A shallow embedding of the signal controller ([TrafficLight.js]), the
    signal coordinator and the road graph ([CityRoadNetwork.js], which also
    holds [TrafficManager]) and the vehicle agents ([NPCVehicle.js]).

    Numbers.  A JavaScript number is modelled as a real number: the
    arithmetic of the source ([+], [*], [/], [Math.sqrt], [Math.sin], ...)
    is read as exact arithmetic on [R], comparisons are decided with
    [Rlt_dec] and [Rle_dec].  [Infinity] is a separate constructor where the
    source uses it, and a thrown [TypeError] is the [None] of an [option]. *)

From Stdlib Require Import Reals Lra Lia List String Ascii ZArith Bool Arith.
From Stdlib Require Import Decimal DecimalString.
Import ListNotations.
Open Scope R_scope.

(** ** JavaScript numeric primitives *)

Module JS.

Definition lt (a b : R) : bool := if Rlt_dec a b then true else false.
Definition le (a b : R) : bool := if Rle_dec a b then true else false.
Definition gt (a b : R) : bool := lt b a.
Definition ge (a b : R) : bool := le b a.
Definition eq (a b : R) : bool := if Req_dec_T a b then true else false.

(** [Math.floor], [Math.ceil] and [Math.trunc], as integers. *)
Definition Math_floor (a : R) : Z := Int_part a.
Definition Math_ceil (a : R) : Z := (- Int_part (- a))%Z.
Definition Math_trunc (a : R) : Z :=
  if le 0 a then Math_floor a else Math_ceil a.

(** [a % b]: the remainder has the sign of the dividend.  For [b = 0]
    JavaScript yields [NaN]; no divisor of the program is zero. *)
Definition rem (a b : R) : R := a - b * IZR (Math_trunc (a / b)).

Definition Math_max (a b : R) : R := if lt a b then b else a.
Definition Math_min (a b : R) : R := if lt b a then b else a.

(** A number that may be [Infinity]. *)
Inductive Num : Type :=
| Fin (r : R)
| Infinity.

(** [a < b] for a finite [a] and a possibly infinite [b]. *)
Definition lt_num (a : R) (b : Num) : bool :=
  match b with
  | Fin r => lt a r
  | Infinity => true
  end.

(** [a < b] for a possibly infinite [a] and a finite [b]. *)
Definition num_lt (a : Num) (b : R) : bool :=
  match a with
  | Fin r => lt r b
  | Infinity => false
  end.

(** Truthiness of a number: [0] is falsy. *)
Definition truthy (a : R) : bool := negb (eq a 0).

(** [a || d] on numbers. *)
Definition or_else (a d : R) : R := if truthy a then a else d.

End JS.

(** ** TrafficLight.js: the signal controller *)

Inductive Aspect : Type := green | yellow | red.

Inductive Direction : Type := north | south | east | west.

Record Point : Type := mkPoint { x : R; z : R }.

Module Intersection.
Record t : Type := mk {
  id : string;
  position : Point;
  hasTrafficLight : bool;
  connectedRoads : list string;
  size : R
}.
End Intersection.

Record Phase : Type := mkPhase {
  name : string;
  duration : R;
  ns : Aspect;
  ew : Aspect
}.

Module TrafficLight.

(** [this.phases], assigned once in the constructor and never again. *)
Definition phases : list Phase :=
  [ mkPhase "NS_GREEN" 10 green red;
    mkPhase "NS_YELLOW" 2 yellow red;
    mkPhase "ALL_RED_1" 1 red red;
    mkPhase "EW_GREEN" 10 red green;
    mkPhase "EW_YELLOW" 2 red yellow;
    mkPhase "ALL_RED_2" 1 red red ].

(** The state machine of one light; the meshes are not modelled. *)
Record t : Type := mk {
  intersection : Intersection.t;
  currentPhaseIndex : nat;
  phaseTimer : R;
  phaseOffset : R
}.

(** [new TrafficLight(scene, intersection)]. *)
Definition new (i : Intersection.t) : t := mk i 0 0 0.

(** [getTotalCycleDuration]: [phases.reduce((sum, p) => sum + p.duration, 0)]. *)
Definition getTotalCycleDuration : R :=
  fold_left (fun sum p => sum + duration p) phases 0.

(** [update(delta)].  [phases[currentPhaseIndex]] is [undefined] for an index
    out of range, and reading its [duration] throws. *)
Definition update (delta : R) (l : t) : option t :=
  let timer := phaseTimer l + delta in
  match nth_error phases (currentPhaseIndex l) with
  | None => None
  | Some currentPhase =>
      if JS.ge timer (duration currentPhase)
      then Some (mk (intersection l)
                    ((currentPhaseIndex l + 1) mod List.length phases)
                    0
                    (phaseOffset l))
      else Some (mk (intersection l) (currentPhaseIndex l) timer (phaseOffset l))
  end.

(** [getState(direction)]. *)
Definition getState (d : Direction) (l : t) : option Aspect :=
  match nth_error phases (currentPhaseIndex l) with
  | None => None
  | Some phase =>
      match d with
      | north | south => Some (ns phase)
      | east | west => Some (ew phase)
      end
  end.

(** The [for] loop of [setPhaseOffset], from index [i] on: the first phase
    whose duration exceeds what is left of [elapsed]. *)
Fixpoint findPhase (ps : list Phase) (i : nat) (elapsed : R) : option (nat * R) :=
  match ps with
  | [] => None
  | p :: rest =>
      if JS.lt elapsed (duration p)
      then Some (i, elapsed)
      else findPhase rest (S i) (elapsed - duration p)
  end.

(** [setPhaseOffset(offset)].  When the loop finds no phase the index is left
    as it was and the timer keeps [offset % total]. *)
Definition setPhaseOffset (offset : R) (l : t) : t :=
  let timer := JS.rem offset getTotalCycleDuration in
  match findPhase phases 0 timer with
  | Some (i, elapsed) => mk (intersection l) i elapsed offset
  | None => mk (intersection l) (currentPhaseIndex l) timer offset
  end.

Definition getIntersectionId (l : t) : string := Intersection.id (intersection l).
Definition getPosition (l : t) : Point := Intersection.position (intersection l).

(** What a caller reads back: [(currentPhaseIndex, phaseTimer)]. *)
Definition reading (l : t) : nat * R := (currentPhaseIndex l, phaseTimer l).

(** States reachable from construction by [update] with a non-negative
    [delta] and by [setPhaseOffset]. *)
Inductive reachable : t -> Prop :=
| reach_new : forall i, reachable (new i)
| reach_update : forall l l' delta,
    reachable l -> 0 <= delta -> update delta l = Some l' -> reachable l'
| reach_offset : forall l offset,
    reachable l -> reachable (setPhaseOffset offset l).

(** A run of [update] calls, one per tick.  [update] adds the tick to the
    timer; the sum is exact here and rounded to a double in the source, so
    a run stands for the source where its sums are exact in doubles: where
    the timer reads 0 before the tick, or timer and tick are small
    integers. *)
Fixpoint replay (deltas : list R) (l : t) : option t :=
  match deltas with
  | [] => Some l
  | delta :: rest =>
      match update delta l with
      | Some l' => replay rest l'
      | None => None
      end
  end.

(** Simulated time delivered by a run. *)
Definition total (deltas : list R) : R := fold_right Rplus 0 deltas.

(** The ticks of the replay that takes every phase in one step: the full
    duration of each phase before the one [setPhaseOffset(offset)] finds,
    then the time that is left in that phase. *)
Definition phaseTicks (offset : R) : list R :=
  match findPhase phases 0 (JS.rem offset getTotalCycleDuration) with
  | Some (i, elapsed) => map duration (firstn i phases) ++ [elapsed]
  | None => []
  end.

(** Before every tick of the run the timer reads 0, so that [update] adds
    the tick to 0 and no sum of two non-zero numbers is formed. *)
Fixpoint from_zero (deltas : list R) (l : t) : Prop :=
  match deltas with
  | [] => True
  | delta :: rest =>
      phaseTimer l = 0 /\
      match update delta l with
      | Some l' => from_zero rest l'
      | None => False
      end
  end.

(** Start of phase [i] within the cycle: the durations before it. *)
Definition phaseStart (i : nat) : R :=
  fold_right Rplus 0 (map duration (firstn i phases)).

(** Position within the cycle of a state: it is in phase [i], [t] seconds in. *)
Definition in_cycle_at (l : t) (acc : R) : Prop :=
  (currentPhaseIndex l < 6)%nat /\
  exists p, nth_error phases (currentPhaseIndex l) = Some p /\
            0 <= phaseTimer l < duration p /\
            phaseStart (currentPhaseIndex l) + phaseTimer l = acc.

(** The claim C3 as the specification words it: any replay of [offset % 26]
    seconds of simulated time from a fresh controller reads the same as
    [setPhaseOffset(offset)]. *)
Definition offset_replay_claim : Prop :=
  forall (i : Intersection.t) (offset : R) (deltas : list R),
    0 <= offset ->
    Forall (fun delta => 0 <= delta) deltas ->
    total deltas = JS.rem offset getTotalCycleDuration ->
    option_map reading (replay deltas (new i)) =
    Some (reading (setPhaseOffset offset (new i))).

(** [canProceed(direction)]. *)
Definition canProceed (d : Direction) (l : t) : option bool :=
  match getState d l with
  | Some green => Some true
  | Some _ => Some false
  | None => None
  end.

(** [shouldPrepareToStop(direction)]. *)
Definition shouldPrepareToStop (d : Direction) (l : t) : option bool :=
  match getState d l with
  | Some yellow => Some true
  | Some _ => Some false
  | None => None
  end.

(** States reached from construction by [update] with a non-negative
    [delta] and by [setPhaseOffset] with a non-negative offset, the only
    calls the coordinator makes. *)
Inductive running : t -> Prop :=
| run_new : forall i, running (new i)
| run_update : forall l l' delta,
    running l -> 0 <= delta -> update delta l = Some l' -> running l'
| run_offset : forall l offset,
    running l -> 0 <= offset -> running (setPhaseOffset offset l).

(** The two directions of one axis. *)
Definition sameAxis (a b : Direction) : bool :=
  match a, b with
  | (north | south), (north | south) => true
  | (east | west), (east | west) => true
  | _, _ => false
  end.

End TrafficLight.

(** ** Strings and keyed maps *)

(** [String(n)] for a non-negative integer, as used by template strings. *)
Definition nat_to_string (n : nat) : string :=
  NilZero.string_of_uint (Nat.to_uint n).

(** [s.includes(sub)]. *)
Fixpoint includes (sub s : string) : bool :=
  if String.prefix sub s then true
  else match s with
       | EmptyString => false
       | String _ rest => includes sub rest
       end.

(** [s.startsWith(sub)]. *)
Definition startsWith (sub s : string) : bool := String.prefix sub s.

(** [array.indexOf(key)] on strings: [-1] when absent. *)
Fixpoint indexOf (key : string) (l : list string) : Z :=
  match l with
  | [] => (-1)%Z
  | k :: rest =>
      if String.eqb k key then 0%Z
      else match indexOf key rest with
           | Zneg _ => (-1)%Z
           | i => (i + 1)%Z
           end
  end.

(** [array[i]] for a number [i] that is an integer: [undefined] out of range. *)
Definition at_index {A : Type} (l : list A) (i : Z) : option A :=
  match i with
  | Zneg _ => None
  | _ => nth_error l (Z.to_nat i)
  end.

(** A JavaScript [Map] with string keys: entries in insertion order. *)
Module Map.

Definition t (V : Type) : Type := list (string * V).

Definition empty {V : Type} : t V := [].

Fixpoint get {V : Type} (key : string) (m : t V) : option V :=
  match m with
  | [] => None
  | (k, v) :: rest => if String.eqb k key then Some v else get key rest
  end.

(** [set] keeps the place of a key that is already present. *)
Fixpoint set {V : Type} (key : string) (v : V) (m : t V) : t V :=
  match m with
  | [] => [(key, v)]
  | (k, w) :: rest =>
      if String.eqb k key then (k, v) :: rest else (k, w) :: set key v rest
  end.

(** In-place mutation of the object stored under [key]. *)
Fixpoint modify {V : Type} (key : string) (f : V -> V) (m : t V) : t V :=
  match m with
  | [] => []
  | (k, w) :: rest =>
      if String.eqb k key then (k, f w) :: rest else (k, w) :: modify key f rest
  end.

Definition entries {V : Type} (m : t V) : list (string * V) := m.
Definition values {V : Type} (m : t V) : list V := map snd m.

End Map.

(** Euclidean distance, [Math.sqrt(Math.pow(ax - bx, 2) + Math.pow(az - bz, 2))]. *)
Definition dist (a b : Point) : R :=
  sqrt ((x a - x b) ^ 2 + (z a - z b) ^ 2).

(** ** CityRoadNetwork.js: the road graph *)

Inductive SegmentType : Type := main | side | highway | connector.

(** The arc of a segment of the highway loop. *)
Record Arc : Type := mkArc {
  curveCenter : option Point;
  curveRadius : R;
  curveStartAngle : R;
  curveEndAngle : R
}.

Module Segment.
Record t : Type := mk {
  id : string;
  type : SegmentType;
  start : Point;
  end_ : Point;
  width : R;
  lanes : nat;
  speedLimit : R;
  isCurved : bool;
  arc : option Arc;
  controlPoint : option Point;
  direction : string
}.

(** [segment.isCurved && segment.curveRadius]: the arc when it is truthy. *)
Definition curved (s : t) : option Arc :=
  if isCurved s then
    match arc s with
    | Some a => if JS.truthy (curveRadius a) then Some a else None
    | None => None
    end
  else None.
End Segment.

Module Waypoint.
Record t : Type := mk {
  id : string;
  position : Point;
  lane : nat;
  segmentId : string;
  direction : Z
}.
End Waypoint.

Module Lane.
Record t : Type := mk {
  id : string;
  segmentId : string;
  laneIndex : nat;
  direction : Z;
  speedLimit : R;
  waypoints : list string
}.
End Lane.

Module CityRoadNetwork.

Record t : Type := mk {
  segments : list Segment.t;
  intersections : list Intersection.t;
  waypoints : Map.t Waypoint.t;
  lanes : list Lane.t
}.

Definition citySize : R := 300.
Definition mainRoadWidth : R := 10.
Definition sideRoadWidth : R := 6.
Definition highwayWidth : R := 14.
Definition laneWidth : R := 2.5.

(** [array.forEach((v, index) => ...)]: the elements with their indices. *)
Definition indexed {A : Type} (l : list A) : list (nat * A) :=
  combine (seq 0 (List.length l)) l.

Definition createMainRoads : list Segment.t :=
  map (fun '(index, pz) =>
         Segment.mk ("main-h" ++ nat_to_string index) main
           (mkPoint (-120) pz) (mkPoint 120 pz)
           mainRoadWidth 4 50 false None None "horizontal")
      (indexed [-80; 0; 80])
  ++
  map (fun '(index, px) =>
         Segment.mk ("main-v" ++ nat_to_string index) main
           (mkPoint px (-120)) (mkPoint px 120)
           mainRoadWidth 4 50 false None None "vertical")
      (indexed [-80; 0; 80]).

Definition createSideStreets : list Segment.t :=
  map (fun '(index, pz) =>
         Segment.mk ("side-h" ++ nat_to_string index) side
           (mkPoint (-80) pz) (mkPoint 80 pz)
           sideRoadWidth 2 30 false None None "horizontal")
      (indexed [-40; 40])
  ++
  map (fun '(index, px) =>
         Segment.mk ("side-v" ++ nat_to_string index) side
           (mkPoint px (-80)) (mkPoint px 80)
           sideRoadWidth 2 30 false None None "vertical")
      (indexed [-40; 40]).

Definition createHighwayLoop : list Segment.t :=
  let radius := 140 in
  let numSegments := 16%nat in
  map (fun i =>
         let angle1 := INR i / INR numSegments * PI * 2 in
         let angle2 := (INR i + 1) / INR numSegments * PI * 2 in
         Segment.mk ("highway-" ++ nat_to_string i) highway
           (mkPoint (cos angle1 * radius) (sin angle1 * radius))
           (mkPoint (cos angle2 * radius) (sin angle2 * radius))
           highwayWidth 4 80 true
           (Some (mkArc (Some (mkPoint 0 0)) radius angle1 angle2))
           None "circular")
      (seq 0 numSegments).

Definition createCurvedConnectors : list Segment.t :=
  map (fun '(index, (from, to, control)) =>
         Segment.mk ("connector-" ++ nat_to_string index) connector
           from to mainRoadWidth 2 40 true None (Some control) "connector")
      (indexed
         [ (mkPoint 120 0, mkPoint 140 0, mkPoint 135 10);
           (mkPoint (-120) 0, mkPoint (-140) 0, mkPoint (-135) (-10));
           (mkPoint 0 120, mkPoint 0 140, mkPoint 10 135);
           (mkPoint 0 (-120), mkPoint 0 (-140), mkPoint (-10) (-135)) ]).

Definition createIntersections : list Intersection.t :=
  let mainPositions := indexed [-80; 0; 80] in
  let sideH := indexed [-40; 40] in
  let sideV := indexed [-40; 40] in
  flat_map (fun '(xi, px) =>
    map (fun '(zi, pz) =>
           Intersection.mk
             ("intersection-" ++ nat_to_string xi ++ "-" ++ nat_to_string zi)
             (mkPoint px pz) true
             [("main-h" ++ nat_to_string zi)%string; ("main-v" ++ nat_to_string xi)%string]
             mainRoadWidth)
        mainPositions)
    mainPositions
  ++
  flat_map (fun '(zi, pz) =>
    map (fun '(xi, px) =>
           Intersection.mk
             ("side-intersection-" ++ nat_to_string xi ++ "-" ++ nat_to_string zi)
             (mkPoint px pz) false
             [("side-h" ++ nat_to_string zi)%string; ("side-v" ++ nat_to_string xi)%string]
             sideRoadWidth)
        sideV)
    sideH
  ++
  flat_map (fun '(mi, mainPos) =>
    map (fun '(si, sideZ) =>
           Intersection.mk
             ("cross-v" ++ nat_to_string mi ++ "-sh" ++ nat_to_string si)
             (mkPoint mainPos sideZ) true
             [("main-v" ++ nat_to_string mi)%string; ("side-h" ++ nat_to_string si)%string]
             mainRoadWidth)
        sideH
    ++
    map (fun '(si, sideX) =>
           Intersection.mk
             ("cross-h" ++ nat_to_string mi ++ "-sv" ++ nat_to_string si)
             (mkPoint sideX mainPos) true
             [("main-h" ++ nat_to_string mi)%string; ("side-v" ++ nat_to_string si)%string]
             mainRoadWidth)
        sideV)
    mainPositions.

Definition waypointSpacing : R := 8.

(** [lane < segment.lanes / 2 ? 1 : -1]. *)
Definition laneDirection (lane lanes : nat) : Z :=
  if JS.lt (INR lane) (INR lanes / 2) then 1%Z else (-1)%Z.

(** [(lane - (segment.lanes - 1) / 2) * this.laneWidth]. *)
Definition laneOffset (lane lanes : nat) : R :=
  (INR lane - (INR lanes - 1) / 2) * laneWidth.

Definition waypointId (s : Segment.t) (i lane : nat) : string :=
  Segment.id s ++ "-wp" ++ nat_to_string i ++ "-lane" ++ nat_to_string lane.

(** [Math.max(lo, Math.ceil(length / waypointSpacing))]. *)
Definition numPointsFor (lo : Z) (length : R) : nat :=
  Z.to_nat (Z.max lo (JS.Math_ceil (length / waypointSpacing))).

(** The two nested loops: [i] from 0 to [numPoints] inclusive, and inside
    it one waypoint per lane. *)
Definition alongLanes (s : Segment.t) (numPoints : nat)
    (place : R -> R -> Point) : list Waypoint.t :=
  flat_map (fun i =>
    let t := INR i / INR numPoints in
    map (fun lane =>
           Waypoint.mk (waypointId s i lane)
             (place t (laneOffset lane (Segment.lanes s)))
             lane (Segment.id s)
             (laneDirection lane (Segment.lanes s)))
        (seq 0 (Segment.lanes s)))
    (seq 0 (S numPoints)).

(** The [waypoints] array built for one segment by [generateWaypoints]. *)
Definition segmentWaypoints (s : Segment.t) : list Waypoint.t :=
  match Segment.curved s with
  | Some a =>
      let arcLength :=
        Rabs (curveEndAngle a - curveStartAngle a) * curveRadius a in
      let numPoints := numPointsFor 3 arcLength in
      alongLanes s numPoints (fun t laneOffset =>
        let angle :=
          curveStartAngle a + t * (curveEndAngle a - curveStartAngle a) in
        let r := curveRadius a + laneOffset in
        mkPoint
          (cos angle * r +
             JS.or_else (match curveCenter a with Some c => x c | None => 0 end) 0)
          (sin angle * r +
             JS.or_else (match curveCenter a with Some c => z c | None => 0 end) 0))
  | None =>
      let dx := x (Segment.end_ s) - x (Segment.start s) in
      let dz := z (Segment.end_ s) - z (Segment.start s) in
      let length := sqrt (dx * dx + dz * dz) in
      let numPoints := numPointsFor 2 length in
      let perpX := - dz / length in
      let perpZ := dx / length in
      alongLanes s numPoints (fun t laneOffset =>
        mkPoint (x (Segment.start s) + t * dx + perpX * laneOffset)
                (z (Segment.start s) + t * dz + perpZ * laneOffset))
  end.

(** The lane records pushed for one segment. *)
Definition segmentLanes (s : Segment.t) (wps : list Waypoint.t) : list Lane.t :=
  map (fun lane =>
         Lane.mk (Segment.id s ++ "-lane" ++ nat_to_string lane)
           (Segment.id s) lane
           (laneDirection lane (Segment.lanes s))
           (Segment.speedLimit s)
           (map Waypoint.id
              (filter (fun w => Nat.eqb (Waypoint.lane w) lane) wps)))
      (seq 0 (Segment.lanes s)).

(** One round of the [forEach] of [generateWaypoints]: the waypoints of the
    segment enter the map and its lanes are pushed. *)
Definition addSegment (net : t) (s : Segment.t) : t :=
  let wps := segmentWaypoints s in
  mk (segments net) (intersections net)
     (fold_left (fun m w => Map.set (Waypoint.id w) w m) wps (waypoints net))
     (lanes net ++ segmentLanes s wps).

(** [generateWaypoints]: the waypoint map and the lanes of all segments. *)
Definition generateWaypoints (net : t) : t :=
  fold_left addSegment (segments net) net.

(** [build], called by the constructor. *)
Definition build : t :=
  generateWaypoints
    (mk (createMainRoads ++ createSideStreets ++ createHighwayLoop
           ++ createCurvedConnectors)
        createIntersections Map.empty []).

Definition getSegments (net : t) : list Segment.t := segments net.
Definition getIntersections (net : t) : list Intersection.t := intersections net.

Definition getTrafficLightIntersections (net : t) : list Intersection.t :=
  filter Intersection.hasTrafficLight (intersections net).

Definition getWaypoint (net : t) (wid : string) : option Waypoint.t :=
  Map.get wid (waypoints net).

Definition laneIdOf (w : Waypoint.t) : string :=
  Waypoint.segmentId w ++ "-lane" ++ nat_to_string (Waypoint.lane w).

(** The intersection [find] returns: the first one, in the order of the
    array, that is less than 15 units from the waypoint. *)
Definition nearbyIntersection (net : t) (currentWp : Waypoint.t)
    : option Intersection.t :=
  find (fun inter =>
          JS.lt (dist (Intersection.position inter) (Waypoint.position currentWp)) 15)
       (intersections net).

(** The lanes a vehicle may turn into at [inter]. *)
Definition connectedLanes (net : t) (currentWp : Waypoint.t)
    (inter : Intersection.t) : list Lane.t :=
  filter (fun l =>
            if String.eqb (Lane.segmentId l) (Waypoint.segmentId currentWp)
            then false
            else match find (fun s => String.eqb (Segment.id s) (Lane.segmentId l))
                            (segments net) with
                 | None => false
                 | Some segment =>
                     let distToStart :=
                       dist (Intersection.position inter) (Segment.start segment) in
                     let distToEnd :=
                       dist (Intersection.position inter) (Segment.end_ segment) in
                     JS.lt distToStart 15 || JS.lt distToEnd 15
                 end)
         (lanes net).

(** [findConnectingWaypoint(currentWp, direction)]; [rnd] is the value that
    [Math.random()] returns when it is called.  [None] stands for the [null]
    or [undefined] the source returns. *)
Definition findConnectingWaypoint (net : t) (currentWp : Waypoint.t)
    (direction : Z) (rnd : R) : option Waypoint.t :=
  match nearbyIntersection net currentWp with
  | None =>
      match find (fun l => String.eqb (Lane.id l) (laneIdOf currentWp)) (lanes net) with
      | Some lane =>
          if (0 <? Z.of_nat (List.length (Lane.waypoints lane)))%Z then
            let loopIndex :=
              if (0 <? direction)%Z then 0%Z
              else (Z.of_nat (List.length (Lane.waypoints lane)) - 1)%Z in
            match at_index (Lane.waypoints lane) loopIndex with
            | Some wid => Map.get wid (waypoints net)
            | None => None
            end
          else None
      | None => None
      end
  | Some inter =>
      let connected := connectedLanes net currentWp inter in
      match connected with
      | [] => None
      | _ =>
          let pick :=
            JS.Math_floor (rnd * INR (List.length connected)) in
          match at_index connected pick with
          | None => None
          | Some nextLane =>
              let wid :=
                if (0 <? Lane.direction nextLane)%Z
                then at_index (Lane.waypoints nextLane) 0
                else at_index (Lane.waypoints nextLane)
                       (Z.of_nat (List.length (Lane.waypoints nextLane)) - 1) in
              match wid with
              | Some w => Map.get w (waypoints net)
              | None => None
              end
          end
      end
  end.

(** [getNextWaypoint(currentWpId, direction)]. *)
Definition getNextWaypoint (net : t) (currentWpId : string) (direction : Z)
    (rnd : R) : option Waypoint.t :=
  match Map.get currentWpId (waypoints net) with
  | None => None
  | Some wp =>
      match find (fun l => String.eqb (Lane.id l) (laneIdOf wp)) (lanes net) with
      | None => None
      | Some lane =>
          let currentIndex := indexOf currentWpId (Lane.waypoints lane) in
          let nextIndex := (currentIndex + direction)%Z in
          if (nextIndex <? 0)%Z
             || (Z.of_nat (List.length (Lane.waypoints lane)) <=? nextIndex)%Z
          then findConnectingWaypoint net wp direction rnd
          else match at_index (Lane.waypoints lane) nextIndex with
               | Some wid => Map.get wid (waypoints net)
               | None => None
               end
      end
  end.

(** The middle horizontal main road, as [createMainRoads] pushes it. *)
Definition main_h1 : Segment.t :=
  Segment.mk "main-h1" main (mkPoint (-120) 0) (mkPoint 120 0)
    mainRoadWidth 4 50 false None None "horizontal".



(** Every lane has waypoints, and every waypoint id of a lane resolves. *)
Definition lanes_resolve (net : t) : Prop :=
  forall lane, In lane (lanes net) ->
    Lane.waypoints lane <> [] /\
    forall wid, In wid (Lane.waypoints lane) ->
      exists w, getWaypoint net wid = Some w.







(** The test [isOnRoad] makes for one segment. *)
Definition onSegment (s : Segment.t) (px pz : R) : bool :=
  match Segment.curved s with
  | Some a =>
      let dist := sqrt (px * px + pz * pz) in
      JS.lt (Rabs (dist - curveRadius a)) (Segment.width s / 2 + 2)
  | None =>
      let dx := x (Segment.end_ s) - x (Segment.start s) in
      let dz := z (Segment.end_ s) - z (Segment.start s) in
      let length := sqrt (dx * dx + dz * dz) in
      let qx := px - x (Segment.start s) in
      let qz := pz - z (Segment.start s) in
      let t := (qx * dx + qz * dz) / (length * length) in
      (* a segment of length 0 makes [t] the [NaN] of 0/0: both tests fail *)
      if JS.eq length 0 then false
      else if JS.ge t (-0.1) && JS.le t 1.1 then
        let closestX := x (Segment.start s) + t * dx in
        let closestZ := z (Segment.start s) + t * dz in
        let distToRoad := sqrt ((px - closestX) ^ 2 + (pz - closestZ) ^ 2) in
        JS.lt distToRoad (Segment.width s / 2 + 2)
      else false
  end.

(** [isOnRoad(x, z)]: [true] at the first segment that passes the test. *)
Definition isOnRoad (net : t) (px pz : R) : bool :=
  existsb (fun s => onSegment s px pz) (segments net).

(** [getNearestIntersection(x, z)]: the pair [{ intersection, distance }]. *)
Definition getNearestIntersection (net : t) (px pz : R)
    : option Intersection.t * JS.Num :=
  fold_left
    (fun nearest inter =>
       let dist := dist (Intersection.position inter) (mkPoint px pz) in
       if JS.lt_num dist (snd nearest) then (Some inter, JS.Fin dist) else nearest)
    (intersections net) (None, JS.Infinity).

(** What [getRandomSpawnPoint] returns. *)
Record SpawnPoint : Type := mkSpawnPoint {
  spawnPosition : Point;
  spawnLane : Lane.t;
  waypointIndex : Z;
  spawnDirection : Z
}.

Definition drivable (l : Lane.t) : bool :=
  startsWith "main" (Lane.segmentId l) || startsWith "highway" (Lane.segmentId l).

(** [getRandomSpawnPoint()]; [rnd1] and [rnd2] are the values of its two
    [Math.random()] calls.  [None] is the [TypeError] of reading a property
    of an [undefined] lane or waypoint. *)
Definition getRandomSpawnPoint (net : t) (rnd1 rnd2 : R) : option SpawnPoint :=
  let drivableLanes := filter drivable (lanes net) in
  match at_index drivableLanes
          (JS.Math_floor (rnd1 * INR (List.length drivableLanes))) with
  | None => None
  | Some lane =>
      let waypointIds := Lane.waypoints lane in
      match at_index waypointIds
              (JS.Math_floor (rnd2 * (INR (List.length waypointIds) - 1))) with
      | None => None
      | Some startWpId =>
          match Map.get startWpId (waypoints net) with
          | None => None
          | Some wp =>
              Some (mkSpawnPoint (Waypoint.position wp) lane
                      (indexOf startWpId waypointIds) (Lane.direction lane))
          end
      end
  end.

(** What a nearest-so-far pair says about the elements seen. *)
Definition nearest_of {A : Type} (f : A -> R) (seen : list A)
    (best : option A * JS.Num) : Prop :=
  match best with
  | (None, JS.Infinity) => seen = []
  | (Some a, JS.Fin d) => In a seen /\ d = f a /\ forall b, In b seen -> f a <= f b
  | _ => False
  end.

(** A junction of two roads, with one lane and one waypoint each: [roadA]
    ends where [roadB] starts, at the intersection. *)
Definition roadA : Segment.t :=
  Segment.mk "main-a" main (mkPoint (-40) 0) (mkPoint 0 0)
    mainRoadWidth 1 50 false None None "horizontal".
Definition roadB : Segment.t :=
  Segment.mk "side-b" side (mkPoint 0 0) (mkPoint 0 40)
    sideRoadWidth 1 30 false None None "vertical".
Definition wpA : Waypoint.t := Waypoint.mk "main-a-wp0-lane0" (mkPoint 0 0) 0 "main-a" 1.
Definition wpB : Waypoint.t := Waypoint.mk "side-b-wp0-lane0" (mkPoint 0 0) 0 "side-b" 1.
Definition junction : t :=
  mk [roadA; roadB]
     [Intersection.mk "j" (mkPoint 0 0) true ["main-a"; "side-b"]%string mainRoadWidth]
     [("main-a-wp0-lane0"%string, wpA); ("side-b-wp0-lane0"%string, wpB)]
     [Lane.mk "main-a-lane0" "main-a" 0 1 50 ["main-a-wp0-lane0"%string];
      Lane.mk "side-b-lane0" "side-b" 0 1 30 ["side-b-wp0-lane0"%string]].

End CityRoadNetwork.


(** ** TrafficManager: the signal coordinator *)

(** What [shouldStop] returns. *)
Module StopResult.
Record t : Type := mk {
  shouldStop : bool;
  distance : JS.Num;
  intersection : option string;
  state : option Aspect;
  stopPosition : option Point
}.
End StopResult.

(** One [light.setPhaseOffset(argument)] call of a green-wave pass, with the
    value [cumulativeOffset] has when the call is made. *)
Record OffsetCall : Type := mkOffsetCall {
  target : string;
  cumulative : R;
  argument : R
}.

Module TrafficManager.

Record t : Type := mk {
  roadNetwork : CityRoadNetwork.t;
  trafficLights : Map.t TrafficLight.t;
  greenWaveSpeed : R;
  baseCycleTime : R
}.

Definition new (net : CityRoadNetwork.t) : t := mk net Map.empty 50 26.

(** [array.sort((a, b) => key(a) - key(b))]: a stable ascending sort. *)
Fixpoint insertBy {A : Type} (key : A -> R) (a : A) (sorted : list A) : list A :=
  match sorted with
  | [] => [a]
  | b :: rest =>
      if JS.lt (key a) (key b) then a :: b :: rest
      else b :: insertBy key a rest
  end.

Definition sortBy {A : Type} (key : A -> R) (l : list A) : list A :=
  fold_left (fun sorted a => insertBy key a sorted) l [].

Definition lightX (e : string * TrafficLight.t) : R :=
  x (TrafficLight.getPosition (snd e)).
Definition lightZ (e : string * TrafficLight.t) : R :=
  z (TrafficLight.getPosition (snd e)).

(** The entries with [index > 0] of a pass's [forEach]; [prev] is the entry
    before and [cumulativeOffset] the variable of the source. *)
Fixpoint waveFrom (m : t) (coord : string * TrafficLight.t -> R)
    (prev : string * TrafficLight.t) (cumulativeOffset : R)
    (group : list (string * TrafficLight.t)) : list OffsetCall :=
  match group with
  | [] => []
  | e :: rest =>
      let distance := Rabs (coord e - coord prev) in
      let travelTime := distance / greenWaveSpeed m in
      let cumulativeOffset := cumulativeOffset + travelTime in
      mkOffsetCall (fst e) cumulativeOffset
        (JS.rem cumulativeOffset (baseCycleTime m))
      :: waveFrom m coord e cumulativeOffset rest
  end.

(** One pass over a sorted group; the first light gets [start] itself. *)
Definition wave (m : t) (coord : string * TrafficLight.t -> R) (start : R)
    (group : list (string * TrafficLight.t)) : list OffsetCall :=
  match group with
  | [] => []
  | e :: rest => mkOffsetCall (fst e) start start :: waveFrom m coord e start rest
  end.

(** The calls act on the light objects that the map holds. *)
Definition applyCalls (calls : list OffsetCall) (lights : Map.t TrafficLight.t)
    : Map.t TrafficLight.t :=
  fold_left
    (fun lights c =>
       Map.modify (target c) (TrafficLight.setPhaseOffset (argument c)) lights)
    calls lights.

Definition mainHIntersections (m : t) : list (string * TrafficLight.t) :=
  sortBy lightX
    (filter (fun e => includes "intersection-" (fst e) && includes "-1" (fst e))
            (Map.entries (trafficLights m))).

Definition mainVIntersections (m : t) : list (string * TrafficLight.t) :=
  sortBy lightZ
    (filter (fun e => includes "intersection-1-" (fst e))
            (Map.entries (trafficLights m))).

Definition horizontalCalls (m : t) : list OffsetCall :=
  wave m lightX 0 (mainHIntersections m).

Definition verticalCalls (m : t) : list OffsetCall :=
  wave m lightZ (baseCycleTime m / 2) (mainVIntersections m).

Definition withLights (m : t) (lights : Map.t TrafficLight.t) : t :=
  mk (roadNetwork m) lights (greenWaveSpeed m) (baseCycleTime m).

(** [applyGreenWave]: the horizontal pass, then the vertical one. *)
Definition applyGreenWave (m : t) : t :=
  let m1 := withLights m (applyCalls (horizontalCalls m) (trafficLights m)) in
  withLights m1 (applyCalls (verticalCalls m1) (trafficLights m1)).

(** The first half of [createTrafficLights]: one fresh light per signaled
    intersection, keyed by the intersection's id. *)
Definition withNewLights (m : t) : t :=
  let intersections :=
    CityRoadNetwork.getTrafficLightIntersections (roadNetwork m) in
  withLights m
    (fold_left
       (fun lights i => Map.set (Intersection.id i) (TrafficLight.new i) lights)
       intersections (trafficLights m)).

(** [createTrafficLights]. *)
Definition createTrafficLights (m : t) : t := applyGreenWave (withNewLights m).


(** [update(delta)]: every light is ticked; a throwing light aborts the call. *)
Fixpoint updateLights (delta : R) (lights : Map.t TrafficLight.t)
    : option (Map.t TrafficLight.t) :=
  match lights with
  | [] => Some []
  | (k, light) :: rest =>
      match TrafficLight.update delta light with
      | None => None
      | Some light' =>
          match updateLights delta rest with
          | None => None
          | Some rest' => Some ((k, light') :: rest')
          end
      end
  end.

Definition update (delta : R) (m : t) : option t :=
  option_map (withLights m) (updateLights delta (trafficLights m)).

(** [getApproachDirection(vehiclePos, intersectionPos, heading)]. *)
Definition getApproachDirection (vehiclePos intersectionPos : Point) (heading : R)
    : Direction :=
  let dx := x intersectionPos - x vehiclePos in
  let dz := z intersectionPos - z vehiclePos in
  if JS.gt (Rabs dx) (Rabs dz)
  then (if JS.gt dx 0 then west else east)
  else (if JS.gt dz 0 then south else north).

(** [getStopPosition(intersectionPos, approachDirection)]. *)
Definition getStopPosition (intersectionPos : Point) (approachDirection : Direction)
    : Point :=
  let stopDistance := 8 in
  match approachDirection with
  | north => mkPoint (x intersectionPos) (z intersectionPos + stopDistance)
  | south => mkPoint (x intersectionPos) (z intersectionPos - stopDistance)
  | east => mkPoint (x intersectionPos - stopDistance) (z intersectionPos)
  | west => mkPoint (x intersectionPos + stopDistance) (z intersectionPos)
  end.

(** The variables [nearestStopRequired] and [nearestDistance]. *)
Definition Nearest : Type := (option StopResult.t * JS.Num)%type.

(** The body of the [forEach] of [shouldStop], for one light.  [None] is the
    [TypeError] of a light whose phase index is out of range. *)
Definition considerLight (position : Point) (heading checkDistance : R)
    (nearest : Nearest) (light : TrafficLight.t) : option Nearest :=
  let lightPos := TrafficLight.getPosition light in
  let toLight := mkPoint (x lightPos - x position) (z lightPos - z position) in
  let distance := sqrt (x toLight * x toLight + z toLight * z toLight) in
  if JS.gt distance checkDistance || JS.lt distance 2 then Some nearest
  else
    let forward := mkPoint (sin heading) (cos heading) in
    let dot := x toLight * x forward + z toLight * z forward in
    if JS.lt dot 0 then Some nearest
    else
      let direction := getApproachDirection position lightPos heading in
      match TrafficLight.getState direction light with
      | None => None
      | Some lightState =>
          match lightState with
          | red | yellow =>
              if JS.lt_num distance (snd nearest)
              then Some (Some (StopResult.mk true (JS.Fin distance)
                                 (Some (TrafficLight.getIntersectionId light))
                                 (Some lightState)
                                 (Some (getStopPosition lightPos direction))),
                         JS.Fin distance)
              else Some nearest
          | green => Some nearest
          end
      end.

Fixpoint scanLights (position : Point) (heading checkDistance : R)
    (nearest : Nearest) (lights : list TrafficLight.t) : option Nearest :=
  match lights with
  | [] => Some nearest
  | light :: rest =>
      match considerLight position heading checkDistance nearest light with
      | None => None
      | Some nearest' => scanLights position heading checkDistance nearest' rest
      end
  end.

(** [shouldStop(position, heading, checkDistance)]. *)
Definition shouldStop (m : t) (position : Point) (heading checkDistance : R)
    : option StopResult.t :=
  match scanLights position heading checkDistance (None, JS.Infinity)
          (Map.values (trafficLights m)) with
  | None => None
  | Some (Some nearestStopRequired, _) => Some nearestStopRequired
  | Some (None, _) => Some (StopResult.mk false JS.Infinity None None None)
  end.

(** The light object stored under [key] after the calls that target it. *)
Definition callsFor (key : string) (calls : list OffsetCall) (l : TrafficLight.t)
    : TrafficLight.t :=
  fold_left
    (fun l c =>
       if String.eqb (target c) key
       then TrafficLight.setPhaseOffset (argument c) l
       else l)
    calls l.

(** The distance [shouldStop] computes between the vehicle and a light. *)
Definition separation (position lightPos : Point) : R :=
  sqrt ((x lightPos - x position) * (x lightPos - x position)
        + (z lightPos - z position) * (z lightPos - z position)).

(** The manager the application builds on the city's road network: after
    the lights are created, after the horizontal pass, and synchronised. *)
Definition cityNew : t := withNewLights (new CityRoadNetwork.build).

Definition cityHorizontal : t :=
  withLights cityNew (applyCalls (horizontalCalls cityNew) (trafficLights cityNew)).

Definition city : t := createTrafficLights (new CityRoadNetwork.build).

(** [getLight(intersectionId)] and [getAllLights()]. *)
Definition getLight (m : t) (intersectionId : string) : option TrafficLight.t :=
  Map.get intersectionId (trafficLights m).

Definition getAllLights (m : t) : list TrafficLight.t :=
  Map.values (trafficLights m).

(** The calls [update(delta)] of successive frames. *)
Fixpoint updates (deltas : list R) (m : t) : option t :=
  match deltas with
  | [] => Some m
  | delta :: rest =>
      match update delta m with
      | None => None
      | Some m' => updates rest m'
      end
  end.

(** The variables [nearestLight] and [minDist] after the [forEach] of
    [isPedestrianWalkSignal]. *)
Definition nearestLight (m : t) (crosswalkPosition : Point)
    : option TrafficLight.t * JS.Num :=
  fold_left
    (fun nearest light =>
       if JS.lt_num (dist (TrafficLight.getPosition light) crosswalkPosition)
                    (snd nearest)
       then (Some light,
             JS.Fin (dist (TrafficLight.getPosition light) crosswalkPosition))
       else nearest)
    (Map.values (trafficLights m)) (None, JS.Infinity).

(** [isPedestrianWalkSignal(crosswalkPosition)].  [None] is the [TypeError]
    of a nearest light whose phase index is out of range. *)
Definition isPedestrianWalkSignal (m : t) (crosswalkPosition : Point)
    : option bool :=
  match nearestLight m crosswalkPosition with
  | (None, _) => Some true
  | (Some light, minDist) =>
      if match minDist with
         | JS.Infinity => true
         | JS.Fin d => JS.gt d 20
         end
      then Some true
      else match nth_error TrafficLight.phases
                   (TrafficLight.currentPhaseIndex light) with
           | None => None
           | Some phase =>
               Some (match ns phase, ew phase with
                     | red, red => true
                     | _, _ => false
                     end)
           end
  end.

(** The light is within the lookahead distance and not nearer than 2, it is
    not behind the vehicle, and it does not show green to the vehicle's
    approach. *)
Definition demandsStop (position : Point) (heading checkDistance : R)
    (light : TrafficLight.t) : Prop :=
  let lightPos := TrafficLight.getPosition light in
  2 <= separation position lightPos <= checkDistance /\
  0 <= (x lightPos - x position) * sin heading
       + (z lightPos - z position) * cos heading /\
  exists a,
    TrafficLight.getState (getApproachDirection position lightPos heading) light
    = Some a /\ a <> green.

(** What [shouldStop] reports for a light that demands a stop. *)
Definition stopAt (position : Point) (heading : R) (light : TrafficLight.t)
    (a : Aspect) : StopResult.t :=
  let lightPos := TrafficLight.getPosition light in
  StopResult.mk true (JS.Fin (separation position lightPos))
    (Some (TrafficLight.getIntersectionId light)) (Some a)
    (Some (getStopPosition lightPos
             (getApproachDirection position lightPos heading))).

(** What the variables [nearestStopRequired] and [nearestDistance] of
    [shouldStop] hold once the lights [seen] have been visited. *)
Definition nearestStop (position : Point) (heading checkDistance : R)
    (seen : list TrafficLight.t) (nearest : Nearest) : Prop :=
  match nearest with
  | (None, JS.Infinity) =>
      forall light, In light seen ->
        ~ demandsStop position heading checkDistance light
  | (Some r, JS.Fin d) =>
      exists light a,
        In light seen /\
        demandsStop position heading checkDistance light /\
        TrafficLight.getState
          (getApproachDirection position (TrafficLight.getPosition light) heading)
          light = Some a /\
        r = stopAt position heading light a /\
        d = separation position (TrafficLight.getPosition light) /\
        forall other, In other seen ->
          demandsStop position heading checkDistance other ->
          d <= separation position (TrafficLight.getPosition other)
  | _ => False
  end.

End TrafficManager.


(** ** NPCVehicle.js: the vehicle agents *)

Module JSMath.

(** [Math.atan2(y, x)]. *)
Definition atan2 (y0 x0 : R) : R :=
  if JS.gt x0 0 then atan (y0 / x0)
  else if JS.lt x0 0 then
         (if JS.ge y0 0 then atan (y0 / x0) + PI else atan (y0 / x0) - PI)
       else if JS.gt y0 0 then PI / 2
            else if JS.lt y0 0 then - (PI / 2) else 0.

(** [while (a > Math.PI) a -= Math.PI * 2], at most [fuel] rounds. *)
Fixpoint wrapDown (fuel : nat) (a : R) : R :=
  match fuel with
  | O => a
  | S fuel' => if JS.gt a PI then wrapDown fuel' (a - PI * 2) else a
  end.

(** [while (a < -Math.PI) a += Math.PI * 2], at most [fuel] rounds. *)
Fixpoint wrapUp (fuel : nat) (a : R) : R :=
  match fuel with
  | O => a
  | S fuel' => if JS.lt a (- PI) then wrapUp fuel' (a + PI * 2) else a
  end.

(** The two loops in sequence.  Every round moves the angle by more than 6
    towards the interval, so [|a|] rounds are enough for each loop. *)
Definition wrapAngle (a : R) : R :=
  let fuel := Z.to_nat (up (Rabs a)) in
  wrapUp fuel (wrapDown fuel a).

End JSMath.

Inductive BehaviorState : Type :=
| driving | stopping | waiting | accelerating | turning.

Inductive Side : Type := sideLeft | sideRight.

(** What the scene shows of a vehicle once [create] has run: the pose of the
    group, the [rotation.y] of each wheel and the [emissiveIntensity] of the
    brake lights and of the turn-signal lamps. *)
Record Mesh : Type := mkMesh {
  meshPosition : Point;
  meshRotationY : R;
  wheels : list R;
  brakeLights : list R;
  leftSignals : list R;
  rightSignals : list R
}.

(** What a vehicle holds of its surroundings: the road graph and the signal
    coordinator, either of which may be [null]. *)
Record Surroundings : Type := mkSurroundings {
  roadNetwork : option CityRoadNetwork.t;
  trafficManager : option TrafficManager.t
}.

Module NPCVehicle.

(** The fields [update] reads or writes; the scene, the colours and the
    waypoint cursor of the constructor, which [update] never touches, are
    left out.  [ident] stands for the identity of the object
    ([other === this]); [vehicleAhead] holds the identity of the vehicle
    referred to. *)
Record t : Type := mk {
  ident : nat;
  position : Point;
  rotation : R;
  speed : R;
  targetSpeed : R;
  maxSpeed : R;
  acceleration : R;
  brakeForce : R;
  turnSpeed : R;
  currentLane : option Lane.t;
  state : BehaviorState;
  stoppingDistance : R;
  waitTimer : R;
  turnSignal : option Side;
  turnSignalTimer : R;
  turnSignalVisible : bool;
  followDistance : R;
  safeDistance : R;
  vehicleAhead : option nat;
  distanceToVehicleAhead : JS.Num;
  currentSegment : option Segment.t;
  segmentProgress : R;
  segmentDirection : R;
  laneOffset : R;
  mesh : option Mesh;
  wheelRotation : R
}.

(** Assignments [this.field = a]. *)
Definition set_position (a : Point) (v : t) : t :=
  mk (ident v) a (rotation v) (speed v) (targetSpeed v) (maxSpeed v)
     (acceleration v) (brakeForce v) (turnSpeed v) (currentLane v) (state v)
     (stoppingDistance v) (waitTimer v) (turnSignal v) (turnSignalTimer v)
     (turnSignalVisible v) (followDistance v) (safeDistance v) (vehicleAhead
     v) (distanceToVehicleAhead v) (currentSegment v) (segmentProgress v)
     (segmentDirection v) (laneOffset v) (mesh v) (wheelRotation v).

Definition set_rotation (a : R) (v : t) : t :=
  mk (ident v) (position v) a (speed v) (targetSpeed v) (maxSpeed v)
     (acceleration v) (brakeForce v) (turnSpeed v) (currentLane v) (state v)
     (stoppingDistance v) (waitTimer v) (turnSignal v) (turnSignalTimer v)
     (turnSignalVisible v) (followDistance v) (safeDistance v) (vehicleAhead
     v) (distanceToVehicleAhead v) (currentSegment v) (segmentProgress v)
     (segmentDirection v) (laneOffset v) (mesh v) (wheelRotation v).

Definition set_speed (a : R) (v : t) : t :=
  mk (ident v) (position v) (rotation v) a (targetSpeed v) (maxSpeed v)
     (acceleration v) (brakeForce v) (turnSpeed v) (currentLane v) (state v)
     (stoppingDistance v) (waitTimer v) (turnSignal v) (turnSignalTimer v)
     (turnSignalVisible v) (followDistance v) (safeDistance v) (vehicleAhead
     v) (distanceToVehicleAhead v) (currentSegment v) (segmentProgress v)
     (segmentDirection v) (laneOffset v) (mesh v) (wheelRotation v).

Definition set_targetSpeed (a : R) (v : t) : t :=
  mk (ident v) (position v) (rotation v) (speed v) a (maxSpeed v)
     (acceleration v) (brakeForce v) (turnSpeed v) (currentLane v) (state v)
     (stoppingDistance v) (waitTimer v) (turnSignal v) (turnSignalTimer v)
     (turnSignalVisible v) (followDistance v) (safeDistance v) (vehicleAhead
     v) (distanceToVehicleAhead v) (currentSegment v) (segmentProgress v)
     (segmentDirection v) (laneOffset v) (mesh v) (wheelRotation v).

Definition set_currentLane (a : option Lane.t) (v : t) : t :=
  mk (ident v) (position v) (rotation v) (speed v) (targetSpeed v) (maxSpeed
     v) (acceleration v) (brakeForce v) (turnSpeed v) a (state v)
     (stoppingDistance v) (waitTimer v) (turnSignal v) (turnSignalTimer v)
     (turnSignalVisible v) (followDistance v) (safeDistance v) (vehicleAhead
     v) (distanceToVehicleAhead v) (currentSegment v) (segmentProgress v)
     (segmentDirection v) (laneOffset v) (mesh v) (wheelRotation v).

Definition set_state (a : BehaviorState) (v : t) : t :=
  mk (ident v) (position v) (rotation v) (speed v) (targetSpeed v) (maxSpeed
     v) (acceleration v) (brakeForce v) (turnSpeed v) (currentLane v) a
     (stoppingDistance v) (waitTimer v) (turnSignal v) (turnSignalTimer v)
     (turnSignalVisible v) (followDistance v) (safeDistance v) (vehicleAhead
     v) (distanceToVehicleAhead v) (currentSegment v) (segmentProgress v)
     (segmentDirection v) (laneOffset v) (mesh v) (wheelRotation v).

Definition set_stoppingDistance (a : R) (v : t) : t :=
  mk (ident v) (position v) (rotation v) (speed v) (targetSpeed v) (maxSpeed
     v) (acceleration v) (brakeForce v) (turnSpeed v) (currentLane v) (state
     v) a (waitTimer v) (turnSignal v) (turnSignalTimer v)
     (turnSignalVisible v) (followDistance v) (safeDistance v) (vehicleAhead
     v) (distanceToVehicleAhead v) (currentSegment v) (segmentProgress v)
     (segmentDirection v) (laneOffset v) (mesh v) (wheelRotation v).

Definition set_waitTimer (a : R) (v : t) : t :=
  mk (ident v) (position v) (rotation v) (speed v) (targetSpeed v) (maxSpeed
     v) (acceleration v) (brakeForce v) (turnSpeed v) (currentLane v) (state
     v) (stoppingDistance v) a (turnSignal v) (turnSignalTimer v)
     (turnSignalVisible v) (followDistance v) (safeDistance v) (vehicleAhead
     v) (distanceToVehicleAhead v) (currentSegment v) (segmentProgress v)
     (segmentDirection v) (laneOffset v) (mesh v) (wheelRotation v).

Definition set_turnSignal (a : option Side) (v : t) : t :=
  mk (ident v) (position v) (rotation v) (speed v) (targetSpeed v) (maxSpeed
     v) (acceleration v) (brakeForce v) (turnSpeed v) (currentLane v) (state
     v) (stoppingDistance v) (waitTimer v) a (turnSignalTimer v)
     (turnSignalVisible v) (followDistance v) (safeDistance v) (vehicleAhead
     v) (distanceToVehicleAhead v) (currentSegment v) (segmentProgress v)
     (segmentDirection v) (laneOffset v) (mesh v) (wheelRotation v).

Definition set_turnSignalTimer (a : R) (v : t) : t :=
  mk (ident v) (position v) (rotation v) (speed v) (targetSpeed v) (maxSpeed
     v) (acceleration v) (brakeForce v) (turnSpeed v) (currentLane v) (state
     v) (stoppingDistance v) (waitTimer v) (turnSignal v) a
     (turnSignalVisible v) (followDistance v) (safeDistance v) (vehicleAhead
     v) (distanceToVehicleAhead v) (currentSegment v) (segmentProgress v)
     (segmentDirection v) (laneOffset v) (mesh v) (wheelRotation v).

Definition set_turnSignalVisible (a : bool) (v : t) : t :=
  mk (ident v) (position v) (rotation v) (speed v) (targetSpeed v) (maxSpeed
     v) (acceleration v) (brakeForce v) (turnSpeed v) (currentLane v) (state
     v) (stoppingDistance v) (waitTimer v) (turnSignal v) (turnSignalTimer
     v) a (followDistance v) (safeDistance v) (vehicleAhead v)
     (distanceToVehicleAhead v) (currentSegment v) (segmentProgress v)
     (segmentDirection v) (laneOffset v) (mesh v) (wheelRotation v).

Definition set_vehicleAhead (a : option nat) (v : t) : t :=
  mk (ident v) (position v) (rotation v) (speed v) (targetSpeed v) (maxSpeed
     v) (acceleration v) (brakeForce v) (turnSpeed v) (currentLane v) (state
     v) (stoppingDistance v) (waitTimer v) (turnSignal v) (turnSignalTimer
     v) (turnSignalVisible v) (followDistance v) (safeDistance v) a
     (distanceToVehicleAhead v) (currentSegment v) (segmentProgress v)
     (segmentDirection v) (laneOffset v) (mesh v) (wheelRotation v).

Definition set_distanceToVehicleAhead (a : JS.Num) (v : t) : t :=
  mk (ident v) (position v) (rotation v) (speed v) (targetSpeed v) (maxSpeed
     v) (acceleration v) (brakeForce v) (turnSpeed v) (currentLane v) (state
     v) (stoppingDistance v) (waitTimer v) (turnSignal v) (turnSignalTimer
     v) (turnSignalVisible v) (followDistance v) (safeDistance v)
     (vehicleAhead v) a (currentSegment v) (segmentProgress v)
     (segmentDirection v) (laneOffset v) (mesh v) (wheelRotation v).

Definition set_currentSegment (a : option Segment.t) (v : t) : t :=
  mk (ident v) (position v) (rotation v) (speed v) (targetSpeed v) (maxSpeed
     v) (acceleration v) (brakeForce v) (turnSpeed v) (currentLane v) (state
     v) (stoppingDistance v) (waitTimer v) (turnSignal v) (turnSignalTimer
     v) (turnSignalVisible v) (followDistance v) (safeDistance v)
     (vehicleAhead v) (distanceToVehicleAhead v) a (segmentProgress v)
     (segmentDirection v) (laneOffset v) (mesh v) (wheelRotation v).

Definition set_segmentProgress (a : R) (v : t) : t :=
  mk (ident v) (position v) (rotation v) (speed v) (targetSpeed v) (maxSpeed
     v) (acceleration v) (brakeForce v) (turnSpeed v) (currentLane v) (state
     v) (stoppingDistance v) (waitTimer v) (turnSignal v) (turnSignalTimer
     v) (turnSignalVisible v) (followDistance v) (safeDistance v)
     (vehicleAhead v) (distanceToVehicleAhead v) (currentSegment v) a
     (segmentDirection v) (laneOffset v) (mesh v) (wheelRotation v).

Definition set_segmentDirection (a : R) (v : t) : t :=
  mk (ident v) (position v) (rotation v) (speed v) (targetSpeed v) (maxSpeed
     v) (acceleration v) (brakeForce v) (turnSpeed v) (currentLane v) (state
     v) (stoppingDistance v) (waitTimer v) (turnSignal v) (turnSignalTimer
     v) (turnSignalVisible v) (followDistance v) (safeDistance v)
     (vehicleAhead v) (distanceToVehicleAhead v) (currentSegment v)
     (segmentProgress v) a (laneOffset v) (mesh v) (wheelRotation v).

Definition set_laneOffset (a : R) (v : t) : t :=
  mk (ident v) (position v) (rotation v) (speed v) (targetSpeed v) (maxSpeed
     v) (acceleration v) (brakeForce v) (turnSpeed v) (currentLane v) (state
     v) (stoppingDistance v) (waitTimer v) (turnSignal v) (turnSignalTimer
     v) (turnSignalVisible v) (followDistance v) (safeDistance v)
     (vehicleAhead v) (distanceToVehicleAhead v) (currentSegment v)
     (segmentProgress v) (segmentDirection v) a (mesh v) (wheelRotation v).

Definition set_mesh (a : option Mesh) (v : t) : t :=
  mk (ident v) (position v) (rotation v) (speed v) (targetSpeed v) (maxSpeed
     v) (acceleration v) (brakeForce v) (turnSpeed v) (currentLane v) (state
     v) (stoppingDistance v) (waitTimer v) (turnSignal v) (turnSignalTimer
     v) (turnSignalVisible v) (followDistance v) (safeDistance v)
     (vehicleAhead v) (distanceToVehicleAhead v) (currentSegment v)
     (segmentProgress v) (segmentDirection v) (laneOffset v) a
     (wheelRotation v).

Definition set_wheelRotation (a : R) (v : t) : t :=
  mk (ident v) (position v) (rotation v) (speed v) (targetSpeed v) (maxSpeed
     v) (acceleration v) (brakeForce v) (turnSpeed v) (currentLane v) (state
     v) (stoppingDistance v) (waitTimer v) (turnSignal v) (turnSignalTimer
     v) (turnSignalVisible v) (followDistance v) (safeDistance v)
     (vehicleAhead v) (distanceToVehicleAhead v) (currentSegment v)
     (segmentProgress v) (segmentDirection v) (laneOffset v) (mesh v) a.

(** [new NPCVehicle(scene, roadNetwork, trafficManager)]. *)
Definition new (ident : nat) : t :=
  mk ident (mkPoint 0 0) 0 0 30 50 15 25 2.0 None driving 0 0 None 0 false
     8 5 None JS.Infinity None 0 1 0 None 0.

(** [this.currentLane?.speedLimit || 30]. *)
Definition laneSpeedLimit (v : t) : R :=
  match currentLane v with
  | Some lane => JS.or_else (Lane.speedLimit lane) 30
  | None => 30
  end.

(** [create]: the mesh, placed at the vehicle's position. *)
Definition create (v : t) : t :=
  set_mesh (Some (mkMesh (position v) 0 [0; 0; 0; 0] [0.3; 0.3] [0; 0] [0; 0])) v.

(** [findNearestLane(x, z)]: the lane of the waypoint nearest to the point. *)
Definition findNearestLane (net : CityRoadNetwork.t) (px pz : R) : option Lane.t :=
  fst
    (fold_left
       (fun nearest lane =>
          fold_left
            (fun nearest wpId =>
               match CityRoadNetwork.getWaypoint net wpId with
               | Some wp =>
                   let dist :=
                     sqrt ((x (Waypoint.position wp) - px) ^ 2
                           + (z (Waypoint.position wp) - pz) ^ 2) in
                   if JS.lt_num dist (snd nearest)
                   then (Some lane, JS.Fin dist)
                   else nearest
               | None => nearest
               end)
            (Lane.waypoints lane) nearest)
       (CityRoadNetwork.lanes net) (None, JS.Infinity)).

(** [spawn(x, z, heading)]. *)
Definition spawn (env : Surroundings) (px pz heading : R) (v : t) : t :=
  let v := create v in
  let v := set_rotation heading (set_position (mkPoint px pz) v) in
  let v :=
    match mesh v with
    | Some m =>
        set_mesh (Some (mkMesh (position v) (rotation v) (wheels m)
                          (brakeLights m) (leftSignals m) (rightSignals m))) v
    | None => v
    end in
  let v :=
    match roadNetwork env with
    | Some net =>
        match findNearestLane net px pz with
        | Some nearestLane =>
            set_targetSpeed (JS.or_else (Lane.speedLimit nearestLane) 30)
              (set_currentLane (Some nearestLane) v)
        | None => v
        end
    | None => v
    end in
  set_speed (targetSpeed v * 0.5) v.

(** [checkTrafficLights].  [None] is the exception [shouldStop] throws. *)
Definition checkTrafficLights (env : Surroundings) (v : t) : option t :=
  match trafficManager env with
  | None => Some v
  | Some manager =>
      match TrafficManager.shouldStop manager (position v) (rotation v) 25 with
      | None => None
      | Some result =>
          if StopResult.shouldStop result
             && JS.num_lt (StopResult.distance result) 15
          then
            Some (set_stoppingDistance
                    (match StopResult.distance result with
                     | JS.Fin d => d - 5
                     | JS.Infinity => 0
                     end)
                    (set_state stopping v))
          else
            match state v with
            | stopping | waiting =>
                if negb (StopResult.shouldStop result)
                then Some (set_state accelerating v)
                else Some v
            | _ => Some v
            end
      end
  end.

(** The body of the [forEach] of [checkVehicleAhead], for one other vehicle. *)
Definition senseVehicle (v : t) (ahead : option t * JS.Num) (other : t)
    : option t * JS.Num :=
  if Nat.eqb (ident other) (ident v) then ahead
  else
    let forward := mkPoint (sin (rotation v)) (cos (rotation v)) in
    let dx := x (position other) - x (position v) in
    let dz := z (position other) - z (position v) in
    let distance := sqrt (dx * dx + dz * dz) in
    if JS.gt distance (followDistance v * 2) then ahead
    else
      let dot := dx * x forward + dz * z forward in
      if JS.lt dot 0 then ahead
      else
        let lateral := Rabs (dx * z forward - dz * x forward) in
        if JS.gt lateral 3 then ahead
        else if JS.lt_num distance (snd ahead)
             then (Some other, JS.Fin distance)
             else ahead.

(** [checkVehicleAhead(allVehicles)]. *)
Definition checkVehicleAhead (allVehicles : list t) (v : t) : t :=
  let found := fold_left (senseVehicle v) allVehicles (None, JS.Infinity) in
  let v :=
    set_distanceToVehicleAhead (snd found)
      (set_vehicleAhead (option_map ident (fst found)) v) in
  match fst found with
  | Some other =>
      if JS.num_lt (snd found) (followDistance v) then
        if JS.num_lt (snd found) (safeDistance v)
        then set_state stopping v
        else set_targetSpeed (JS.Math_min (targetSpeed v) (speed other)) v
      else v
  | None => v
  end.

(** [updateState(delta)]. *)
Definition updateState (delta : R) (v : t) : t :=
  match state v with
  | driving => set_targetSpeed (laneSpeedLimit v) v
  | stopping =>
      let v := set_targetSpeed 0 v in
      if JS.lt (speed v) 0.5
      then set_waitTimer 0 (set_state waiting v)
      else v
  | waiting => set_waitTimer (waitTimer v + delta) (set_targetSpeed 0 v)
  | accelerating =>
      let v := set_targetSpeed (laneSpeedLimit v) v in
      if JS.gt (speed v) (targetSpeed v * 0.8)
      then set_state driving v
      else v
  | turning => set_targetSpeed 15 v
  end.

(** [getTargetPointOnSegment], for the current segment [seg]. *)
Definition getTargetPointOnSegment (seg : Segment.t) (v : t) : Point :=
  let t := JS.Math_min (segmentProgress v + 0.2) 1 in
  match Segment.curved seg with
  | Some a =>
      let angle :=
        curveStartAngle a + t * (curveEndAngle a - curveStartAngle a) in
      let laneOffset := JS.or_else (laneOffset v) 0 in
      let r := curveRadius a + laneOffset in
      mkPoint (cos angle * r) (sin angle * r)
  | None =>
      let laneOffset := JS.or_else (laneOffset v) 0 in
      let dx := x (Segment.end_ seg) - x (Segment.start seg) in
      let dz := z (Segment.end_ seg) - z (Segment.start seg) in
      let len := sqrt (dx * dx + dz * dz) in
      let perpX := - dz / len * laneOffset in
      let perpZ := dx / len * laneOffset in
      mkPoint (x (Segment.start seg) + t * dx + perpX)
              (z (Segment.start seg) + t * dz + perpZ)
  end.

(** Distance from the vehicle to a segment, as [findNearestSegment] has it. *)
Definition distanceToSegment (seg : Segment.t) (v : t) : R :=
  match Segment.curved seg with
  | Some a =>
      Rabs (sqrt (x (position v) * x (position v) + z (position v) * z (position v))
            - curveRadius a)
  | None =>
      let dx := x (Segment.end_ seg) - x (Segment.start seg) in
      let dz := z (Segment.end_ seg) - z (Segment.start seg) in
      let len := sqrt (dx * dx + dz * dz) in
      let t :=
        JS.Math_max 0
          (JS.Math_min 1
             (((x (position v) - x (Segment.start seg)) * dx
               + (z (position v) - z (Segment.start seg)) * dz) / (len * len))) in
      let closestX := x (Segment.start seg) + t * dx in
      let closestZ := z (Segment.start seg) + t * dz in
      sqrt ((x (position v) - closestX) ^ 2 + (z (position v) - closestZ) ^ 2)
  end.

(** [findNearestSegment]; [rnd] gives the values of the [Math.random()]
    calls of the tick, in order. *)
Definition findNearestSegment (net : CityRoadNetwork.t) (rnd : nat -> R) (v : t) : t :=
  let nearest :=
    fold_left
      (fun nearest seg =>
         let dist := distanceToSegment seg v in
         if JS.lt_num dist (snd nearest) then (Some seg, JS.Fin dist) else nearest)
      (CityRoadNetwork.getSegments net) (None, JS.Infinity) in
  match fst nearest with
  | Some nearestSeg =>
      if JS.num_lt (snd nearest) 20 then
        set_targetSpeed (JS.or_else (Segment.speedLimit nearestSeg) 30)
          (set_laneOffset ((rnd 1%nat - 0.5) * Segment.width nearestSeg * 0.4)
             (set_segmentDirection (if JS.gt (rnd 0%nat) 0.5 then 1 else -1)
                (set_segmentProgress 0
                   (set_currentSegment (Some nearestSeg) v))))
      else v
  | None => v
  end.

(** [pickNextSegment], for the current segment [current]. *)
Definition pickNextSegment (env : Surroundings) (rnd : nat -> R)
    (current : Segment.t) (v : t) : t :=
  match roadNetwork env with
  | None => set_segmentProgress 0 v
  | Some net =>
      let candidates :=
        filter
          (fun seg =>
             if String.eqb (Segment.id seg) (Segment.id current) then false
             else
               let distToStart := dist (position v) (Segment.start seg) in
               let distToEnd := dist (position v) (Segment.end_ seg) in
               JS.lt distToStart 15 || JS.lt distToEnd 15)
          (CityRoadNetwork.getSegments net) in
      match candidates with
      | [] =>
          set_segmentDirection (segmentDirection v * -1) (set_segmentProgress 0 v)
      | _ =>
          match at_index candidates
                  (JS.Math_floor (rnd 0%nat * INR (List.length candidates))) with
          | Some next =>
              set_targetSpeed (JS.or_else (Segment.speedLimit next) 30)
                (set_laneOffset ((rnd 1%nat - 0.5) * Segment.width next * 0.4)
                   (set_segmentProgress 0 (set_currentSegment (Some next) v)))
          | None => set_currentSegment None v
            (* not reached: [Math.random()] is below 1 *)
          end
      end
  end.

(** The speed control that opens [updateMovement]. *)
Definition controlSpeed (delta : R) (v : t) : t :=
  let s :=
    if JS.lt (speed v) (targetSpeed v) then speed v + acceleration v * delta
    else if JS.gt (speed v) (targetSpeed v) then speed v - brakeForce v * delta
         else speed v in
  set_speed (JS.Math_max 0 (JS.Math_min s (maxSpeed v))) v.

(** Following the current segment, or looking for one. *)
Definition followSegment (env : Surroundings) (delta : R) (rnd : nat -> R)
    (v : t) : t :=
  match currentSegment v with
  | Some seg =>
      let target := getTargetPointOnSegment seg v in
      let dx := x target - x (position v) in
      let dz := z target - z (position v) in
      let distToTarget := sqrt (dx * dx + dz * dz) in
      let targetRotation := JSMath.atan2 dx dz in
      let angleDiff := JSMath.wrapAngle (targetRotation - rotation v) in
      let v :=
        set_turnSignal
          (if JS.gt (Rabs angleDiff) 0.3
           then Some (if JS.gt angleDiff 0 then sideLeft else sideRight)
           else None) v in
      let v := set_rotation (rotation v + angleDiff * delta * turnSpeed v) v in
      if JS.lt distToTarget 3 then
        let v := set_segmentProgress (segmentProgress v + 0.05) v in
        if JS.ge (segmentProgress v) 1 then pickNextSegment env rnd seg v else v
      else v
  | None =>
      match roadNetwork env with
      | Some net => findNearestSegment net rnd v
      | None => v
      end
  end.

(** Steering back towards the centre beyond the city bound. *)
Definition keepInBounds (delta : R) (v : t) : t :=
  let cityBound := 135 in
  if JS.gt (Rabs (x (position v))) cityBound
     || JS.gt (Rabs (z (position v))) cityBound
  then
    let toCenter := JSMath.atan2 (- x (position v)) (- z (position v)) in
    let angleDiff := JSMath.wrapAngle (toCenter - rotation v) in
    set_rotation (rotation v + angleDiff * delta * 3) v
  else v.

(** Moving forward, and the mesh following. *)
Definition moveForward (delta : R) (v : t) : t :=
  let v :=
    set_position
      (mkPoint (x (position v) + sin (rotation v) * speed v * delta)
               (z (position v) + cos (rotation v) * speed v * delta)) v in
  match mesh v with
  | Some m =>
      set_mesh (Some (mkMesh (position v) (rotation v) (wheels m)
                        (brakeLights m) (leftSignals m) (rightSignals m))) v
  | None => v
  end.

(** [updateMovement(delta)]. *)
Definition updateMovement (env : Surroundings) (delta : R) (rnd : nat -> R)
    (v : t) : t :=
  moveForward delta (keepInBounds delta (followSegment env delta rnd (controlSpeed delta v))).

(** [updateVisuals(delta)]. *)
Definition updateVisuals (delta : R) (v : t) : t :=
  let v := set_wheelRotation (wheelRotation v + speed v * delta * 0.5) v in
  let isBraking :=
    match state v with
    | stopping | waiting => true
    | _ => JS.lt (speed v) (targetSpeed v - 5)
    end in
  match mesh v with
  | Some m =>
      set_mesh
        (Some (mkMesh (meshPosition m) (meshRotationY m)
                 (map (fun _ => wheelRotation v) (wheels m))
                 (map (fun _ => if isBraking then 2 else 0.3) (brakeLights m))
                 (leftSignals m) (rightSignals m))) v
  | None => v
  end.

(** [updateTurnSignals(delta)]. *)
Definition updateTurnSignals (delta : R) (v : t) : t :=
  let v := set_turnSignalTimer (turnSignalTimer v + delta) v in
  let v :=
    if JS.gt (turnSignalTimer v) 0.4
    then set_turnSignalVisible (negb (turnSignalVisible v)) (set_turnSignalTimer 0 v)
    else v in
  let lit (s : Side) : R :=
    match turnSignal v, s with
    | Some sideLeft, sideLeft | Some sideRight, sideRight =>
        if turnSignalVisible v then 3 else 0
    | _, _ => 0
    end in
  match mesh v with
  | Some m =>
      set_mesh
        (Some (mkMesh (meshPosition m) (meshRotationY m) (wheels m) (brakeLights m)
                 (map (fun _ => lit sideLeft) (leftSignals m))
                 (map (fun _ => lit sideRight) (rightSignals m)))) v
  | None => v
  end.

(** [update(delta, allVehicles)]. *)
Definition update (env : Surroundings) (delta : R) (allVehicles : list t)
    (rnd : nat -> R) (v : t) : option t :=
  match mesh v with
  | None => Some v
  | Some _ =>
      match checkTrafficLights env v with
      | None => None
      | Some v =>
          let v := checkVehicleAhead allVehicles v in
          let v := updateState delta v in
          let v := updateMovement env delta rnd v in
          let v := updateVisuals delta v in
          Some (updateTurnSignals delta v)
      end
  end.

(** A vehicle that waits at the red light of [intersection-0-1]: spawned,
    standing 10 units before the centre on the western approach, heading
    east, in state [waiting] with its wait timer at 0. *)
Definition waitingAtRed : t :=
  set_state waiting
    (set_targetSpeed 0
       (set_rotation (PI / 2)
          (set_position (mkPoint (-80 - 10) 0) (create (new 0))))).

(** What it holds of the world: the city's road graph and its lights. *)
Definition inCity : Surroundings :=
  mkSurroundings (Some CityRoadNetwork.build) (Some TrafficManager.city).

(** The distance [checkVehicleAhead] computes between two vehicles. *)
Definition gap (v other : t) : R :=
  sqrt ((x (position other) - x (position v)) * (x (position other) - x (position v))
        + (z (position other) - z (position v)) * (z (position other) - z (position v))).

(** Another vehicle, within twice the follow distance, not behind, and at
    most 3 to the side of the vehicle's heading. *)
Definition isAhead (v other : t) : Prop :=
  ident other <> ident v /\
  gap v other <= followDistance v * 2 /\
  0 <= (x (position other) - x (position v)) * sin (rotation v)
       + (z (position other) - z (position v)) * cos (rotation v) /\
  Rabs ((x (position other) - x (position v)) * cos (rotation v)
        - (z (position other) - z (position v)) * sin (rotation v)) <= 3.

(** What the variables [vehicleAhead] and [distanceToVehicleAhead] hold once
    the vehicles [seen] have been visited. *)
Definition nearestAhead (v : t) (seen : list t) (ahead : option t * JS.Num) : Prop :=
  match ahead with
  | (None, JS.Infinity) => forall other, In other seen -> ~ isAhead v other
  | (Some other, JS.Fin d) =>
      In other seen /\ isAhead v other /\ d = gap v other /\
      forall o, In o seen -> isAhead v o -> d <= gap v o
  | _ => False
  end.

(** [n] frames of a vehicle that is alone on the road: [update(delta, [])]
    in each; [rnd i] gives the random numbers of frame [i]. *)
Fixpoint driveAlone (env : Surroundings) (delta : R) (rnd : nat -> nat -> R)
    (n : nat) (v : t) : option t :=
  match n with
  | O => Some v
  | S n' =>
      match update env delta [] (rnd 0%nat) v with
      | None => None
      | Some v' => driveAlone env delta (fun i => rnd (S i)) n' v'
      end
  end.

(** What the variables [nearestLane] and [nearestDist] of [findNearestLane]
    hold once the waypoint ids [seen], each with its lane, have been
    visited. *)
Definition nearestOnLanes (net : CityRoadNetwork.t) (px pz : R)
    (seen : list (Lane.t * string)) (nearest : option Lane.t * JS.Num) : Prop :=
  match nearest with
  | (None, JS.Infinity) =>
      forall lane wid, In (lane, wid) seen ->
        CityRoadNetwork.getWaypoint net wid = None
  | (Some lane, JS.Fin d) =>
      exists wid wp,
        In (lane, wid) seen /\
        CityRoadNetwork.getWaypoint net wid = Some wp /\
        d = dist (Waypoint.position wp) (mkPoint px pz) /\
        forall lane2 wid2 wp2, In (lane2, wid2) seen ->
          CityRoadNetwork.getWaypoint net wid2 = Some wp2 ->
          d <= dist (Waypoint.position wp2) (mkPoint px pz)
  | _ => False
  end.

End NPCVehicle.

(** ** NPCManager: the cars on fixed tracks and their collision response *)

Inductive Axis : Type := axisX | axisZ.

(** [car.userData]: a car on the circular road has [angle] and [radius], a
    car on a straight road has [axis], [min] and [max]. *)
Record UserData : Type := mkUserData {
  angle : R;
  radius : option R;
  carSpeed : R;
  direction : R;
  axis : option Axis;
  min : R;
  max : R
}.

Module Car.
Record t : Type := mk {
  position : Point;
  rotationY : R;
  userData : UserData
}.
End Car.

Module NPCManager.

Definition carCollisionRadius : R := 2.5.

(** [checkCarCollision(car1, car2)]. *)
Definition checkCarCollision (car1 car2 : Car.t) : bool :=
  let dx := x (Car.position car1) - x (Car.position car2) in
  let dz := z (Car.position car1) - z (Car.position car2) in
  let distance := sqrt (dx * dx + dz * dz) in
  JS.lt distance carCollisionRadius.

Definition withDirection (d : R) (data : UserData) : UserData :=
  mkUserData (angle data) (radius data) (carSpeed data) d (axis data)
    (min data) (max data).

(** [data.direction *= -1], with [car.rotation.y += Math.PI] for a car on a
    straight road. *)
Definition reverse (car : Car.t) : Car.t :=
  Car.mk (Car.position car)
    (match axis (Car.userData car) with
     | Some _ => Car.rotationY car + PI
     | None => Car.rotationY car
     end)
    (withDirection (direction (Car.userData car) * -1) (Car.userData car)).

(** [data.radius] when it is truthy. *)
Definition circular (data : UserData) : option R :=
  match radius data with
  | Some r => if JS.truthy r then Some r else None
  | None => None
  end.

(** The movement of one car, before its collision checks. *)
Definition moveCar (delta : R) (car : Car.t) : Car.t :=
  let data := Car.userData car in
  match circular data with
  | Some r =>
      let angle' := angle data + carSpeed data * delta * direction data in
      Car.mk (mkPoint (cos angle' * r) (sin angle' * r))
        (angle' + PI / 2 * direction data)
        (mkUserData angle' (radius data) (carSpeed data) (direction data)
           (axis data) (min data) (max data))
  | None =>
      match axis data with
      | Some axisX =>
          let px := x (Car.position car) + carSpeed data * direction data * delta * 20 in
          if JS.gt px (max data) || JS.lt px (min data)
          then Car.mk (mkPoint px (z (Car.position car))) (Car.rotationY car + PI)
                 (withDirection (direction data * -1) data)
          else Car.mk (mkPoint px (z (Car.position car))) (Car.rotationY car) data
      | Some axisZ =>
          let pz := z (Car.position car) + carSpeed data * direction data * delta * 20 in
          if JS.gt pz (max data) || JS.lt pz (min data)
          then Car.mk (mkPoint (x (Car.position car)) pz) (Car.rotationY car + PI)
                 (withDirection (direction data * -1) data)
          else Car.mk (mkPoint (x (Car.position car)) pz) (Car.rotationY car) data
      | None => car
      end
  end.

(** The collision loop of the car being updated, over the cars after it:
    [prev] is its position before it moved. *)
Fixpoint collide (prev : Point) (car : Car.t) (others : list Car.t)
    : Car.t * list Car.t :=
  match others with
  | [] => (car, [])
  | otherCar :: rest =>
      if checkCarCollision car otherCar then
        let car' :=
          Car.mk prev (Car.rotationY (reverse car)) (Car.userData (reverse car)) in
        let (car'', rest') := collide prev car' rest in
        (car'', reverse otherCar :: rest')
      else
        let (car'', rest') := collide prev car rest in
        (car'', otherCar :: rest')
  end.

(** The [forEach] over [this.cars] of [update(delta)]; [fuel] bounds the
    recursion by the number of cars. *)
Fixpoint updateCars (fuel : nat) (delta : R) (cars : list Car.t) : list Car.t :=
  match fuel, cars with
  | S fuel', car :: rest =>
      let (car', rest') := collide (Car.position car) (moveCar delta car) rest in
      car' :: updateCars fuel' delta rest'
  | _, _ => cars
  end.

Definition update (delta : R) (cars : list Car.t) : list Car.t :=
  updateCars (List.length cars) delta cars.

(** Two cars of the horizontal road driving at each other, 2 units apart. *)
Definition eastbound : Car.t :=
  Car.mk (mkPoint 0 0) 0 (mkUserData 0 None 0.4 1 (Some axisX) (-40) 40).

Definition westbound : Car.t :=
  Car.mk (mkPoint 2 0) PI (mkUserData 0 None 0.4 (-1) (Some axisX) (-40) 40).

(** The collision response as the specification words it, for two cars:
    when they are within the collision radius in a tick, both directions
    are reversed and both positions are the ones from before the tick. *)
Definition collision_rollback_claim : Prop :=
  forall (delta : R) (c1 c2 : Car.t),
    0 <= delta ->
    checkCarCollision (moveCar delta c1) c2 = true ->
    exists c1' c2',
      update delta [c1; c2] = [c1'; c2'] /\
      direction (Car.userData c1') = direction (Car.userData c1) * -1 /\
      direction (Car.userData c2') = direction (Car.userData c2) * -1 /\
      Car.position c1' = Car.position c1 /\
      Car.position c2' = Car.position c2.

(** What [update] keeps of a car: its track data, its direction up to the
    sign, and its track, which is the circle around the origin for a car of
    the circular road and the line along its axis for a car of a straight
    road. *)
Definition sameTrack (c c' : Car.t) : Prop :=
  radius (Car.userData c') = radius (Car.userData c) /\
  carSpeed (Car.userData c') = carSpeed (Car.userData c) /\
  axis (Car.userData c') = axis (Car.userData c) /\
  min (Car.userData c') = min (Car.userData c) /\
  max (Car.userData c') = max (Car.userData c) /\
  (direction (Car.userData c') = direction (Car.userData c) \/
   direction (Car.userData c') = direction (Car.userData c) * -1) /\
  match circular (Car.userData c) with
  | Some r =>
      x (Car.position c) * x (Car.position c)
      + z (Car.position c) * z (Car.position c) = r * r ->
      x (Car.position c') * x (Car.position c')
      + z (Car.position c') * z (Car.position c') = r * r
  | None =>
      match axis (Car.userData c) with
      | Some axisX => z (Car.position c') = z (Car.position c)
      | Some axisZ => x (Car.position c') = x (Car.position c)
      | None => Car.position c' = Car.position c
      end
  end.

End NPCManager.

(** * Properties *)

(** ** Numeric primitives *)

Lemma lt_true (a b : R) : a < b -> JS.lt a b = true.
Proof. intros H; unfold JS.lt; destruct (Rlt_dec a b); [reflexivity | contradiction]. Qed.

Lemma lt_false (a b : R) : b <= a -> JS.lt a b = false.
Proof. intros H; unfold JS.lt; destruct (Rlt_dec a b); [lra | reflexivity]. Qed.

Lemma le_true (a b : R) : a <= b -> JS.le a b = true.
Proof. intros H; unfold JS.le; destruct (Rle_dec a b); [reflexivity | contradiction]. Qed.

Lemma le_false (a b : R) : b < a -> JS.le a b = false.
Proof. intros H; unfold JS.le; destruct (Rle_dec a b); [lra | reflexivity]. Qed.

Lemma gt_true (a b : R) : b < a -> JS.gt a b = true.
Proof. apply lt_true. Qed.

Lemma gt_false (a b : R) : a <= b -> JS.gt a b = false.
Proof. apply lt_false. Qed.

Lemma ge_true (a b : R) : b <= a -> JS.ge a b = true.
Proof. apply le_true. Qed.

Lemma ge_false (a b : R) : a < b -> JS.ge a b = false.
Proof. apply le_false. Qed.


Lemma le_spec (a b : R) : JS.le a b = true <-> a <= b.
Proof.
  unfold JS.le; destruct (Rle_dec a b); split; intros H; try easy.
Qed.

Lemma eq_true (a b : R) : a = b -> JS.eq a b = true.
Proof. intros H; unfold JS.eq; destruct (Req_dec_T a b); [reflexivity | contradiction]. Qed.

Lemma eq_false (a b : R) : a <> b -> JS.eq a b = false.
Proof. intros H; unfold JS.eq; destruct (Req_dec_T a b); [contradiction | reflexivity]. Qed.

(** Decides the comparisons of a goal whose operands are numerals. *)
Ltac js_cmp :=
  repeat first
    [ rewrite lt_true by lra | rewrite lt_false by lra
    | rewrite le_true by lra | rewrite le_false by lra
    | rewrite gt_true by lra | rewrite gt_false by lra
    | rewrite ge_true by lra | rewrite ge_false by lra
    | rewrite eq_true by lra | rewrite eq_false by lra ].

Lemma Math_trunc_unit (a : R) : 0 <= a < 1 -> JS.Math_trunc a = 0%Z.
Proof.
  intros [H0 H1]. unfold JS.Math_trunc, JS.Math_floor.
  rewrite le_true by assumption.
  symmetry; apply Int_part_spec; simpl; lra.
Qed.

Lemma rem_small (a b : R) : 0 <= a < b -> JS.rem a b = a.
Proof.
  intros [H0 H1]. unfold JS.rem.
  rewrite Math_trunc_unit; [simpl; ring|].
  assert (Hb : 0 < b) by lra.
  split.
  - apply Rmult_le_pos; [assumption | left; apply Rinv_0_lt_compat; assumption].
  - apply (Rmult_lt_reg_r b); [assumption|].
    unfold Rdiv. rewrite Rmult_assoc, Rinv_l by lra. lra.
Qed.

Lemma rem_range (a b : R) : 0 <= a -> 0 < b -> 0 <= JS.rem a b < b.
Proof.
  intros H0 Hb. unfold JS.rem, JS.Math_trunc, JS.Math_floor.
  assert (Hq : 0 <= a / b)
    by (apply Rmult_le_pos; [assumption | left; apply Rinv_0_lt_compat; assumption]).
  rewrite le_true by assumption.
  destruct (base_Int_part (a / b)) as [Hlo Hhi].
  assert (Ha : a = a / b * b) by (field; lra).
  set (k := IZR (Int_part (a / b))) in *.
  set (q := a / b) in *.
  split; rewrite Ha at 1; nra.
Qed.

(** ** The signal controller *)

Module TrafficLightFacts.
Import TrafficLight.

Lemma phases_length : List.length phases = 6%nat.
Proof. reflexivity. Qed.

Lemma total_cycle : getTotalCycleDuration = 26.
Proof. unfold getTotalCycleDuration; simpl; lra. Qed.

Lemma phase_in_range (i : nat) :
  (i < 6)%nat -> exists p, nth_error phases i = Some p.
Proof.
  intros H. destruct (nth_error phases i) eqn:E; [eauto|].
  apply nth_error_None in E. rewrite phases_length in E. lia.
Qed.

Lemma phase_never_both_green (i : nat) (p : Phase) :
  nth_error phases i = Some p -> ns p = red \/ ew p = red.
Proof.
  intros H.
  do 6 (destruct i as [|i]; [injection H as <-; simpl; auto|]).
  destruct i; discriminate.
Qed.

Lemma findPhase_bound (ps : list Phase) (i j : nat) (elapsed e : R) :
  findPhase ps i elapsed = Some (j, e) -> (i <= j < i + List.length ps)%nat.
Proof.
  revert i elapsed. induction ps as [|p ps IH]; intros i elapsed H; simpl in H.
  - discriminate.
  - destruct (JS.lt elapsed (duration p)).
    + injection H as <- <-. simpl; lia.
    + apply IH in H. simpl; lia.
Qed.

Lemma update_index (delta : R) (l l' : t) :
  update delta l = Some l' -> (currentPhaseIndex l < 6)%nat ->
  (currentPhaseIndex l' < 6)%nat.
Proof.
  unfold update. intros H Hi.
  destruct (nth_error phases (currentPhaseIndex l)) as [p|]; [|discriminate].
  destruct (JS.ge _ _); injection H as <-; cbn [currentPhaseIndex].
  - exact (Nat.mod_upper_bound (currentPhaseIndex l + 1) 6 ltac:(discriminate)).
  - assumption.
Qed.

Lemma setPhaseOffset_index (offset : R) (l : t) :
  (currentPhaseIndex l < 6)%nat ->
  (currentPhaseIndex (setPhaseOffset offset l) < 6)%nat.
Proof.
  intros Hi. unfold setPhaseOffset.
  destruct (findPhase phases 0 _) as [[j e]|] eqn:E; simpl.
  - apply findPhase_bound in E. rewrite phases_length in E. lia.
  - assumption.
Qed.

Lemma reachable_index (l : t) : reachable l -> (currentPhaseIndex l < 6)%nat.
Proof.
  induction 1 as [i | l l' delta _ IH _ Hu | l offset _ IH].
  - simpl; lia.
  - eapply update_index; eassumption.
  - apply setPhaseOffset_index; assumption.
Qed.

(** [update] does not throw on a state whose index is in range. *)
Lemma update_defined (delta : R) (l : t) :
  (currentPhaseIndex l < 6)%nat -> exists l', update delta l = Some l'.
Proof.
  intros Hi. destruct (phase_in_range _ Hi) as [p Hp].
  unfold update. rewrite Hp. destruct (JS.ge _ _); eauto.
Qed.

(** C1.  In every state of a signal controller that is reachable from its
    construction by [update] calls with a non-negative time step and by
    [setPhaseOffset] calls, the current phase exists and one of its two
    aspects is red, so north-south and east-west are never green together
    (whether read from the phase or through [getState]); the six durations
    add up to the cycle 10+2+1+10+2+1 = 26 seconds. *)
Theorem signal_never_both_green (l : t) :
  reachable l ->
  (exists p, nth_error phases (currentPhaseIndex l) = Some p /\
             (ns p = red \/ ew p = red) /\
             ~ (ns p = green /\ ew p = green)) /\
  ~ (getState north l = Some green /\ getState east l = Some green) /\
  map duration phases = [10; 2; 1; 10; 2; 1] /\
  getTotalCycleDuration = 10 + 2 + 1 + 10 + 2 + 1 /\
  getTotalCycleDuration = 26.
Proof.
  intros Hr. apply reachable_index in Hr.
  destruct (phase_in_range _ Hr) as [p Hp].
  pose proof (phase_never_both_green _ _ Hp) as Hred.
  repeat split.
  - exists p. repeat split; try assumption.
    intros [Hn He]. destruct Hred as [H|H]; congruence.
  - unfold getState. rewrite Hp. intros [Hn He].
    destruct Hred as [H|H]; congruence.
  - rewrite total_cycle; lra.
  - apply total_cycle.
Qed.

Lemma update_new_3 (i : Intersection.t) :
  update 3 (new i) = Some (mk i 0 (0 + 3) 0).
Proof. unfold update; simpl. js_cmp. reflexivity. Qed.

Lemma signal_never_both_green_witness :
  exists l, reachable l /\ currentPhaseIndex l = 1%nat /\
    ~ (getState north l = Some green /\ getState east l = Some green).
Proof.
  set (i := Intersection.mk "intersection-1-1" (mkPoint 0 0) true [] 10).
  exists (setPhaseOffset 11 (mk i 0 (0 + 3) 0)).
  assert (Hr : reachable (setPhaseOffset 11 (mk i 0 (0 + 3) 0))).
  { apply reach_offset. apply (reach_update (new i) _ 3).
    - apply reach_new.
    - lra.
    - apply update_new_3. }
  split; [exact Hr|]. split.
  - unfold setPhaseOffset. rewrite total_cycle, rem_small by lra.
    simpl. js_cmp. reflexivity.
  - exact (proj1 (proj2 (signal_never_both_green _ Hr))).
Defined.

(** C9.  One [update] call on a controller whose index is in range returns,
    and it either stays in the phase with the time step added to the timer,
    or, when the timer reaches the phase's duration, moves one position on
    (mod 6) with the timer at exactly 0, whatever the overshoot was.  So a
    step of 12 seconds from a fresh controller ends in phase 1 at time 0,
    while the same 12 seconds delivered as 10 then 2 end in phase 2. *)
Theorem update_advances_at_most_one :
  (forall (l : t) (delta : R),
     0 <= delta -> (currentPhaseIndex l < 6)%nat ->
     exists p l',
       nth_error phases (currentPhaseIndex l) = Some p /\
       update delta l = Some l' /\
       ((phaseTimer l + delta < duration p /\
         currentPhaseIndex l' = currentPhaseIndex l /\
         phaseTimer l' = phaseTimer l + delta) \/
        (duration p <= phaseTimer l + delta /\
         currentPhaseIndex l' = ((currentPhaseIndex l + 1) mod 6)%nat /\
         phaseTimer l' = 0))) /\
  (forall i : Intersection.t,
     total [12] = total [10; 2] /\
     option_map reading (replay [12] (new i)) = Some (1%nat, 0) /\
     option_map reading (replay [10; 2] (new i)) = Some (2%nat, 0)).
Proof.
  split.
  - intros l delta Hd Hi.
    destruct (phase_in_range _ Hi) as [p Hp].
    exists p. unfold update. rewrite Hp.
    destruct (Rle_dec (duration p) (phaseTimer l + delta)) as [Hge|Hlt].
    + rewrite ge_true by assumption.
      eexists; split; [reflexivity|]. split; [reflexivity|].
      right. cbn [currentPhaseIndex phaseTimer]. auto.
    + rewrite ge_false by lra.
      eexists; split; [reflexivity|]. split; [reflexivity|].
      left. cbn [currentPhaseIndex phaseTimer]. repeat split; lra.
  - intros i. split; [unfold total; simpl; lra|]. split.
    + unfold replay, update; simpl. js_cmp. reflexivity.
    + unfold replay, update; simpl. js_cmp. simpl. js_cmp. reflexivity.
Qed.

Lemma update_advances_at_most_one_witness :
  exists p l',
    nth_error phases 0 = Some p /\
    update 12 (new (Intersection.mk "intersection-1-1" (mkPoint 0 0) true [] 10))
      = Some l' /\
    ((0 + 12 < duration p /\ currentPhaseIndex l' = 0%nat /\
      phaseTimer l' = 0 + 12) \/
     (duration p <= 0 + 12 /\ currentPhaseIndex l' = ((0 + 1) mod 6)%nat /\
      phaseTimer l' = 0)).
Proof.
  apply (proj1 update_advances_at_most_one
           (new (Intersection.mk "intersection-1-1" (mkPoint 0 0) true [] 10)) 12).
  - lra.
  - simpl; lia.
Defined.

(** *** Offsets against replayed time *)

Ltac each_phase i :=
  destruct i as [|i];
  [| destruct i as [|i];
     [| destruct i as [|i];
        [| destruct i as [|i];
           [| destruct i as [|i];
              [| destruct i as [|i];
                 [| exfalso; simpl in *; lia ]]]]]].

Lemma setPhaseOffset_in_cycle (offset : R) (l : t) :
  0 <= offset ->
  in_cycle_at (setPhaseOffset offset l) (JS.rem offset 26).
Proof.
  intros Ho. unfold setPhaseOffset. rewrite total_cycle.
  destruct (rem_range offset 26 Ho ltac:(lra)) as [Hlo Hhi].
  set (r := JS.rem offset 26) in *.
  unfold in_cycle_at, findPhase, phases; cbn [duration].
  repeat match goal with
         | |- context [JS.lt ?a ?b] =>
             destruct (Rlt_dec a b);
             [ rewrite (lt_true a b) by assumption
             | rewrite (lt_false a b) by lra ]
         end;
    try (exfalso; lra);
    cbn [currentPhaseIndex phaseTimer]; (split; [lia|]);
    eexists; (split; [reflexivity|]);
    unfold phaseStart; simpl; split; lra.
Qed.

Lemma setPhaseOffset_11 (i : Intersection.t) :
  reading (setPhaseOffset 11 (new i)) = (1%nat, 11 - 10).
Proof.
  unfold setPhaseOffset. rewrite total_cycle, rem_small by lra.
  simpl. js_cmp. reflexivity.
Qed.

(** C3, counterexample.  [setPhaseOffset(11)] reads phase 1 at 1 second, but
    11 seconds replayed as one tick read phase 1 at 0 seconds: [update] drops
    the second by which the tick overshoots the end of phase 0. *)
Lemma offset_replay_claim_fails : ~ offset_replay_claim.
Proof.
  intros H.
  specialize (H (Intersection.mk "intersection-1-1" (mkPoint 0 0) true [] 10)
                11 [11]).
  rewrite total_cycle, rem_small, setPhaseOffset_11 in H by lra.
  assert (H0 : 0 <= 11) by lra.
  assert (H1 : Forall (fun delta => 0 <= delta) [11])
    by (constructor; [lra | constructor]).
  assert (H2 : total [11] = 11) by (unfold total; simpl; lra).
  specialize (H H0 H1 H2).
  unfold replay, update in H; simpl in H.
  rewrite ge_true in H by lra. simpl in H.
  injection H as H. lra.
Qed.

(** C3, as amended.  For every offset [o >= 0], the replay from a fresh
    controller (phase 0, timer 0) that takes each phase before the one
    [setPhaseOffset(o)] finds in one tick of the phase's duration, and then
    ticks once more by the time left, delivers [o % 26] seconds in
    non-negative ticks, runs to the end and reads the same
    [(currentPhaseIndex, phaseTimer)] as [setPhaseOffset(o)].  Every tick of
    it is added to a timer that reads 0. *)
Theorem offset_matches_phase_by_phase_replay (i : Intersection.t) (offset : R) :
  0 <= offset ->
  Forall (fun delta => 0 <= delta) (phaseTicks offset) /\
  total (phaseTicks offset) = JS.rem offset getTotalCycleDuration /\
  from_zero (phaseTicks offset) (new i) /\
  exists l',
    replay (phaseTicks offset) (new i) = Some l' /\
    reading l' = reading (setPhaseOffset offset (new i)).
Proof.
  intros Ho. unfold phaseTicks, setPhaseOffset. rewrite total_cycle.
  destruct (rem_range offset 26 Ho ltac:(lra)) as [Hlo Hhi].
  set (r := JS.rem offset 26) in *.
  unfold findPhase, phases; cbn [duration].
  repeat match goal with
         | |- context [JS.lt ?a ?b] =>
             destruct (Rlt_dec a b);
             [ rewrite (lt_true a b) by assumption
             | rewrite (lt_false a b) by lra ]
         end;
    try (exfalso; lra);
    cbn [firstn map duration List.app];
    (split; [repeat (apply Forall_cons; [lra|]); apply Forall_nil|]);
    (split; [unfold total; cbn [fold_right]; lra|]);
    unfold new, from_zero, replay, update, reading;
    cbn [nth_error phases currentPhaseIndex phaseTimer duration intersection
         phaseOffset List.length Nat.add Nat.modulo];
    repeat first
      [ rewrite (ge_true (0 + 10) 10) by lra
      | rewrite (ge_true (0 + 2) 2) by lra
      | rewrite (ge_true (0 + 1) 1) by lra
      | match goal with
        | |- context [JS.ge (0 + ?e) ?d] => rewrite (ge_false (0 + e) d) by lra
        end
      | progress cbn [nth_error phases currentPhaseIndex phaseTimer duration
                      intersection phaseOffset List.length Nat.add Nat.modulo
                      Nat.divmod fst snd Nat.sub] ];
    (split; [repeat split; reflexivity|]);
    eexists; (split; [reflexivity|]); cbn [currentPhaseIndex phaseTimer];
    f_equal; lra.
Qed.

Lemma offset_matches_phase_by_phase_replay_witness :
  exists l',
    replay [10; 11 - 10]
      (new (Intersection.mk "intersection-1-1" (mkPoint 0 0) true [] 10))
    = Some l' /\
    reading l' =
    reading (setPhaseOffset 11
      (new (Intersection.mk "intersection-1-1" (mkPoint 0 0) true [] 10))).
Proof.
  assert (E : phaseTicks 11 = [10; 11 - 10]).
  { unfold phaseTicks. rewrite total_cycle, rem_small by lra.
    unfold findPhase, phases; cbn [duration]. js_cmp. reflexivity. }
  rewrite <- E.
  apply (offset_matches_phase_by_phase_replay
           (Intersection.mk "intersection-1-1" (mkPoint 0 0) true [] 10) 11).
  lra.
Defined.

(** *** The offset, the timer and the right of way *)

Lemma rem_unique (a b r : R) (k : Z) :
  0 <= a -> 0 < b -> a = b * IZR k + r -> 0 <= r < b -> JS.rem a b = r.
Proof.
  intros Ha Hb Heq [Hr0 Hr1].
  unfold JS.rem, JS.Math_trunc, JS.Math_floor.
  assert (Hq : 0 <= a / b)
    by (apply Rmult_le_pos; [assumption | left; apply Rinv_0_lt_compat; assumption]).
  rewrite le_true by assumption.
  assert (Hab : a / b = IZR k + r / b) by (rewrite Heq; field; lra).
  assert (Hrb : 0 <= r / b < 1).
  { split.
    - apply Rmult_le_pos; [assumption | left; apply Rinv_0_lt_compat; assumption].
    - apply (Rmult_lt_reg_r b); [assumption|].
      unfold Rdiv. rewrite Rmult_assoc, Rinv_l by lra. lra. }
  rewrite <- (Int_part_spec (a / b) k) by (rewrite Hab; lra).
  rewrite Heq. ring.
Qed.

Lemma rem_plus_period (a b : R) (n : nat) :
  0 <= a -> 0 < b -> JS.rem (a + b * INR n) b = JS.rem a b.
Proof.
  intros Ha Hb.
  destruct (rem_range a b Ha Hb) as [H0 H1].
  assert (Hn : 0 <= INR n) by apply pos_INR.
  apply (rem_unique _ _ _ (JS.Math_trunc (a / b) + Z.of_nat n)%Z);
    try assumption; try (split; assumption).
  - nra.
  - rewrite plus_IZR, <- INR_IZR_INZ. unfold JS.rem. ring.
Qed.

Lemma rem_negative_small (a b : R) : - b < a < 0 -> JS.rem a b = a.
Proof.
  intros [H0 H1]. assert (Hb : 0 < b) by lra.
  unfold JS.rem, JS.Math_trunc, JS.Math_ceil.
  assert (Hq : -1 < a / b < 0).
  { split.
    - apply (Rmult_lt_reg_r b); [assumption|].
      unfold Rdiv. rewrite Rmult_assoc, Rinv_l by lra. lra.
    - apply (Rmult_lt_reg_r b); [assumption|].
      unfold Rdiv. rewrite Rmult_assoc, Rinv_l by lra. lra. }
  rewrite le_false by lra.
  rewrite <- (Int_part_spec (- (a / b)) 0) by (simpl; lra).
  simpl. ring.
Qed.

(** X1.  For an offset [o >= 0], [setPhaseOffset(o)] records the offset and
    puts the light into the phase that contains the instant [o % 26] of the
    cycle: the timer is within the phase, and the durations of the phases
    before it plus the timer give [o % 26]. *)
Theorem setPhaseOffset_finds_phase (offset : R) (l : t) :
  0 <= offset ->
  phaseOffset (setPhaseOffset offset l) = offset /\
  intersection (setPhaseOffset offset l) = intersection l /\
  exists p,
    nth_error phases (currentPhaseIndex (setPhaseOffset offset l)) = Some p /\
    0 <= phaseTimer (setPhaseOffset offset l) < duration p /\
    phaseStart (currentPhaseIndex (setPhaseOffset offset l))
    + phaseTimer (setPhaseOffset offset l) = JS.rem offset 26.
Proof.
  intros Ho. split; [|split].
  - unfold setPhaseOffset. destruct (findPhase _ _ _) as [[i e]|]; reflexivity.
  - unfold setPhaseOffset. destruct (findPhase _ _ _) as [[i e]|]; reflexivity.
  - destruct (setPhaseOffset_in_cycle offset l Ho) as [_ H]. exact H.
Qed.

Lemma setPhaseOffset_finds_phase_witness :
  exists p,
    nth_error phases
      (currentPhaseIndex
         (setPhaseOffset 40 (new (Intersection.mk "intersection-1-1" (mkPoint 0 0)
                                    true [] 10)))) = Some p /\
    0 <= phaseTimer
           (setPhaseOffset 40 (new (Intersection.mk "intersection-1-1" (mkPoint 0 0)
                                      true [] 10))) < duration p.
Proof.
  destruct (setPhaseOffset_finds_phase 40
              (new (Intersection.mk "intersection-1-1" (mkPoint 0 0) true [] 10)))
    as (_ & _ & p & Hp & Ht & _); [lra|].
  exists p. split; assumption.
Defined.

(** X2.  The offset counts modulo the cycle: for [o >= 0], adding any number
    of whole cycles of 26 seconds to the offset gives the same phase and the
    same time in it. *)
Theorem setPhaseOffset_periodic (offset : R) (n : nat) (l : t) :
  0 <= offset ->
  reading (setPhaseOffset (offset + 26 * INR n) l)
  = reading (setPhaseOffset offset l).
Proof.
  intros Ho. unfold setPhaseOffset, reading.
  rewrite total_cycle, rem_plus_period by lra.
  destruct (findPhase _ _ _) as [[i e]|]; reflexivity.
Qed.

Lemma setPhaseOffset_periodic_witness :
  reading (setPhaseOffset (11 + 26 * INR 3)
             (new (Intersection.mk "intersection-1-1" (mkPoint 0 0) true [] 10)))
  = reading (setPhaseOffset 11
               (new (Intersection.mk "intersection-1-1" (mkPoint 0 0) true [] 10))).
Proof. apply setPhaseOffset_periodic. lra. Defined.

(** X3.  A negative offset above -26 is not wrapped into the cycle: the
    remainder keeps the sign of the offset, the loop stops at phase 0, and
    the light is left in phase 0 with the negative offset as its timer. *)
Theorem setPhaseOffset_negative (offset : R) (l : t) :
  -26 < offset < 0 ->
  reading (setPhaseOffset offset l) = (0%nat, offset).
Proof.
  intros Ho. unfold setPhaseOffset, reading.
  rewrite total_cycle, rem_negative_small by lra.
  cbn [findPhase phases duration]. rewrite lt_true by lra. reflexivity.
Qed.

Lemma setPhaseOffset_negative_witness :
  reading (setPhaseOffset (-3)
             (new (Intersection.mk "intersection-1-1" (mkPoint 0 0) true [] 10)))
  = (0%nat, -3).
Proof. apply setPhaseOffset_negative. lra. Defined.

Lemma running_index (l : t) : running l -> (currentPhaseIndex l < 6)%nat.
Proof.
  induction 1 as [i | l l' delta _ IH _ Hu | l offset _ IH _].
  - cbn. lia.
  - exact (update_index delta l l' Hu IH).
  - exact (setPhaseOffset_index offset l IH).
Qed.

(** X4.  In every state the coordinator can bring a light into (construction,
    [update] with a non-negative step, [setPhaseOffset] with a non-negative
    offset) the phase index is valid and the timer lies within the current
    phase: at least 0 and below the phase's duration. *)
Theorem running_timer_within_phase (l : t) :
  running l ->
  exists p,
    nth_error phases (currentPhaseIndex l) = Some p /\
    0 <= phaseTimer l < duration p.
Proof.
  induction 1 as [i | l l' delta _ IH Hd Hu | l offset _ IH Ho].
  - eexists. split; [reflexivity|]. simpl. lra.
  - destruct IH as (p & Hp & Ht).
    unfold update in Hu. rewrite Hp in Hu.
    destruct (Rle_dec (duration p) (phaseTimer l + delta)) as [Hge|Hlt].
    + rewrite ge_true in Hu by assumption. injection Hu as <-.
      cbn [currentPhaseIndex phaseTimer].
      destruct (phase_in_range ((currentPhaseIndex l + 1) mod 6)) as [q Hq].
      { apply Nat.mod_upper_bound. discriminate. }
      exists q. split; [exact Hq|].
      assert (Hdur : 0 < duration q).
      { revert Hq. generalize ((currentPhaseIndex l + 1) mod 6)%nat. intros k Hq.
        do 6 (destruct k as [|k]; [injection Hq as <-; simpl; lra|]).
        destruct k; discriminate. }
      lra.
    + rewrite ge_false in Hu by lra. injection Hu as <-.
      exists p. cbn [currentPhaseIndex phaseTimer]. split; [assumption | lra].
  - destruct (setPhaseOffset_in_cycle offset l Ho) as [_ (p & Hp & Ht & _)].
    exists p. split; assumption.
Qed.

Lemma running_timer_within_phase_witness :
  exists l p,
    running l /\ currentPhaseIndex l = 1%nat /\
    nth_error phases (currentPhaseIndex l) = Some p /\
    0 <= phaseTimer l < duration p.
Proof.
  set (i := Intersection.mk "intersection-1-1" (mkPoint 0 0) true [] 10).
  assert (Hr : running (setPhaseOffset 11 (new i))).
  { apply run_offset; [apply run_new | lra]. }
  destruct (running_timer_within_phase _ Hr) as (p & Hp & Ht).
  exists (setPhaseOffset 11 (new i)), p.
  split; [assumption|]. split; [|split; assumption].
  pose proof (setPhaseOffset_11 i) as H. injection H as H _. exact H.
Defined.

(** X5.  Right of way is exclusive, yellow included.  While the phase index
    is valid, two directions of one axis read the same aspect, and of two
    crossing directions at least one reads red: when a direction may proceed
    or is told to prepare to stop, every crossing direction shows red and may
    not proceed. *)
Theorem crossing_directions_exclusive (l : t) (a b : Direction) :
  (currentPhaseIndex l < 6)%nat ->
  (sameAxis a b = true -> getState a l = getState b l) /\
  (sameAxis a b = false ->
     (getState a l = Some red \/ getState b l = Some red) /\
     (canProceed a l = Some true \/ shouldPrepareToStop a l = Some true ->
      getState b l = Some red /\ canProceed b l = Some false /\
      shouldPrepareToStop b l = Some false)).
Proof.
  intros Hi. destruct (phase_in_range _ Hi) as [p Hp].
  unfold canProceed, shouldPrepareToStop, getState. rewrite Hp.
  revert Hp. generalize (currentPhaseIndex l). intros k Hp.
  split.
  - destruct a, b; cbn; intros H; try discriminate; reflexivity.
  - do 6 (destruct k as [|k];
          [injection Hp as <-;
           destruct a, b; cbn; intros H; try discriminate;
           (split; [auto | intros [H1|H1]; try discriminate; auto])|]).
    destruct k; discriminate.
Qed.

Lemma crossing_directions_exclusive_witness :
  canProceed north (new (Intersection.mk "intersection-1-1" (mkPoint 0 0) true [] 10))
    = Some true /\
  getState east (new (Intersection.mk "intersection-1-1" (mkPoint 0 0) true [] 10))
    = Some red.
Proof.
  split; [reflexivity|].
  apply (proj2 (crossing_directions_exclusive
                  (new (Intersection.mk "intersection-1-1" (mkPoint 0 0) true [] 10))
                  north east ltac:(simpl; lia)) eq_refl).
  left. reflexivity.
Defined.

End TrafficLightFacts.

(** ** The road graph *)

Module CityRoadNetworkFacts.
Import CityRoadNetwork.


Lemma flat_map_constant_length {A B : Type} (f : A -> list B) (k : nat) (l : list A) :
  (forall a, List.length (f a) = k) ->
  List.length (flat_map f l) = (List.length l * k)%nat.
Proof.
  intros Hf. induction l as [|a l IH]; simpl; [reflexivity|].
  rewrite length_app, Hf, IH. reflexivity.
Qed.

Lemma alongLanes_length (s : Segment.t) (n : nat) (place : R -> R -> Point) :
  List.length (alongLanes s n place) = (S n * Segment.lanes s)%nat.
Proof.
  unfold alongLanes.
  rewrite (flat_map_constant_length _ (Segment.lanes s)).
  - rewrite length_seq. reflexivity.
  - intros i. rewrite length_map, length_seq. reflexivity.
Qed.

(** Among the lane indices [start, start + len) exactly one is [j]. *)
Lemma one_per_lane {B : Type} (f : nat -> B) (lane_of : B -> nat) (j : nat) :
  (forall k, lane_of (f k) = k) ->
  forall len start, (start <= j < start + len)%nat ->
    List.length (filter (fun w => Nat.eqb (lane_of w) j) (map f (seq start len)))
    = 1%nat.
Proof.
  intros Hf. induction len as [|len IH]; intros start Hj; [lia|].
  simpl. rewrite Hf.
  destruct (Nat.eqb_spec start j) as [->|Hne].
  - simpl. f_equal.
    clear IH Hj. generalize (S j) (Nat.lt_succ_diag_r j).
    induction len as [|len IH]; intros st Hst; simpl; [reflexivity|].
    rewrite Hf. destruct (Nat.eqb_spec st j) as [->|_]; [lia|].
    apply IH. lia.
  - apply IH. lia.
Qed.

Lemma filter_flat_map_length {A B : Type} (f : A -> list B) (p : B -> bool)
    (l : list A) (k : nat) :
  (forall a, List.length (filter p (f a)) = k) ->
  List.length (filter p (flat_map f l)) = (List.length l * k)%nat.
Proof.
  intros Hf. induction l as [|a l IH]; [reflexivity|].
  cbn [flat_map List.length]. rewrite filter_app, length_app, Hf, IH. reflexivity.
Qed.

Lemma alongLanes_lane_length (s : Segment.t) (n : nat) (place : R -> R -> Point)
    (j : nat) :
  (j < Segment.lanes s)%nat ->
  List.length
    (filter (fun w => Nat.eqb (Waypoint.lane w) j) (alongLanes s n place))
  = S n.
Proof.
  intros Hj. unfold alongLanes.
  rewrite (filter_flat_map_length _ _ _ 1%nat).
  - rewrite length_seq. lia.
  - intros i. apply (one_per_lane _ Waypoint.lane j); [reflexivity | lia].
Qed.


(** *** Connecting waypoints *)

Lemma dist_nonneg (a b : Point) : 0 <= dist a b.
Proof. apply sqrt_pos. Qed.

Lemma dist_lt_square (a b : Point) (c : R) :
  dist a b < c -> (x a - x b) ^ 2 + (z a - z b) ^ 2 < c * c.
Proof.
  intros H. pose proof (dist_nonneg a b) as H0.
  apply sqrt_lt_0_alt. rewrite (sqrt_square c) by lra. exact H.
Qed.

Lemma dist_lt_axes (a b : Point) (c : R) :
  dist a b < c -> Rabs (x a - x b) < c /\ Rabs (z a - z b) < c.
Proof.
  intros H. pose proof (dist_nonneg a b) as H0.
  assert (Hc : 0 < c) by lra.
  apply dist_lt_square in H. simpl in H.
  set (u := x a - x b) in *. set (v := z a - z b) in *.
  assert (Hu : 0 <= u * u) by nra.
  assert (Hv : 0 <= v * v) by nra.
  split; unfold Rabs; destruct (Rcase_abs _); apply Rnot_le_lt; intros Hge; nra.
Qed.


Lemma dist_ge_z (a b : Point) (c : R) :
  c <= Rabs (z a - z b) -> c <= dist a b.
Proof.
  intros H. destruct (Rle_dec c (dist a b)) as [|Hn]; [assumption|].
  apply Rnot_le_lt, dist_lt_axes in Hn. lra.
Qed.






Lemma generateWaypoints_intersections (net : t) :
  intersections (generateWaypoints net) = intersections net.
Proof.
  unfold generateWaypoints.
  generalize (segments net). intros l. revert net.
  induction l as [|s l IH]; intros net; [reflexivity|].
  cbn [fold_left]. rewrite IH. reflexivity.
Qed.

Lemma build_intersections : intersections build = createIntersections.
Proof. unfold build. rewrite generateWaypoints_intersections. reflexivity. Qed.





(** *** Well-formedness of the generated graph *)

Lemma get_set_same {V : Type} (key : string) (v : V) (m : Map.t V) :
  Map.get key (Map.set key v m) = Some v.
Proof.
  induction m as [|[k w] m IH]; cbn.
  - rewrite String.eqb_refl. reflexivity.
  - destruct (String.eqb k key) eqn:E; cbn; rewrite E; [reflexivity | exact IH].
Qed.

Lemma get_set_keeps {V : Type} (key k : string) (v : V) (m : Map.t V) :
  (exists w, Map.get key m = Some w) ->
  exists w, Map.get key (Map.set k v m) = Some w.
Proof.
  induction m as [|[k0 w0] m IH]; cbn; intros [w Hw]; [discriminate|].
  destruct (String.eqb k0 k) eqn:Ek; cbn.
  - destruct (String.eqb k0 key); eauto.
  - destruct (String.eqb k0 key); eauto.
Qed.

Lemma fold_set_keeps (wps : list Waypoint.t) (key : string) :
  forall m : Map.t Waypoint.t,
    (exists w, Map.get key m = Some w) ->
    exists w,
      Map.get key (fold_left (fun m w => Map.set (Waypoint.id w) w m) wps m)
      = Some w.
Proof.
  induction wps as [|a wps IH]; intros m H; cbn [fold_left]; [assumption|].
  apply IH, get_set_keeps, H.
Qed.

Lemma fold_set_present (wps : list Waypoint.t) (a : Waypoint.t) :
  In a wps ->
  forall m : Map.t Waypoint.t,
    exists w,
      Map.get (Waypoint.id a)
        (fold_left (fun m w => Map.set (Waypoint.id w) w m) wps m) = Some w.
Proof.
  induction wps as [|b wps IH]; intros Hin m; [contradiction|].
  cbn [fold_left]. destruct Hin as [->|Hin].
  - apply fold_set_keeps. exists a. apply get_set_same.
  - apply IH. exact Hin.
Qed.

Lemma segmentWaypoints_alongLanes (s : Segment.t) :
  exists n place, segmentWaypoints s = alongLanes s n place.
Proof.
  unfold segmentWaypoints. destruct (Segment.curved s); eauto.
Qed.

Lemma addSegment_resolve (net : t) (s : Segment.t) :
  lanes_resolve net -> lanes_resolve (addSegment net s).
Proof.
  intros Hnet lane Hin. unfold addSegment in *. cbn [lanes] in Hin.
  unfold getWaypoint. cbn [waypoints].
  apply in_app_or in Hin. destruct Hin as [Hold|Hnew].
  - destruct (Hnet lane Hold) as [Hne Hres]. split; [assumption|].
    intros wid Hwid. apply fold_set_keeps, Hres, Hwid.
  - unfold segmentLanes in Hnew. apply in_map_iff in Hnew.
    destruct Hnew as (j & <- & Hj). apply in_seq in Hj. cbn [Lane.waypoints].
    split.
    + destruct (segmentWaypoints_alongLanes s) as (n & place & ->).
      intros Hnil. apply (f_equal (@List.length string)) in Hnil.
      rewrite length_map, alongLanes_lane_length in Hnil by lia. discriminate.
    + intros wid Hwid. apply in_map_iff in Hwid.
      destruct Hwid as (a & <- & Ha). apply filter_In in Ha.
      apply fold_set_present. exact (proj1 Ha).
Qed.

Lemma fold_addSegment_resolve (l : list Segment.t) :
  forall net, lanes_resolve net -> lanes_resolve (fold_left addSegment l net).
Proof.
  induction l as [|s l IH]; intros net H; cbn [fold_left]; [assumption|].
  apply IH, addSegment_resolve, H.
Qed.


(** The lanes of a segment that has been added stay registered. *)
Lemma fold_addSegment_lanes (l : list Segment.t) :
  forall net lane,
    In lane (lanes net) -> In lane (lanes (fold_left addSegment l net)).
Proof.
  induction l as [|s l IH]; intros net lane H; cbn [fold_left]; [assumption|].
  apply IH. unfold addSegment. cbn [lanes]. apply in_or_app. left. exact H.
Qed.

Lemma fold_addSegment_registers (l : list Segment.t) (s : Segment.t) (j : nat) :
  In s l -> (j < Segment.lanes s)%nat ->
  forall net,
    exists lane,
      In lane (lanes (fold_left addSegment l net)) /\
      Lane.id lane = (Segment.id s ++ "-lane" ++ nat_to_string j)%string.
Proof.
  induction l as [|s0 l IH]; intros Hin Hj net; [contradiction|].
  cbn [fold_left]. destruct Hin as [->|Hin].
  - eexists. split.
    + apply fold_addSegment_lanes. unfold addSegment. cbn [lanes].
      apply in_or_app. right. unfold segmentLanes.
      apply in_map_iff. exists j. split; [reflexivity|].
      apply in_seq. lia.
    + reflexivity.
  - apply IH; assumption.
Qed.

Lemma find_registered (f : Lane.t -> bool) (l : list Lane.t) (a : Lane.t) :
  In a l -> f a = true -> exists b, find f l = Some b.
Proof.
  intros Hin Hf. destruct (find f l) as [b|] eqn:E; [eauto|].
  rewrite (find_none f l E a Hin) in Hf. discriminate.
Qed.

Lemma fold_addSegment_segments (l : list Segment.t) :
  forall net, segments (fold_left addSegment l net) = segments net.
Proof.
  induction l as [|s l IH]; intros net; cbn [fold_left]; [reflexivity|].
  rewrite IH. reflexivity.
Qed.

Lemma build_segments :
  segments build
  = createMainRoads ++ createSideStreets ++ createHighwayLoop
    ++ createCurvedConnectors.
Proof. unfold build, generateWaypoints. apply fold_addSegment_segments. Qed.


(** *** The waypoints of a main road *)

(** *** The graph as built: lanes and stored waypoints *)

(** [generateWaypoints] pushes the lanes of each segment in turn. *)
Lemma fold_addSegment_pushes (l : list Segment.t) :
  forall net,
    lanes (fold_left addSegment l net)
    = lanes net ++ flat_map (fun s => segmentLanes s (segmentWaypoints s)) l.
Proof.
  induction l as [|s l IH]; intros net; cbn [fold_left flat_map].
  - rewrite app_nil_r. reflexivity.
  - rewrite IH. unfold addSegment. cbn [lanes].
    rewrite <- app_assoc. reflexivity.
Qed.












(** A waypoint stored for a segment stays stored, under its id, while the
    later segments are added. *)
Lemma fold_addSegment_keeps (l : list Segment.t) (key : string) :
  forall net,
    (exists w, getWaypoint net key = Some w) ->
    exists w, getWaypoint (fold_left addSegment l net) key = Some w.
Proof.
  induction l as [|s l IH]; intros net H; [exact H|].
  cbn [fold_left]. apply IH. unfold addSegment, getWaypoint in *.
  cbn [waypoints]. apply fold_set_keeps, H.
Qed.

Lemma fold_addSegment_stores (l : list Segment.t) (s : Segment.t)
    (a : Waypoint.t) :
  In s l -> In a (segmentWaypoints s) ->
  forall net,
    exists w, getWaypoint (fold_left addSegment l net) (Waypoint.id a) = Some w.
Proof.
  induction l as [|s0 l IH]; intros Hs Ha net; [destruct Hs|].
  cbn [fold_left]. destruct Hs as [->|Hs].
  - apply fold_addSegment_keeps. unfold addSegment, getWaypoint.
    cbn [waypoints]. apply fold_set_present, Ha.
  - apply IH; assumption.
Qed.








(** *** The intersection located for a waypoint *)










(** *** Waypoints per segment and the generated graph *)

Lemma numPointsFor_at_least (lo : Z) (len : R) :
  (Z.to_nat lo <= numPointsFor lo len)%nat.
Proof. unfold numPointsFor. lia. Qed.

(** X6.  Whatever the segment of the graph, straight or arc,
    [generateWaypoints] pushes for it, next to one another in the graph's
    list of lanes, one lane per lane of the segment; each carries the
    segment's id and lists the same number of waypoint ids, one per index
    [0..numPoints] with [numPoints >= 2], so at least 3; together they list
    that number times the lane count; and every id they list is stored in
    the waypoint map of the generated graph. *)
Theorem segment_waypoint_counts (net : t) (s : Segment.t) :
  In s (segments net) ->
  exists (numPoints : nat) (before pushed after : list Lane.t),
    (2 <= numPoints)%nat /\
    lanes (generateWaypoints net) = before ++ pushed ++ after /\
    List.length pushed = Segment.lanes s /\
    map Lane.laneIndex pushed = seq 0 (Segment.lanes s) /\
    Forall (fun lane =>
              Lane.segmentId lane = Segment.id s /\
              List.length (Lane.waypoints lane) = S numPoints /\
              forall wid, In wid (Lane.waypoints lane) ->
                exists w, getWaypoint (generateWaypoints net) wid = Some w)
           pushed /\
    List.length (flat_map Lane.waypoints pushed)
    = (S numPoints * Segment.lanes s)%nat.
Proof.
  intros Hs.
  assert (H : exists n place, (2 <= n)%nat /\
                              segmentWaypoints s = alongLanes s n place).
  { unfold segmentWaypoints. destruct (Segment.curved s).
    - eexists _, _. split; [|reflexivity].
      pose proof (numPointsFor_at_least 3
                    (Rabs (curveEndAngle a - curveStartAngle a) * curveRadius a)).
      simpl in *. lia.
    - eexists _, _. split; [|reflexivity].
      match goal with
      | |- (2 <= numPointsFor 2 ?len)%nat =>
          pose proof (numPointsFor_at_least 2 len)
      end.
      simpl in *. lia. }
  destruct H as (n & place & Hn & Hw).
  destruct (in_split _ _ Hs) as (l1 & l2 & Hsplit).
  exists n,
    (lanes net ++ flat_map (fun s => segmentLanes s (segmentWaypoints s)) l1),
    (segmentLanes s (segmentWaypoints s)),
    (flat_map (fun s => segmentLanes s (segmentWaypoints s)) l2).
  assert (Hlen : forall lane,
             In lane (segmentLanes s (segmentWaypoints s)) ->
             List.length (Lane.waypoints lane) = S n).
  { intros lane Hin. rewrite Hw in Hin. unfold segmentLanes in Hin.
    apply in_map_iff in Hin. destruct Hin as (j & <- & Hj).
    apply in_seq in Hj. cbn [Lane.waypoints].
    rewrite length_map, alongLanes_lane_length; [reflexivity | lia]. }
  split; [exact Hn|]. split.
  { unfold generateWaypoints. rewrite fold_addSegment_pushes.
    rewrite Hsplit at 1. rewrite flat_map_app. cbn [flat_map].
    rewrite <- !app_assoc. reflexivity. }
  split.
  { unfold segmentLanes. rewrite length_map, length_seq. reflexivity. }
  split.
  { unfold segmentLanes. rewrite map_map. cbn [Lane.laneIndex]. apply map_id. }
  split.
  - apply Forall_forall. intros lane Hin.
    split; [|split; [apply Hlen, Hin|]].
    + unfold segmentLanes in Hin. apply in_map_iff in Hin.
      destruct Hin as (j & <- & _). reflexivity.
    + intros wid Hwid. unfold segmentLanes in Hin. apply in_map_iff in Hin.
      destruct Hin as (j & <- & _). cbn [Lane.waypoints] in Hwid.
      apply in_map_iff in Hwid. destruct Hwid as (a & <- & Ha).
      apply filter_In in Ha. unfold generateWaypoints.
      apply (fold_addSegment_stores _ s a Hs (proj1 Ha)).
  - assert (G : forall l : list Lane.t,
               (forall lane, In lane l -> List.length (Lane.waypoints lane) = S n) ->
               List.length (flat_map Lane.waypoints l) = (S n * List.length l)%nat).
    { induction l as [|a l IH]; intros Hl; cbn [flat_map List.length]; [lia|].
      rewrite length_app, (Hl a (or_introl eq_refl)), IH; [lia|].
      intros lane Hin. apply Hl. right. exact Hin. }
    rewrite (G _ Hlen). unfold segmentLanes.
    rewrite length_map, length_seq. reflexivity.
Qed.

Lemma segment_waypoint_counts_witness :
  exists (numPoints : nat) (before pushed after : list Lane.t),
    (2 <= numPoints)%nat /\
    lanes build = before ++ pushed ++ after /\
    List.length pushed = 4%nat /\
    Forall (fun lane => Lane.segmentId lane = "main-h1"%string) pushed /\
    List.length (flat_map Lane.waypoints pushed) = (S numPoints * 4)%nat.
Proof.
  destruct (segment_waypoint_counts
              (mk (createMainRoads ++ createSideStreets ++ createHighwayLoop
                     ++ createCurvedConnectors) createIntersections Map.empty [])
              main_h1)
    as (n & before & pushed & after & Hn & Hl & Hp & _ & Hf & Hc).
  - apply in_or_app. left. unfold createMainRoads, main_h1. cbn.
    right; left. reflexivity.
  - exists n, before, pushed, after.
    split; [exact Hn|]. split; [exact Hl|]. split; [exact Hp|].
    split; [|exact Hc].
    revert Hf. apply Forall_impl. intros lane H. exact (proj1 H).
Defined.

Lemma fold_addSegment_intersections (l : list Segment.t) :
  forall net, intersections (fold_left addSegment l net) = intersections net.
Proof.
  induction l as [|s l IH]; intros net; cbn [fold_left]; [reflexivity|].
  rewrite IH. reflexivity.
Qed.

(** X7.  The graph [generateWaypoints] builds from a graph without lanes is
    well formed: segments and intersections are untouched, every lane has
    waypoints, every waypoint id a lane lists resolves in the waypoint map,
    and for every lane index of every segment the lane registered under the
    segment's id and that index is found. *)
Theorem generated_graph_well_formed (net : t) :
  lanes net = [] ->
  segments (generateWaypoints net) = segments net /\
  intersections (generateWaypoints net) = intersections net /\
  (forall lane, In lane (lanes (generateWaypoints net)) ->
     Lane.waypoints lane <> [] /\
     forall wid, In wid (Lane.waypoints lane) ->
       exists w, getWaypoint (generateWaypoints net) wid = Some w) /\
  (forall s j, In s (segments net) -> (j < Segment.lanes s)%nat ->
     exists lane,
       find (fun l => String.eqb (Lane.id l)
                        (Segment.id s ++ "-lane" ++ nat_to_string j))
            (lanes (generateWaypoints net)) = Some lane /\
       In lane (lanes (generateWaypoints net))).
Proof.
  intros Hl. unfold generateWaypoints.
  split; [apply fold_addSegment_segments|].
  split; [apply fold_addSegment_intersections|].
  split.
  - apply fold_addSegment_resolve. intros lane Hin. rewrite Hl in Hin.
    contradiction.
  - intros s j Hs Hj.
    destruct (fold_addSegment_registers _ s j Hs Hj net) as (lane0 & Hin0 & Hid).
    destruct (find_registered
                (fun l => String.eqb (Lane.id l)
                            (Segment.id s ++ "-lane" ++ nat_to_string j))
                _ lane0 Hin0) as [lane Hfind].
    { rewrite Hid. apply String.eqb_refl. }
    exists lane. split; [assumption|].
    apply find_some in Hfind. exact (proj1 Hfind).
Qed.

Lemma generated_graph_well_formed_witness :
  segments build
  = createMainRoads ++ createSideStreets ++ createHighwayLoop
    ++ createCurvedConnectors /\
  exists lane,
    find (fun l => String.eqb (Lane.id l) "main-h1-lane0") (lanes build) = Some lane /\
    Lane.waypoints lane <> [].
Proof.
  destruct (generated_graph_well_formed
              (mk (createMainRoads ++ createSideStreets ++ createHighwayLoop
                     ++ createCurvedConnectors) createIntersections Map.empty [])
              eq_refl) as (Hs & _ & Hres & Hfind).
  split; [exact Hs|].
  destruct (Hfind main_h1 0%nat) as (lane & Hf & Hin).
  - apply in_or_app. left. unfold createMainRoads, main_h1. cbn.
    right; left. reflexivity.
  - cbn. lia.
  - exists lane. split; [exact Hf|]. exact (proj1 (Hres lane Hin)).
Defined.

(** *** The nearest intersection *)

Lemma fold_nearest {A : Type} (f : A -> R) (l : list A) :
  forall seen best,
    nearest_of f seen best ->
    nearest_of f (seen ++ l)
      (fold_left
         (fun nearest a =>
            if JS.lt_num (f a) (snd nearest) then (Some a, JS.Fin (f a)) else nearest)
         l best).
Proof.
  induction l as [|a l IH]; intros seen best H; cbn [fold_left].
  - rewrite app_nil_r. exact H.
  - replace (seen ++ a :: l) with ((seen ++ [a]) ++ l)
      by (rewrite <- app_assoc; reflexivity).
    apply IH.
    destruct best as [[a0|] [d|]]; cbn in H; try contradiction.
    + destruct H as (Hin & -> & Hmin). cbn [snd JS.lt_num].
      destruct (Rlt_dec (f a) (f a0)) as [Hlt|Hge].
      * rewrite lt_true by assumption. cbn.
        split; [apply in_or_app; right; left; reflexivity|].
        split; [reflexivity|].
        intros b Hb. apply in_app_or in Hb. destruct Hb as [Hb|[<-|[]]].
        -- specialize (Hmin b Hb). lra.
        -- lra.
      * rewrite lt_false by lra. cbn.
        split; [apply in_or_app; left; assumption|].
        split; [reflexivity|].
        intros b Hb. apply in_app_or in Hb. destruct Hb as [Hb|[<-|[]]].
        -- apply Hmin, Hb.
        -- lra.
    + subst seen. cbn.
      split; [left; reflexivity|]. split; [reflexivity|].
      intros b [<-|[]]. lra.
Qed.

(** X8.  [getNearestIntersection] returns [null] and [Infinity] for a graph
    without intersections, and otherwise an intersection of the graph with
    its distance to the point, no intersection being nearer. *)
Theorem getNearestIntersection_is_nearest (net : t) (px pz : R) :
  (intersections net = [] ->
   getNearestIntersection net px pz = (None, JS.Infinity)) /\
  (intersections net <> [] ->
   exists inter,
     getNearestIntersection net px pz
     = (Some inter, JS.Fin (dist (Intersection.position inter) (mkPoint px pz))) /\
     In inter (intersections net) /\
     forall other, In other (intersections net) ->
       dist (Intersection.position inter) (mkPoint px pz)
       <= dist (Intersection.position other) (mkPoint px pz)).
Proof.
  pose proof (fold_nearest
                (fun inter => dist (Intersection.position inter) (mkPoint px pz))
                (intersections net) [] (None, JS.Infinity) eq_refl) as H.
  cbn [app] in H. fold (getNearestIntersection net px pz) in H.
  split.
  - intros Hnil. unfold getNearestIntersection. rewrite Hnil. reflexivity.
  - intros Hne.
    destruct (getNearestIntersection net px pz) as [[inter|] [d|]];
      cbn in H; try contradiction.
    destruct H as (Hin & -> & Hmin). exists inter. auto.
Qed.

Lemma getNearestIntersection_is_nearest_witness :
  exists inter,
    getNearestIntersection build 3 4
    = (Some inter, JS.Fin (dist (Intersection.position inter) (mkPoint 3 4))) /\
    In inter (intersections build).
Proof.
  destruct (proj2 (getNearestIntersection_is_nearest build 3 4))
    as (inter & H & Hin & _).
  - rewrite build_intersections. discriminate.
  - exists inter. split; assumption.
Defined.

(** *** Waypoints of a straight segment lie on the road *)

Lemma sqrt_lt_sq (c u : R) : 0 < c -> 0 <= u < c * c -> sqrt u < c.
Proof.
  intros Hc [H0 Hu]. rewrite <- (sqrt_square c) by lra.
  apply sqrt_lt_1_alt. split; assumption.
Qed.

Lemma laneOffset_bound (lane lanes : nat) :
  (lane < lanes)%nat ->
  Rabs (laneOffset lane lanes) <= (INR lanes - 1) / 2 * laneWidth.
Proof.
  intros H. unfold laneOffset, laneWidth.
  assert (H0 : 0 <= INR lane) by apply pos_INR.
  assert (H1 : INR lane <= INR lanes - 1).
  { replace (INR lanes - 1) with (INR (lanes - 1)).
    - apply le_INR. lia.
    - rewrite minus_INR by lia. reflexivity. }
  apply Rabs_le. split; nra.
Qed.

(** The test of [isOnRoad] on a point laid out along a straight segment:
    [t] of the way from start to end, [h] to the side. *)
Lemma onSegment_straight (s : Segment.t) (t h : R) :
  Segment.curved s = None ->
  Segment.start s <> Segment.end_ s ->
  -0.1 <= t <= 1.1 ->
  Rabs h < Segment.width s / 2 + 2 ->
  let dx := x (Segment.end_ s) - x (Segment.start s) in
  let dz := z (Segment.end_ s) - z (Segment.start s) in
  let length := sqrt (dx * dx + dz * dz) in
  onSegment s (x (Segment.start s) + t * dx + - dz / length * h)
              (z (Segment.start s) + t * dz + dx / length * h) = true.
Proof.
  intros Hc Hne Ht Hh dx dz length. unfold onSegment. rewrite Hc.
  fold dx dz. fold length.
  assert (Hsq : 0 < dx * dx + dz * dz).
  { destruct (Req_dec dx 0) as [Hx|Hx]; [|nra].
    destruct (Req_dec dz 0) as [Hz|Hz]; [|nra].
    exfalso. apply Hne. unfold dx, dz in *.
    destruct (Segment.start s) as [sx sz], (Segment.end_ s) as [ex ez].
    cbn in *. f_equal; lra. }
  assert (Hlen : 0 < length) by (apply sqrt_lt_R0; assumption).
  assert (Hll : length * length = dx * dx + dz * dz)
    by (apply sqrt_sqrt; lra).
  cbv zeta.
  rewrite (eq_false length 0) by lra.
  assert (Et : ((x (Segment.start s) + t * dx + - dz / length * h
                 - x (Segment.start s)) * dx
                + (z (Segment.start s) + t * dz + dx / length * h
                   - z (Segment.start s)) * dz) / (length * length) = t).
  { rewrite Hll. field. split; lra. }
  rewrite Et. rewrite ge_true, le_true by lra. cbn [andb].
  apply lt_true.
  assert (Hd : (x (Segment.start s) + t * dx + - dz / length * h
                - (x (Segment.start s) + t * dx)) ^ 2
               + (z (Segment.start s) + t * dz + dx / length * h
                  - (z (Segment.start s) + t * dz)) ^ 2 = h * h).
  { transitivity (h * h * (dx * dx + dz * dz) / (length * length)).
    - field. lra.
    - rewrite Hll. field. lra. }
  rewrite Hd.
  apply sqrt_lt_sq.
  - pose proof (Rabs_pos h). lra.
  - split; [nra|].
    destruct (Rcase_abs h) as [Hneg|Hpos].
    + rewrite (Rabs_left h) in Hh by assumption. nra.
    + rewrite (Rabs_right h) in Hh by assumption. nra.
Qed.

(** X9.  Every waypoint [generateWaypoints] lays out for a straight segment
    of positive length whose lanes fit within two units of its width is a
    point [isOnRoad] accepts, in any graph that has the segment. *)
Theorem straight_waypoints_are_on_road (net : t) (s : Segment.t) (w : Waypoint.t) :
  In s (segments net) ->
  Segment.curved s = None ->
  Segment.start s <> Segment.end_ s ->
  (INR (Segment.lanes s) - 1) / 2 * laneWidth < Segment.width s / 2 + 2 ->
  In w (segmentWaypoints s) ->
  isOnRoad net (x (Waypoint.position w)) (z (Waypoint.position w)) = true.
Proof.
  intros Hs Hc Hne Hfit Hw.
  unfold isOnRoad. apply existsb_exists. exists s. split; [assumption|].
  unfold segmentWaypoints in Hw. rewrite Hc in Hw. cbv zeta in Hw.
  unfold alongLanes in Hw. apply in_flat_map in Hw.
  destruct Hw as (i & Hi & Hw). apply in_map_iff in Hw.
  destruct Hw as (lane & <- & Hlane).
  apply in_seq in Hi. apply in_seq in Hlane.
  cbn [Waypoint.position x z].
  match goal with
  | |- context [numPointsFor 2 ?len] =>
      pose proof (numPointsFor_at_least 2 len) as Hn;
      set (n := numPointsFor 2 len) in *
  end.
  assert (Hn0 : 0 < INR n) by (apply lt_0_INR; simpl in Hn; lia).
  assert (Hi1 : 0 <= INR i <= INR n).
  { split; [apply pos_INR | apply le_INR; lia]. }
  assert (Ht : 0 <= INR i / INR n <= 1).
  { split.
    - apply Rmult_le_pos; [lra | left; apply Rinv_0_lt_compat; lra].
    - apply Rmult_le_reg_r with (INR n); [lra|].
      unfold Rdiv. rewrite Rmult_assoc, Rinv_l by lra. lra. }
  apply onSegment_straight; try assumption.
  - lra.
  - pose proof (laneOffset_bound lane (Segment.lanes s) ltac:(lia)). lra.
Qed.

Lemma straight_waypoints_are_on_road_witness :
  Forall (fun w => isOnRoad build (x (Waypoint.position w))
                    (z (Waypoint.position w)) = true)
         (segmentWaypoints main_h1).
Proof.
  apply Forall_forall. intros w Hw.
  apply (straight_waypoints_are_on_road build main_h1 w).
  - rewrite build_segments. apply in_or_app. left.
    unfold createMainRoads, main_h1. cbn. right; left. reflexivity.
  - reflexivity.
  - cbn. intros E. injection E. lra.
  - cbn. unfold laneWidth, mainRoadWidth. lra.
  - exact Hw.
Defined.

(** *** Random picks *)

Lemma Math_floor_nat (a : R) :
  0 <= a ->
  exists k : nat, JS.Math_floor a = Z.of_nat k /\ INR k <= a < INR k + 1.
Proof.
  intros Ha. unfold JS.Math_floor.
  destruct (base_Int_part a) as [Hlo Hhi].
  assert (Hz : (0 <= Int_part a)%Z).
  { apply Z.lt_succ_r. apply lt_IZR. rewrite succ_IZR. lra. }
  exists (Z.to_nat (Int_part a)).
  rewrite Z2Nat.id by assumption. split; [reflexivity|].
  rewrite INR_IZR_INZ, Z2Nat.id by assumption. lra.
Qed.

(** [Math.floor(Math.random() * n)] is an index of an array of length [n]. *)
Lemma random_index (rnd : R) (n : nat) :
  0 <= rnd < 1 -> (0 < n)%nat ->
  exists k : nat, JS.Math_floor (rnd * INR n) = Z.of_nat k /\ (k < n)%nat.
Proof.
  intros Hr Hn.
  assert (H0 : 0 < INR n) by (apply lt_0_INR; assumption).
  destruct (Math_floor_nat (rnd * INR n)) as (k & Hk & Hlo & Hhi); [nra|].
  exists k. split; [assumption|].
  apply INR_lt. nra.
Qed.

Lemma at_index_nat {A : Type} (l : list A) (k : nat) :
  at_index l (Z.of_nat k) = nth_error l k.
Proof.
  unfold at_index. destruct (Z.of_nat k) eqn:E; try lia;
    rewrite <- E, Nat2Z.id; reflexivity.
Qed.

(** [indexOf] finds the first position of an element that is present. *)
Lemma indexOf_present (key : string) (l : list string) :
  forall k, nth_error l k = Some key ->
    exists k', indexOf key l = Z.of_nat k' /\ (k' <= k)%nat /\
               nth_error l k' = Some key.
Proof.
  induction l as [|a l IH]; intros k Hk.
  - destruct k; discriminate.
  - cbn [indexOf]. destruct (String.eqb a key) eqn:E.
    + apply String.eqb_eq in E. subst a.
      exists 0%nat. split; [reflexivity|]. split; [lia | reflexivity].
    + destruct k as [|k].
      * cbn in Hk. injection Hk as ->. rewrite String.eqb_refl in E. discriminate.
      * cbn in Hk. destruct (IH k Hk) as (k' & Hi & Hle & Hn).
        exists (S k'). rewrite Hi.
        split; [destruct (Z.of_nat k') eqn:Ek; lia|].
        split; [lia | exact Hn].
Qed.

(** X10.  On a graph whose lanes resolve and which has a lane of a main road
    or of the highway, [getRandomSpawnPoint] does not throw: it returns a
    drivable lane of the graph with its direction, an index into that
    lane's waypoints, never the last one of a lane with two or more
    waypoints, and the position of the waypoint at that index. *)
Theorem getRandomSpawnPoint_valid (net : t) (rnd1 rnd2 : R) :
  0 <= rnd1 < 1 -> 0 <= rnd2 < 1 ->
  lanes_resolve net ->
  filter drivable (lanes net) <> [] ->
  exists sp k wid w,
    getRandomSpawnPoint net rnd1 rnd2 = Some sp /\
    In (spawnLane sp) (lanes net) /\
    drivable (spawnLane sp) = true /\
    spawnDirection sp = Lane.direction (spawnLane sp) /\
    waypointIndex sp = Z.of_nat k /\
    nth_error (Lane.waypoints (spawnLane sp)) k = Some wid /\
    (2 <= List.length (Lane.waypoints (spawnLane sp)) ->
     k < List.length (Lane.waypoints (spawnLane sp)) - 1)%nat /\
    getWaypoint net wid = Some w /\
    spawnPosition sp = Waypoint.position w.
Proof.
  intros Hr1 Hr2 Hres Hne. unfold getRandomSpawnPoint.
  set (drivableLanes := filter drivable (lanes net)) in *.
  destruct (random_index rnd1 (List.length drivableLanes) Hr1) as (i & Hi & Hlt).
  { destruct drivableLanes; [contradiction | cbn; lia]. }
  rewrite Hi, at_index_nat.
  destruct (nth_error drivableLanes i) as [lane|] eqn:Hlane;
    [|apply nth_error_None in Hlane; lia].
  assert (Hin : In lane drivableLanes) by (eapply nth_error_In; eassumption).
  apply filter_In in Hin. destruct Hin as [Hin Hdrv].
  destruct (Hres lane Hin) as [Hnonempty Hids].
  set (ids := Lane.waypoints lane) in *.
  assert (Hlen : (1 <= List.length ids)%nat).
  { destruct ids; [contradiction | cbn; lia]. }
  assert (Hj : exists j, JS.Math_floor (rnd2 * (INR (List.length ids) - 1))
                         = Z.of_nat j /\
                         (j < List.length ids)%nat /\
                         (2 <= List.length ids -> j < List.length ids - 1)%nat).
  { replace (INR (List.length ids) - 1) with (INR (List.length ids - 1))
      by (rewrite minus_INR by lia; reflexivity).
    destruct (Nat.eq_dec (List.length ids) 1) as [E1|E1].
    - rewrite E1. cbn [Nat.sub INR]. rewrite Rmult_0_r.
      destruct (Math_floor_nat 0) as (j & Hj & Hlo & Hhi); [lra|].
      exists j. split; [assumption|].
      assert (j = 0)%nat.
      { destruct j; [reflexivity|]. rewrite S_INR in Hlo.
        pose proof (pos_INR j). lra. }
      subst j. split; lia.
    - destruct (random_index rnd2 (List.length ids - 1) Hr2) as (j & Hj & Hjlt);
        [lia|].
      exists j. split; [assumption|]. split; lia. }
  destruct Hj as (j & Hj & Hjlt & Hjlast).
  rewrite Hj, at_index_nat.
  destruct (nth_error ids j) as [startWpId|] eqn:Hid;
    [|apply nth_error_None in Hid; lia].
  destruct (indexOf_present startWpId ids j Hid) as (k & Hk & Hkj & Hnth).
  destruct (Hids startWpId) as [w Hw]; [eapply nth_error_In; eassumption|].
  unfold getWaypoint in Hw. rewrite Hw.
  eexists _, k, startWpId, w. split; [reflexivity|].
  cbn [spawnLane spawnDirection waypointIndex spawnPosition].
  fold ids. repeat (split; [first [assumption | reflexivity]|]).
  split; [intros H2; specialize (Hjlast H2); lia|].
  split; [exact Hw | reflexivity].
Qed.

Lemma junction_resolves : lanes_resolve junction.
Proof.
  intros lane [<-|[<-|[]]]; (split; [discriminate|]);
    intros wid [<-|[]]; eexists; reflexivity.
Qed.

Lemma getRandomSpawnPoint_valid_witness :
  exists sp, getRandomSpawnPoint junction 0.5 0.5 = Some sp /\
             spawnPosition sp = mkPoint 0 0.
Proof.
  destruct (getRandomSpawnPoint_valid junction 0.5 0.5)
    as (sp & k & wid & w & Hsp & Hin & _ & _ & _ & Hnth & _ & Hw & Hpos).
  - lra.
  - lra.
  - exact junction_resolves.
  - discriminate.
  - exists sp. split; [exact Hsp|]. rewrite Hpos.
    destruct Hin as [E|[E|[]]]; rewrite <- E in Hnth; cbn in Hnth;
      destruct k as [|[|k]]; try discriminate;
      injection Hnth as <-; cbn in Hw; injection Hw as <-; reflexivity.
Defined.

(** *** Turning at an intersection *)

(** X11.  Within 15 units of an intersection, on a graph whose lanes
    resolve, [findConnectingWaypoint] returns [null] exactly when no lane
    of another segment touches the intersection; otherwise it returns the
    entry waypoint, first or last by the lane's direction, of a lane of the
    graph that belongs to a segment other than the current one. *)
Theorem findConnectingWaypoint_leaves_segment (net : t) (currentWp : Waypoint.t)
    (direction : Z) (rnd : R) (inter : Intersection.t) :
  nearbyIntersection net currentWp = Some inter ->
  lanes_resolve net ->
  0 <= rnd < 1 ->
  (connectedLanes net currentWp inter = [] ->
   findConnectingWaypoint net currentWp direction rnd = None) /\
  (connectedLanes net currentWp inter <> [] ->
   exists nextLane wid w,
     findConnectingWaypoint net currentWp direction rnd = Some w /\
     In nextLane (lanes net) /\
     Lane.segmentId nextLane <> Waypoint.segmentId currentWp /\
     (if (0 <? Lane.direction nextLane)%Z
      then hd_error (Lane.waypoints nextLane) = Some wid
      else nth_error (Lane.waypoints nextLane)
             (List.length (Lane.waypoints nextLane) - 1) = Some wid) /\
     getWaypoint net wid = Some w).
Proof.
  intros Hnear Hres Hr. unfold findConnectingWaypoint. rewrite Hnear. cbv zeta.
  set (connected := connectedLanes net currentWp inter).
  split.
  - intros ->. reflexivity.
  - intros Hne.
    destruct (random_index rnd (List.length connected) Hr) as (i & Hi & Hlt).
    { destruct connected; [contradiction | cbn; lia]. }
    destruct connected as [|c0 rest] eqn:Hconn; [contradiction|].
    rewrite <- Hconn in *. rewrite Hi, at_index_nat.
    destruct (nth_error connected i) as [nextLane|] eqn:Hlane;
      [|apply nth_error_None in Hlane; lia].
    assert (Hin : In nextLane connected) by (eapply nth_error_In; eassumption).
    unfold connected, connectedLanes in Hin.
    apply filter_In in Hin. destruct Hin as [Hin Hkeep].
    assert (Hseg : Lane.segmentId nextLane <> Waypoint.segmentId currentWp).
    { intros E. apply String.eqb_eq in E. rewrite E in Hkeep. discriminate. }
    destruct (Hres nextLane Hin) as [Hnonempty Hids].
    destruct (Lane.waypoints nextLane) as [|w0 ws] eqn:Hws; [contradiction|].
    destruct (0 <? Lane.direction nextLane)%Z eqn:Hdir.
    + destruct (Hids w0 (or_introl eq_refl)) as [w Hw].
      exists nextLane, w0, w. cbn [at_index nth_error Z.to_nat].
      unfold getWaypoint in Hw. rewrite Hw, Hdir, Hws.
      repeat (split; [first [assumption | reflexivity]|]). exact Hw.
    + replace (Z.of_nat (List.length (w0 :: ws)) - 1)%Z
        with (Z.of_nat (List.length ws)) by (cbn [List.length]; lia).
      rewrite at_index_nat.
      destruct (nth_error (w0 :: ws) (List.length ws)) as [wl|] eqn:Hl;
        [|apply nth_error_None in Hl; cbn in Hl; lia].
      destruct (Hids wl) as [w Hw]; [eapply nth_error_In; eassumption|].
      exists nextLane, wl, w.
      unfold getWaypoint in Hw. rewrite Hw, Hdir, Hws.
      repeat (split; [first [assumption | reflexivity]|]).
      split; [|exact Hw].
      cbn [List.length]. rewrite Nat.sub_succ, Nat.sub_0_r. exact Hl.
Qed.

Lemma junction_nearby :
  nearbyIntersection junction wpA
  = Some (Intersection.mk "j" (mkPoint 0 0) true ["main-a"; "side-b"]%string
            mainRoadWidth).
Proof.
  unfold nearbyIntersection. cbn [junction intersections find].
  rewrite lt_true; [reflexivity|].
  unfold dist. cbn.
  replace ((0 - 0) * ((0 - 0) * 1) + (0 - 0) * ((0 - 0) * 1)) with 0 by lra.
  rewrite sqrt_0. lra.
Qed.

Lemma findConnectingWaypoint_leaves_segment_witness :
  findConnectingWaypoint junction wpA 1 0.5 = Some wpB.
Proof.
  assert (Hd : dist (mkPoint 0 0) (mkPoint 0 0) < 15).
  { unfold dist. cbn.
    replace ((0 - 0) * ((0 - 0) * 1) + (0 - 0) * ((0 - 0) * 1)) with 0 by lra.
    rewrite sqrt_0. lra. }
  destruct (proj2 (findConnectingWaypoint_leaves_segment junction wpA 1 0.5 _
                     junction_nearby junction_resolves ltac:(lra)))
    as (nextLane & wid & w & Hres & Hin & Hseg & Hentry & Hw).
  - unfold connectedLanes. cbn [junction lanes segments filter Lane.segmentId
      Waypoint.segmentId wpA String.eqb Ascii.eqb Bool.eqb find Segment.id roadA roadB
      Segment.start Segment.end_ Intersection.position].
    rewrite (lt_true _ 15 Hd). discriminate.
  - rewrite Hres. f_equal.
    destruct Hin as [E|[E|[]]]; rewrite <- E in Hseg, Hentry.
    + exfalso. apply Hseg. reflexivity.
    + cbn in Hentry. injection Hentry as <-. cbn in Hw. injection Hw as <-.
      reflexivity.
Defined.

End CityRoadNetworkFacts.

(** ** The signal coordinator *)

Module TrafficManagerFacts.
Import CityRoadNetwork CityRoadNetworkFacts TrafficManager.

Arguments TrafficLight.setPhaseOffset : simpl never.

Lemma setPhaseOffset_intersection (offset : R) (l : TrafficLight.t) :
  TrafficLight.intersection (TrafficLight.setPhaseOffset offset l)
  = TrafficLight.intersection l.
Proof.
  unfold TrafficLight.setPhaseOffset.
  destruct (TrafficLight.findPhase _ _ _) as [[i e]|]; reflexivity.
Qed.


Lemma lightX_setPhaseOffset (k : string) (offset : R) (l : TrafficLight.t) :
  lightX (k, TrafficLight.setPhaseOffset offset l) = lightX (k, l).
Proof.
  unfold lightX, TrafficLight.getPosition; cbn [snd].
  rewrite setPhaseOffset_intersection. reflexivity.
Qed.

Lemma lightZ_setPhaseOffset (k : string) (offset : R) (l : TrafficLight.t) :
  lightZ (k, TrafficLight.setPhaseOffset offset l) = lightZ (k, l).
Proof.
  unfold lightZ, TrafficLight.getPosition; cbn [snd].
  rewrite setPhaseOffset_intersection. reflexivity.
Qed.

(** The calls of a pass follow its group, light by light. *)
Lemma waveFrom_targets (m : t) coord prev cum group :
  map target (waveFrom m coord prev cum group) = map fst group.
Proof.
  revert prev cum. induction group as [|e rest IH]; intros prev cum; simpl.
  - reflexivity.
  - rewrite IH. reflexivity.
Qed.

Lemma wave_targets (m : t) coord start group :
  map target (wave m coord start group) = map fst group.
Proof.
  destruct group as [|e rest]; simpl; [reflexivity|].
  rewrite waveFrom_targets. reflexivity.
Qed.


(** *** The two passes on the city's lights *)

Arguments TrafficLight.new : simpl never.

Lemma lightX_new (k : string) (i : Intersection.t) :
  lightX (k, TrafficLight.new i) = x (Intersection.position i).
Proof. reflexivity. Qed.

Lemma lightZ_new (k : string) (i : Intersection.t) :
  lightZ (k, TrafficLight.new i) = z (Intersection.position i).
Proof. reflexivity. Qed.

(** Runs [sortBy] on lights at known positions. *)
Ltac eval_sort :=
  unfold sortBy;
  repeat (cbn [fold_left insertBy];
          rewrite ?lightX_setPhaseOffset, ?lightZ_setPhaseOffset,
                  ?lightX_new, ?lightZ_new;
          cbn [Intersection.position x z]; js_cmp).

(** Runs a pass over a sorted group of lights at known positions. *)
Ltac eval_wave :=
  cbn [wave waveFrom fst];
  rewrite ?lightX_setPhaseOffset, ?lightZ_setPhaseOffset, ?lightX_new, ?lightZ_new;
  cbn [Intersection.position x z greenWaveSpeed baseCycleTime
       cityHorizontal cityNew withNewLights withLights new].

Ltac eval_abs :=
  repeat match goal with
         | |- context [Rabs ?a] =>
             first [ rewrite (Rabs_pos_eq a) by lra | rewrite (Rabs_left a) by lra ]
         end.

Lemma cityNew_lights :
  trafficLights cityNew
  = map (fun i => (Intersection.id i, TrafficLight.new i))
        (filter Intersection.hasTrafficLight createIntersections).
Proof.
  unfold cityNew, withNewLights, getTrafficLightIntersections.
  cbn [roadNetwork new trafficLights withLights].
  rewrite build_intersections.
  reflexivity.
Qed.

(** The horizontal group: five lights, three of them at [x = 0]. *)
Lemma city_mainH :
  map (fun e => (fst e, TrafficLight.getPosition (snd e)))
      (mainHIntersections cityNew)
  = [ ("intersection-0-1"%string, mkPoint (-80) 0);
      ("intersection-1-0"%string, mkPoint 0 (-80));
      ("intersection-1-1"%string, mkPoint 0 0);
      ("intersection-1-2"%string, mkPoint 0 80);
      ("intersection-2-1"%string, mkPoint 80 0) ].
Proof.
  unfold mainHIntersections. rewrite cityNew_lights.
  cbn -[sortBy]. eval_sort. reflexivity.
Qed.



Lemma city_verticalCalls :
  map target (verticalCalls cityHorizontal)
  = [ "intersection-1-0"%string; "intersection-1-1"%string;
      "intersection-1-2"%string ] /\
  map cumulative (verticalCalls cityHorizontal)
  = [ 13; 13 + 80 / 50; 13 + 80 / 50 + 80 / 50 ] /\
  map argument (verticalCalls cityHorizontal)
  = [ 13; 13 + 80 / 50; 13 + 80 / 50 + 80 / 50 ].
Proof.
  unfold verticalCalls, mainVIntersections, cityHorizontal, horizontalCalls,
    mainHIntersections.
  cbn [trafficLights withLights].
  rewrite cityNew_lights.
  cbn -[sortBy]. eval_sort. eval_wave.
  cbn -[sortBy]. eval_sort. eval_wave. eval_abs.
  split; [reflexivity|]. cbn [map cumulative argument].
  split.
  - repeat (f_equal; try lra).
  - rewrite !rem_small by lra. repeat (f_equal; try lra).
Qed.






(** *** The lights of the synchronised city *)

Lemma get_modify {V : Type} (key k : string) (f : V -> V) (m : Map.t V) :
  Map.get key (Map.modify k f m)
  = if String.eqb k key then option_map f (Map.get key m) else Map.get key m.
Proof.
  induction m as [|[k0 v] m IH]; simpl.
  - destruct (String.eqb k key); reflexivity.
  - destruct (String.eqb k0 k) eqn:E1, (String.eqb k key) eqn:E2,
      (String.eqb k0 key) eqn:E3; simpl; rewrite ?E3; try reflexivity;
      try (rewrite IH; reflexivity);
      exfalso;
      repeat match goal with
             | H : String.eqb _ _ = true |- _ => apply String.eqb_eq in H
             | H : String.eqb _ _ = false |- _ => apply String.eqb_neq in H
             end; congruence.
Qed.

Lemma get_applyCalls (key : string) (calls : list OffsetCall)
    (m : Map.t TrafficLight.t) :
  Map.get key (applyCalls calls m) = option_map (callsFor key calls) (Map.get key m).
Proof.
  unfold applyCalls, callsFor. revert m.
  induction calls as [|c calls IH]; intros m; cbn [fold_left].
  - destruct (Map.get key m); reflexivity.
  - rewrite IH, get_modify.
    destruct (String.eqb (target c) key); [|reflexivity].
    destruct (Map.get key m); reflexivity.
Qed.

Lemma modify_positions (k : string) (offset : R) (m : Map.t TrafficLight.t) :
  map (fun e => (fst e, TrafficLight.getPosition (snd e)))
      (Map.modify k (TrafficLight.setPhaseOffset offset) m)
  = map (fun e => (fst e, TrafficLight.getPosition (snd e))) m.
Proof.
  induction m as [|[k0 v] m IH]; simpl; [reflexivity|].
  destruct (String.eqb k0 k); simpl.
  - unfold TrafficLight.getPosition. rewrite setPhaseOffset_intersection.
    reflexivity.
  - rewrite IH. reflexivity.
Qed.

Lemma applyCalls_positions (calls : list OffsetCall) (m : Map.t TrafficLight.t) :
  map (fun e => (fst e, TrafficLight.getPosition (snd e))) (applyCalls calls m)
  = map (fun e => (fst e, TrafficLight.getPosition (snd e))) m.
Proof.
  unfold applyCalls. revert m.
  induction calls as [|c calls IH]; intros m; cbn [fold_left]; [reflexivity|].
  rewrite IH. apply modify_positions.
Qed.

Lemma city_unfold :
  trafficLights city
  = applyCalls (verticalCalls cityHorizontal)
      (applyCalls (horizontalCalls cityNew) (trafficLights cityNew)).
Proof. reflexivity. Qed.

(** The lights of the city, by id and position, in the order of the map. *)
Lemma city_positions :
  map (fun e => (fst e, TrafficLight.getPosition (snd e))) (trafficLights city)
  = map (fun i => (Intersection.id i, Intersection.position i))
        (filter Intersection.hasTrafficLight createIntersections).
Proof.
  rewrite city_unfold, !applyCalls_positions, cityNew_lights.
  rewrite map_map. reflexivity.
Qed.

Lemma city_horizontal_first :
  exists c1 c2 c3 c4,
    horizontalCalls cityNew
    = [ mkOffsetCall "intersection-0-1" 0 0; c1; c2; c3; c4 ] /\
    target c1 = "intersection-1-0"%string /\
    target c2 = "intersection-1-1"%string /\
    target c3 = "intersection-1-2"%string /\
    target c4 = "intersection-2-1"%string.
Proof.
  pose proof city_mainH as HG.
  pose proof (wave_targets cityNew lightX 0 (mainHIntersections cityNew)) as HT.
  unfold horizontalCalls.
  destruct (mainHIntersections cityNew) as [|e0 [|e1 [|e2 [|e3 [|e4 [|]]]]]];
    try discriminate.
  cbn [map] in HG. injection HG as I0 _ I1 _ I2 _ I3 _ I4 _.
  cbn [wave waveFrom]. rewrite I0.
  do 4 eexists. split; [reflexivity|]. cbn [target]. auto.
Qed.

(** The light of [intersection-0-1] at (-80,0) starts the horizontal wave:
    it is in phase 0, north-south green and east-west red. *)
Lemma city_light_0_1 :
  exists l,
    Map.get "intersection-0-1" (trafficLights city) = Some l /\
    TrafficLight.getPosition l = mkPoint (-80) 0 /\
    TrafficLight.getIntersectionId l = "intersection-0-1"%string /\
    TrafficLight.reading l = (0%nat, 0).
Proof.
  rewrite city_unfold, !get_applyCalls, cityNew_lights.
  destruct city_horizontal_first as (c1 & c2 & c3 & c4 & -> & T1 & T2 & T3 & T4).
  destruct city_verticalCalls as (TV & _ & _).
  destruct (verticalCalls cityHorizontal) as [|v0 [|v1 [|v2 [|]]]]; try discriminate.
  cbn [map] in TV. injection TV as V0 V1 V2.
  cbn -[callsFor]. unfold callsFor. cbn [fold_left target argument].
  rewrite T1, T2, T3, T4, V0, V1, V2. cbn [String.eqb Ascii.eqb Bool.eqb].
  eexists. split; [reflexivity|].
  unfold TrafficLight.getPosition, TrafficLight.getIntersectionId.
  rewrite setPhaseOffset_intersection.
  split; [reflexivity|]. split; [reflexivity|].
  unfold TrafficLight.setPhaseOffset.
  rewrite TrafficLightFacts.total_cycle, rem_small by lra.
  cbn. js_cmp. reflexivity.
Qed.







(** *** Stop queries *)

Lemma sqrt_gt (c u : R) : 0 <= c -> c * c < u -> c < sqrt u.
Proof.
  intros Hc Hu. rewrite <- (sqrt_square c) at 1 by assumption.
  apply sqrt_lt_1_alt. split; [nra | assumption].
Qed.

(** A light beyond the lookahead distance leaves the search as it is. *)
Lemma considerLight_far position heading checkDistance nearest light :
  checkDistance < separation position (TrafficLight.getPosition light) ->
  considerLight position heading checkDistance nearest light = Some nearest.
Proof.
  intros H. unfold considerLight. cbn [x z].
  fold (separation position (TrafficLight.getPosition light)).
  rewrite gt_true by assumption. reflexivity.
Qed.

Lemma scanLights_far position heading checkDistance nearest lights :
  Forall (fun l => checkDistance
                   < separation position (TrafficLight.getPosition l)) lights ->
  scanLights position heading checkDistance nearest lights = Some nearest.
Proof.
  induction 1 as [|l lights Hl _ IH]; cbn [scanLights]; [reflexivity|].
  rewrite considerLight_far by assumption. exact IH.
Qed.

Lemma scanLights_app position heading checkDistance nearest l1 l2 :
  scanLights position heading checkDistance nearest (l1 ++ l2)
  = match scanLights position heading checkDistance nearest l1 with
    | Some nearest' => scanLights position heading checkDistance nearest' l2
    | None => None
    end.
Proof.
  revert nearest. induction l1 as [|l l1 IH]; intros nearest; cbn; [reflexivity|].
  destruct (considerLight _ _ _ _ _); [apply IH | reflexivity].
Qed.

Lemma get_app_fresh {V : Type} (key : string) (v : V) (pre post : Map.t V) :
  ~ In key (map fst pre) ->
  Map.get key (pre ++ (key, v) :: post) = Some v.
Proof.
  induction pre as [|[k w] pre IH]; intros Hn; cbn.
  - rewrite String.eqb_refl. reflexivity.
  - destruct (String.eqb_spec k key) as [->|_].
    + exfalso. apply Hn. left. reflexivity.
    + apply IH. intros Hin. apply Hn. right. exact Hin.
Qed.

(** When one light only is within the lookahead distance, the answer is the
    one that light gives. *)
Lemma shouldStop_only_near (m : t) position heading checkDistance
    (key : string) (L : TrafficLight.t) (r : StopResult.t) (d : R)
    (pre post : list (string * Point)) :
  map (fun e => (fst e, TrafficLight.getPosition (snd e))) (trafficLights m)
  = pre ++ (key, TrafficLight.getPosition L) :: post ->
  Map.get key (trafficLights m) = Some L ->
  ~ In key (map fst pre) ->
  Forall (fun kp => checkDistance < separation position (snd kp)) pre ->
  Forall (fun kp => checkDistance < separation position (snd kp)) post ->
  considerLight position heading checkDistance (None, JS.Infinity) L
  = Some (Some r, JS.Fin d) ->
  shouldStop m position heading checkDistance = Some r.
Proof.
  intros Hmap Hget Hfresh Hpre Hpost HL.
  apply map_eq_app in Hmap. destruct Hmap as (pre' & tl & Hm & Hpre' & Htl).
  apply map_eq_cons in Htl. destruct Htl as (e & post' & -> & He & Hpost').
  injection He as Hk Hp.
  assert (HeL : snd e = L).
  { rewrite Hm in Hget. destruct e as [k v]. cbn in Hk. subst k.
    rewrite get_app_fresh in Hget.
    - injection Hget as ->. reflexivity.
    - rewrite <- Hpre' in Hfresh. rewrite map_map in Hfresh. exact Hfresh. }
  assert (Hfar : forall (l : list (string * TrafficLight.t)) kps,
             map (fun e => (fst e, TrafficLight.getPosition (snd e))) l = kps ->
             Forall (fun kp => checkDistance < separation position (snd kp)) kps ->
             Forall (fun l => checkDistance
                              < separation position (TrafficLight.getPosition l))
                    (map snd l)).
  { intros l kps <- H. rewrite Forall_map in H. rewrite Forall_map.
    exact H. }
  unfold shouldStop, Map.values. rewrite Hm, map_app. cbn [map].
  rewrite scanLights_app, (scanLights_far _ _ _ _ _ (Hfar _ _ Hpre' Hpre)).
  cbn [scanLights]. rewrite HeL, HL.
  rewrite (scanLights_far _ _ _ _ _ (Hfar _ _ Hpost' Hpost)).
  reflexivity.
Qed.

(** A vehicle [d] units west of a light, heading east at it, while
    east-west is red: the light is a stop candidate at distance [d], and the
    stop position it reports is 8 units east of the centre. *)
Lemma considerLight_from_west (L : TrafficLight.t) (lx lz d checkDistance : R) :
  TrafficLight.getPosition L = mkPoint lx lz ->
  TrafficLight.getState west L = Some red ->
  2 <= d <= checkDistance ->
  considerLight (mkPoint (lx - d) lz) (PI / 2) checkDistance (None, JS.Infinity) L
  = Some (Some (StopResult.mk true (JS.Fin d)
                  (Some (TrafficLight.getIntersectionId L)) (Some red)
                  (Some (mkPoint (lx + 8) lz))),
          JS.Fin d).
Proof.
  intros Hpos Hstate Hcd. unfold considerLight. rewrite Hpos. cbn [x z].
  replace ((lx - (lx - d)) * (lx - (lx - d)) + (lz - lz) * (lz - lz))
    with (d * d) by ring.
  rewrite sqrt_square by lra.
  rewrite gt_false, lt_false by lra. cbn [orb].
  rewrite sin_PI2, cos_PI2. rewrite lt_false by nra.
  unfold getApproachDirection. cbn [x z].
  replace (lx - (lx - d)) with d by ring. replace (lz - lz) with 0 by ring.
  rewrite Rabs_R0, (Rabs_pos_eq d) by lra.
  rewrite !gt_true by lra. rewrite Hstate.
  cbn [JS.lt_num snd getStopPosition x z]. reflexivity.
Qed.

(** The same from the south, heading north, while north-south is red: the
    stop position reported is where the vehicle stands, 8 units before the
    centre. *)
Lemma considerLight_from_south (L : TrafficLight.t) (lx lz checkDistance : R) :
  TrafficLight.getPosition L = mkPoint lx lz ->
  TrafficLight.getState south L = Some red ->
  8 <= checkDistance ->
  considerLight (mkPoint lx (lz - 8)) 0 checkDistance (None, JS.Infinity) L
  = Some (Some (StopResult.mk true (JS.Fin 8)
                  (Some (TrafficLight.getIntersectionId L)) (Some red)
                  (Some (mkPoint lx (lz - 8)))),
          JS.Fin 8).
Proof.
  intros Hpos Hstate Hcd. unfold considerLight. rewrite Hpos. cbn [x z].
  replace ((lx - lx) * (lx - lx) + (lz - (lz - 8)) * (lz - (lz - 8)))
    with (8 * 8) by ring.
  rewrite sqrt_square by lra.
  rewrite gt_false, lt_false by lra. cbn [orb].
  rewrite sin_0, cos_0. rewrite lt_false by lra.
  unfold getApproachDirection. cbn [x z].
  replace (lz - (lz - 8)) with 8 by ring. replace (lx - lx) with 0 by ring.
  rewrite Rabs_R0, (Rabs_pos_eq 8) by lra.
  rewrite gt_false, gt_true by lra. rewrite Hstate.
  cbn [JS.lt_num snd getStopPosition x z]. reflexivity.
Qed.

Ltac far_lights :=
  repeat (apply Forall_cons || apply Forall_nil);
  cbn [snd]; unfold separation; cbn [x z]; apply sqrt_gt; nra.

(** In the city as it is synchronised, a vehicle [d] units before the centre
    of [intersection-0-1] on its western approach, heading east. *)
Lemma shouldStop_city_from_west (d : R) :
  2 <= d <= 25 ->
  shouldStop city (mkPoint (-80 - d) 0) (PI / 2) 25
  = Some (StopResult.mk true (JS.Fin d) (Some "intersection-0-1"%string)
            (Some red) (Some (mkPoint (-80 + 8) 0))).
Proof.
  intros Hd.
  destruct city_light_0_1 as (L & Hget & Hpos & Hid & Hread).
  assert (Hstate : TrafficLight.getState west L = Some red).
  { unfold TrafficLight.getState. injection Hread as -> _. reflexivity. }
  pose proof (considerLight_from_west L (-80) 0 d 25 Hpos Hstate Hd) as HL.
  rewrite Hid in HL.
  apply (shouldStop_only_near city _ _ _ "intersection-0-1" L _ d
           [ ("intersection-0-0"%string, mkPoint (-80) (-80)) ]
           (skipn 2 (map (fun i => (Intersection.id i, Intersection.position i))
                         (filter Intersection.hasTrafficLight createIntersections))));
    try assumption.
  - rewrite city_positions, Hpos. reflexivity.
  - cbn. intros [H|[]]. discriminate.
  - far_lights.
  - cbn. far_lights.
Qed.

(** The light of [intersection-1-0] at (0,-80) starts the vertical wave with
    offset 13: it is in phase 3, north-south red and east-west green. *)
Lemma city_light_1_0 :
  exists l,
    Map.get "intersection-1-0" (trafficLights city) = Some l /\
    TrafficLight.getPosition l = mkPoint 0 (-80) /\
    TrafficLight.getIntersectionId l = "intersection-1-0"%string /\
    TrafficLight.currentPhaseIndex l = 3%nat.
Proof.
  rewrite city_unfold, !get_applyCalls, cityNew_lights.
  destruct city_horizontal_first as (c1 & c2 & c3 & c4 & -> & T1 & T2 & T3 & T4).
  destruct city_verticalCalls as (TV & _ & AV).
  destruct (verticalCalls cityHorizontal) as [|v0 [|v1 [|v2 [|]]]]; try discriminate.
  cbn [map] in TV, AV. injection TV as V0 V1 V2. injection AV as A0 _ _.
  cbn -[callsFor]. unfold callsFor. cbn [fold_left target argument].
  rewrite T1, T2, T3, T4, V0, V1, V2, A0. cbn [String.eqb Ascii.eqb Bool.eqb].
  eexists. split; [reflexivity|].
  unfold TrafficLight.getPosition, TrafficLight.getIntersectionId.
  rewrite !setPhaseOffset_intersection.
  split; [reflexivity|]. split; [reflexivity|].
  unfold TrafficLight.setPhaseOffset at 1.
  rewrite TrafficLightFacts.total_cycle, rem_small by lra.
  cbn. js_cmp. reflexivity.
Qed.

(** On the southern approach of that light the stop position is the point
    8 units before the centre, where the vehicle stands. *)
Lemma shouldStop_city_from_south :
  shouldStop city (mkPoint 0 (-80 - 8)) 0 25
  = Some (StopResult.mk true (JS.Fin 8) (Some "intersection-1-0"%string)
            (Some red) (Some (mkPoint 0 (-80 - 8)))).
Proof.
  destruct city_light_1_0 as (L & Hget & Hpos & Hid & Hidx).
  assert (Hstate : TrafficLight.getState south L = Some red).
  { unfold TrafficLight.getState. rewrite Hidx. reflexivity. }
  pose proof (considerLight_from_south L 0 (-80) 25 Hpos Hstate ltac:(lra)) as HL.
  rewrite Hid in HL.
  apply (shouldStop_only_near city _ _ _ "intersection-1-0" L _ 8
           (firstn 3 (map (fun i => (Intersection.id i, Intersection.position i))
                          (filter Intersection.hasTrafficLight createIntersections)))
           (skipn 4 (map (fun i => (Intersection.id i, Intersection.position i))
                         (filter Intersection.hasTrafficLight createIntersections))));
    try assumption.
  - rewrite city_positions, Hpos. reflexivity.
  - cbn. intros [H|[H|[H|[]]]]; discriminate.
  - cbn. far_lights.
  - cbn. far_lights.
Qed.

(** C2, at the failing input.  In the city as it is synchronised the light
    of [intersection-0-1] at (-80,0) shows red to east-west traffic.  A
    vehicle at (-88,0), 8 units before the centre on the western approach
    and heading east at the light, asks with lookahead 25: the answer is to
    stop, at distance 8, but the stop position is (-72,0), 8 units beyond
    the centre, not the point 8 units before it where the vehicle stands. *)
Theorem shouldStop_reports_stop_beyond_center :
  shouldStop city (mkPoint (-88) 0) (PI / 2) 25
  = Some (StopResult.mk true (JS.Fin 8) (Some "intersection-0-1"%string)
            (Some red) (Some (mkPoint (-72) 0))) /\
  mkPoint (-72) 0 <> mkPoint (-88) 0.
Proof.
  split; [|intros H; injection H as H; lra].
  replace (-88) with (-80 - 8) by lra. replace (-72) with (-80 + 8) by lra.
  apply shouldStop_city_from_west. lra.
Qed.

(** *** Lights of a manager built on any road network *)

Lemma get_In {V : Type} (key : string) (v : V) (m : Map.t V) :
  Map.get key m = Some v -> In (key, v) m.
Proof.
  induction m as [|[k w] m IH]; cbn; [discriminate|].
  destruct (String.eqb k key) eqn:E.
  - intros H. injection H as ->. apply String.eqb_eq in E. subst k. left; reflexivity.
  - intros H. right. apply IH, H.
Qed.

Lemma set_Forall {V : Type} (P : string * V -> Prop) (key : string) (v : V)
    (m : Map.t V) :
  P (key, v) -> (forall k w, P (k, w) -> String.eqb k key = true -> P (k, v)) ->
  Forall P m -> Forall P (Map.set key v m).
Proof.
  intros Hv Hk H. induction H as [|[k w] m Hw H IH]; cbn.
  - constructor; [assumption | constructor].
  - destruct (String.eqb k key) eqn:E.
    + constructor; [|assumption]. apply (Hk k w Hw E).
    + constructor; assumption.
Qed.

Lemma modify_Forall {V : Type} (P : string * V -> Prop) (key : string)
    (f : V -> V) (m : Map.t V) :
  (forall k w, P (k, w) -> P (k, f w)) ->
  Forall P m -> Forall P (Map.modify key f m).
Proof.
  intros Hf H. induction H as [|[k w] m Hw H IH]; cbn.
  - constructor.
  - destruct (String.eqb k key); constructor; auto.
Qed.

Lemma applyCalls_Forall (P : string * TrafficLight.t -> Prop)
    (calls : list OffsetCall) :
  (forall c k w, In c calls -> P (k, w) ->
                 P (k, TrafficLight.setPhaseOffset (argument c) w)) ->
  forall m, Forall P m -> Forall P (applyCalls calls m).
Proof.
  unfold applyCalls. induction calls as [|c calls IH]; intros Hf m H;
    cbn [fold_left]; [assumption|].
  apply IH.
  - intros c' k w Hin. apply Hf. right; assumption.
  - apply modify_Forall; [|assumption].
    intros k w. apply Hf. left; reflexivity.
Qed.

Lemma waveFrom_arguments (m : t) coord :
  0 < greenWaveSpeed m -> 0 < baseCycleTime m ->
  forall group prev cumulativeOffset c,
    0 <= cumulativeOffset ->
    In c (waveFrom m coord prev cumulativeOffset group) -> 0 <= argument c.
Proof.
  intros Hs Hb. induction group as [|e group IH];
    intros prev cumulativeOffset c H0 Hin; cbn in Hin; [contradiction|].
  assert (H1 : 0 <= cumulativeOffset + Rabs (coord e - coord prev) / greenWaveSpeed m).
  { pose proof (Rabs_pos (coord e - coord prev)).
    assert (0 <= Rabs (coord e - coord prev) / greenWaveSpeed m).
    { apply Rmult_le_pos; [assumption | left; apply Rinv_0_lt_compat; assumption]. }
    lra. }
  destruct Hin as [<-|Hin].
  - cbn. apply rem_range; assumption.
  - apply (IH _ _ _ H1 Hin).
Qed.

Lemma wave_arguments (m : t) coord (start : R) group c :
  0 < greenWaveSpeed m -> 0 < baseCycleTime m -> 0 <= start ->
  In c (wave m coord start group) -> 0 <= argument c.
Proof.
  intros Hs Hb H0 Hin. destruct group as [|e group]; cbn in Hin; [contradiction|].
  destruct Hin as [<-|Hin]; [exact H0|].
  apply (waveFrom_arguments m coord Hs Hb _ _ _ _ H0 Hin).
Qed.

(** A light is filed under the id of its own intersection, a signaled one
    of the network, and is in a state the coordinator can reach. *)
Lemma created_lights (net : CityRoadNetwork.t) :
  Forall (fun e : string * TrafficLight.t =>
            TrafficLight.getIntersectionId (snd e) = fst e /\
            In (TrafficLight.intersection (snd e))
               (getTrafficLightIntersections net) /\
            TrafficLight.running (snd e))
         (trafficLights (createTrafficLights (new net))).
Proof.
  set (P := fun e : string * TrafficLight.t =>
              TrafficLight.getIntersectionId (snd e) = fst e /\
              In (TrafficLight.intersection (snd e))
                 (getTrafficLightIntersections net) /\
              TrafficLight.running (snd e)).
  assert (Hoff : forall offset k w, 0 <= offset -> P (k, w) ->
                                    P (k, TrafficLight.setPhaseOffset offset w)).
  { intros offset k w H0 (Hid & Hin & Hrun). unfold P in *. cbn [fst snd] in *.
    unfold TrafficLight.getIntersectionId in *.
    rewrite setPhaseOffset_intersection.
    split; [assumption|]. split; [assumption|].
    apply TrafficLight.run_offset; assumption. }
  assert (Hnew : Forall P (trafficLights (withNewLights (new net)))).
  { unfold withNewLights. cbn [trafficLights withLights roadNetwork new].
    assert (G : forall l m,
               (forall i, In i l -> In i (getTrafficLightIntersections net)) ->
               Forall P m ->
               Forall P (fold_left
                           (fun lights i =>
                              Map.set (Intersection.id i) (TrafficLight.new i) lights)
                           l m)).
    { induction l as [|i l IH]; intros m Hl Hm; cbn [fold_left]; [assumption|].
      apply IH; [intros j Hj; apply Hl; right; assumption|].
      apply set_Forall; [ | | assumption].
      - unfold P. cbn. split; [reflexivity|].
        split; [apply Hl; left; reflexivity | apply TrafficLight.run_new].
      - intros k w _ E. apply String.eqb_eq in E. subst k.
        unfold P. cbn. split; [reflexivity|].
        split; [apply Hl; left; reflexivity | apply TrafficLight.run_new]. }
    apply G; [auto | constructor]. }
  unfold createTrafficLights, applyGreenWave.
  cbn [trafficLights withLights].
  apply applyCalls_Forall.
  - intros c k w Hin. apply Hoff.
    unfold verticalCalls in Hin.
    apply (wave_arguments _ _ _ _ _) in Hin; [assumption| | |];
      cbn [greenWaveSpeed baseCycleTime withLights withNewLights new]; lra.
  - apply applyCalls_Forall; [|assumption].
    intros c k w Hin. apply Hoff.
    unfold horizontalCalls in Hin.
    apply (wave_arguments _ _ _ _ _) in Hin; [assumption| | |];
      cbn [greenWaveSpeed baseCycleTime withLights withNewLights new]; lra.
Qed.

Lemma modify_keeps_key {V : Type} (key k : string) (f : V -> V) (m : Map.t V) :
  (exists w, Map.get key m = Some w) ->
  exists w, Map.get key (Map.modify k f m) = Some w.
Proof.
  intros [w Hw]. rewrite get_modify, Hw.
  destruct (String.eqb k key); cbn; eauto.
Qed.

(** X12.  On any road network, [createTrafficLights] gives every signaled
    intersection a light that [getLight] finds under the intersection's
    id, and every light it files is filed under the id of its own
    intersection, which is a signaled one of the network, in a state with
    a valid phase index. *)
Theorem createTrafficLights_covers_signaled (net : CityRoadNetwork.t) :
  (forall i, In i (CityRoadNetwork.intersections net) ->
     Intersection.hasTrafficLight i = true ->
     exists light,
       getLight (createTrafficLights (new net)) (Intersection.id i) = Some light /\
       TrafficLight.getIntersectionId light = Intersection.id i) /\
  (forall key light,
     getLight (createTrafficLights (new net)) key = Some light ->
     TrafficLight.getIntersectionId light = key /\
     In (TrafficLight.intersection light) (CityRoadNetwork.intersections net) /\
     Intersection.hasTrafficLight (TrafficLight.intersection light) = true /\
     (TrafficLight.currentPhaseIndex light < 6)%nat).
Proof.
  pose proof (created_lights net) as Hall.
  rewrite Forall_forall in Hall.
  assert (Hget : forall key light,
             getLight (createTrafficLights (new net)) key = Some light ->
             TrafficLight.getIntersectionId light = key /\
             In (TrafficLight.intersection light)
                (getTrafficLightIntersections net) /\
             TrafficLight.running light).
  { intros key light H. apply get_In in H. exact (Hall _ H). }
  split.
  - intros i Hi Hsig.
    assert (Hex : exists light,
               getLight (createTrafficLights (new net)) (Intersection.id i)
               = Some light).
    { unfold getLight, createTrafficLights, applyGreenWave.
      cbn [trafficLights withLights].
      assert (A : forall calls m,
                 (exists w, Map.get (Intersection.id i) m = Some w) ->
                 exists w, Map.get (Intersection.id i) (applyCalls calls m) = Some w).
      { unfold applyCalls. induction calls as [|c calls IH]; intros m H;
          cbn [fold_left]; [assumption|].
        apply IH, modify_keeps_key, H. }
      apply A, A. unfold withNewLights. cbn [trafficLights withLights roadNetwork new].
      assert (Hin : In i (getTrafficLightIntersections net)).
      { unfold getTrafficLightIntersections. apply filter_In. split; assumption. }
      revert Hin. generalize (getTrafficLightIntersections net).
      generalize (@Map.empty TrafficLight.t).
      intros m l. revert m. induction l as [|j l IH]; intros m Hin; [contradiction|].
      cbn [fold_left]. destruct Hin as [->|Hin]; [|apply IH, Hin].
      assert (K : forall l m,
                 (exists w, Map.get (Intersection.id i) m = Some w) ->
                 exists w,
                   Map.get (Intersection.id i)
                     (fold_left
                        (fun lights i0 =>
                           Map.set (Intersection.id i0) (TrafficLight.new i0) lights)
                        l m) = Some w).
      { clear. induction l as [|j l IH]; intros m H; cbn [fold_left]; [assumption|].
        apply IH, get_set_keeps, H. }
      apply K. eexists. apply get_set_same. }
    destruct Hex as [light Hl]. exists light. split; [assumption|].
    exact (proj1 (Hget _ _ Hl)).
  - intros key light H. destruct (Hget _ _ H) as (Hid & Hin & Hrun).
    unfold getTrafficLightIntersections in Hin. apply filter_In in Hin.
    destruct Hin as [Hin Hsig].
    repeat (split; [assumption|]).
    apply TrafficLightFacts.running_index, Hrun.
Qed.

(** *** Frames *)

Lemma updateLights_keeps (delta : R) (lights : Map.t TrafficLight.t) :
  Forall (fun e => (TrafficLight.currentPhaseIndex (snd e) < 6)%nat) lights ->
  exists lights',
    updateLights delta lights = Some lights' /\
    map (fun e => (fst e, TrafficLight.intersection (snd e))) lights'
    = map (fun e => (fst e, TrafficLight.intersection (snd e))) lights /\
    Forall (fun e => (TrafficLight.currentPhaseIndex (snd e) < 6)%nat) lights' /\
    (0 <= delta ->
     Forall (fun e => TrafficLight.running (snd e)) lights ->
     Forall (fun e => TrafficLight.running (snd e)) lights').
Proof.
  induction 1 as [|[k light] lights Hi H IH]; cbn [updateLights].
  - exists []. repeat split; auto.
  - destruct (TrafficLightFacts.update_defined delta light Hi) as [light' Hu].
    destruct IH as (lights' & -> & Hkeys & Hidx & Hrun).
    rewrite Hu. exists ((k, light') :: lights').
    split; [reflexivity|]. split; [|split].
    + cbn [map fst snd]. rewrite Hkeys. f_equal. f_equal.
      unfold TrafficLight.update in Hu.
      destruct (nth_error _ _); [|discriminate].
      destruct (JS.ge _ _); injection Hu as <-; reflexivity.
    + constructor; [|assumption].
      exact (TrafficLightFacts.update_index delta light light' Hu Hi).
    + intros H0 Hr. inversion Hr as [|e r Hr1 Hr2]; subst.
      constructor; [|apply Hrun; assumption].
      exact (TrafficLight.run_update light light' delta Hr1 H0 Hu).
Qed.

(** X13.  A manager all of whose lights have a valid phase index can be
    ticked frame after frame, with any time steps, without ever throwing:
    the map keeps its keys, their order and the intersection of each light,
    and the indices stay valid.  With non-negative steps, lights that were
    in a state the coordinator can reach stay in such a state. *)
Theorem updates_never_throw (deltas : list R) (m : t) :
  Forall (fun e => (TrafficLight.currentPhaseIndex (snd e) < 6)%nat)
         (trafficLights m) ->
  exists m',
    updates deltas m = Some m' /\
    roadNetwork m' = roadNetwork m /\
    map (fun e => (fst e, TrafficLight.intersection (snd e))) (trafficLights m')
    = map (fun e => (fst e, TrafficLight.intersection (snd e))) (trafficLights m) /\
    Forall (fun e => (TrafficLight.currentPhaseIndex (snd e) < 6)%nat)
           (trafficLights m') /\
    (Forall (fun delta => 0 <= delta) deltas ->
     Forall (fun e => TrafficLight.running (snd e)) (trafficLights m) ->
     Forall (fun e => TrafficLight.running (snd e)) (trafficLights m')).
Proof.
  revert m. induction deltas as [|delta deltas IH]; intros m Hm; cbn [updates].
  - exists m. repeat split; auto.
  - destruct (updateLights_keeps delta _ Hm) as (lights' & Hu & Hkeys & Hidx & Hrun).
    unfold update. rewrite Hu. cbn [option_map].
    destruct (IH (withLights m lights') Hidx) as (m' & Hm' & Hnet & Hk' & Hi' & Hr').
    exists m'. split; [assumption|]. split; [exact Hnet|].
    split; [rewrite Hk'; exact Hkeys|]. split; [assumption|].
    intros Hd Hr. inversion Hd as [|d ds Hd1 Hd2]; subst.
    apply Hr'; [assumption|]. apply Hrun; assumption.
Qed.

Lemma created_lights_index (net : CityRoadNetwork.t) :
  Forall (fun e => (TrafficLight.currentPhaseIndex (snd e) < 6)%nat)
         (trafficLights (createTrafficLights (new net))).
Proof.
  eapply Forall_impl; [|apply created_lights].
  intros e (_ & _ & Hrun). apply TrafficLightFacts.running_index, Hrun.
Qed.

Lemma updates_never_throw_witness :
  exists m', updates [0.5; 12; 0.016] city = Some m'.
Proof.
  destruct (updates_never_throw [0.5; 12; 0.016] city
              (created_lights_index CityRoadNetwork.build))
    as (m' & H & _).
  exists m'. exact H.
Defined.

(** *** The nearest light that demands a stop *)

Lemma nearestStop_skip position heading checkDistance seen nearest light :
  ~ demandsStop position heading checkDistance light ->
  nearestStop position heading checkDistance seen nearest ->
  nearestStop position heading checkDistance (seen ++ [light]) nearest.
Proof.
  intros Hno H. destruct nearest as [[r|] [d|]]; cbn in *; try contradiction.
  - destruct H as (l0 & a & Hin & Hd & Hs & Hr & Hdist & Hmin).
    exists l0, a. repeat (split; [first [assumption | apply in_or_app; left; assumption]|]).
    intros other Ho Hdo. apply in_app_or in Ho. destruct Ho as [Ho|[<-|[]]].
    + apply Hmin; assumption.
    + contradiction.
  - intros l0 Hl0. apply in_app_or in Hl0. destruct Hl0 as [Hl0|[<-|[]]].
    + apply H, Hl0.
    + assumption.
Qed.

Lemma considerLight_nearest position heading checkDistance seen nearest light :
  (TrafficLight.currentPhaseIndex light < 6)%nat ->
  nearestStop position heading checkDistance seen nearest ->
  exists nearest',
    considerLight position heading checkDistance nearest light = Some nearest' /\
    nearestStop position heading checkDistance (seen ++ [light]) nearest'.
Proof.
  intros Hi Hinv. unfold considerLight. cbv zeta. cbn [x z].
  fold (separation position (TrafficLight.getPosition light)).
  set (d := separation position (TrafficLight.getPosition light)).
  set (dir := getApproachDirection position (TrafficLight.getPosition light) heading).
  destruct (Rlt_dec checkDistance d) as [Hfar|Hnear].
  { rewrite gt_true by assumption. cbn [orb]. eexists. split; [reflexivity|].
    apply nearestStop_skip; [|assumption].
    intros ((_ & H) & _). fold d in H. lra. }
  rewrite gt_false by lra.
  destruct (Rlt_dec d 2) as [Hclose|Hnot].
  { rewrite lt_true by assumption. cbn [orb]. eexists. split; [reflexivity|].
    apply nearestStop_skip; [|assumption].
    intros ((H & _) & _). fold d in H. lra. }
  rewrite lt_false by lra. cbn [orb].
  destruct (Rlt_dec
              ((x (TrafficLight.getPosition light) - x position) * sin heading
               + (z (TrafficLight.getPosition light) - z position) * cos heading) 0)
    as [Hbehind|Hahead].
  { rewrite lt_true by assumption. eexists. split; [reflexivity|].
    apply nearestStop_skip; [|assumption].
    intros (_ & H & _). lra. }
  rewrite lt_false by lra.
  assert (Hst : exists a, TrafficLight.getState dir light = Some a).
  { destruct (TrafficLightFacts.phase_in_range _ Hi) as [p Hp].
    unfold TrafficLight.getState. rewrite Hp. destruct dir; eauto. }
  destruct Hst as [a Ha]. rewrite Ha.
  assert (Hgreen : a = green ->
            nearestStop position heading checkDistance (seen ++ [light]) nearest).
  { intros ->. apply nearestStop_skip; [|assumption].
    intros (_ & _ & a' & Ha' & Hne). fold dir in Ha'. congruence. }
  assert (Hdem : a <> green -> demandsStop position heading checkDistance light).
  { intros Hne. split; [fold d; lra|]. split; [lra|]. exists a. split; assumption. }
  assert (Hstop :
            a <> green ->
            exists nearest',
              (if JS.lt_num d (snd nearest)
               then Some (Some (StopResult.mk true (JS.Fin d)
                                  (Some (TrafficLight.getIntersectionId light))
                                  (Some a)
                                  (Some (getStopPosition
                                           (TrafficLight.getPosition light) dir))),
                          JS.Fin d)
               else Some nearest) = Some nearest' /\
              nearestStop position heading checkDistance (seen ++ [light]) nearest').
  { intros Hne. specialize (Hdem Hne).
    destruct nearest as [[r|] [d0|]]; cbn in Hinv; try contradiction;
      cbn [snd JS.lt_num].
    - destruct Hinv as (l0 & a0 & Hin & Hd0 & Hs0 & Hr0 & Hdist & Hmin).
      destruct (Rlt_dec d d0) as [Hlt|Hge].
      + rewrite lt_true by assumption. eexists. split; [reflexivity|].
        cbn. exists light, a.
        split; [apply in_or_app; right; left; reflexivity|].
        repeat (split; [first [assumption | reflexivity]|]).
        intros other Ho Hdo. apply in_app_or in Ho. destruct Ho as [Ho|[<-|[]]].
        * specialize (Hmin other Ho Hdo). fold d. lra.
        * fold d. lra.
      + rewrite lt_false by lra. eexists. split; [reflexivity|].
        cbn. exists l0, a0.
        split; [apply in_or_app; left; assumption|].
        repeat (split; [assumption|]).
        intros other Ho Hdo. apply in_app_or in Ho. destruct Ho as [Ho|[<-|[]]].
        * apply Hmin; assumption.
        * fold d. lra.
    - eexists. split; [reflexivity|]. cbn. exists light, a.
      split; [apply in_or_app; right; left; reflexivity|].
      repeat (split; [first [assumption | reflexivity]|]).
      intros other Ho Hdo. apply in_app_or in Ho. destruct Ho as [Ho|[<-|[]]].
      * exfalso. exact (Hinv other Ho Hdo).
      * fold d. lra. }
  destruct a.
  - eexists. split; [reflexivity|]. apply Hgreen. reflexivity.
  - apply Hstop. discriminate.
  - apply Hstop. discriminate.
Qed.

Lemma scanLights_nearest position heading checkDistance lights :
  Forall (fun light => (TrafficLight.currentPhaseIndex light < 6)%nat) lights ->
  forall seen nearest,
    nearestStop position heading checkDistance seen nearest ->
    exists nearest',
      scanLights position heading checkDistance nearest lights = Some nearest' /\
      nearestStop position heading checkDistance (seen ++ lights) nearest'.
Proof.
  induction 1 as [|light lights Hi H IH]; intros seen nearest Hinv;
    cbn [scanLights].
  - exists nearest. rewrite app_nil_r. split; [reflexivity | assumption].
  - destruct (considerLight_nearest _ _ _ _ _ light Hi Hinv) as (n1 & -> & Hinv1).
    destruct (IH _ _ Hinv1) as (n2 & Hn2 & Hinv2).
    exists n2. split; [assumption|].
    rewrite <- app_assoc in Hinv2. exact Hinv2.
Qed.

(** X14.  When every light has a valid phase index, [shouldStop] does not
    throw.  It reports no stop exactly when no light demands one, a light
    demanding a stop being one between 2 and [checkDistance] away, not
    behind the vehicle and not green for the vehicle's approach.  Otherwise
    it reports one such light, with its distance, id, aspect and stop
    position, and no light that demands a stop is nearer. *)
Theorem shouldStop_reports_nearest (m : t) (position : Point)
    (heading checkDistance : R) :
  Forall (fun e => (TrafficLight.currentPhaseIndex (snd e) < 6)%nat)
         (trafficLights m) ->
  exists r,
    shouldStop m position heading checkDistance = Some r /\
    ((forall light, In light (getAllLights m) ->
        ~ demandsStop position heading checkDistance light) ->
     r = StopResult.mk false JS.Infinity None None None) /\
    ((exists light, In light (getAllLights m) /\
                    demandsStop position heading checkDistance light) ->
     exists light a,
       In light (getAllLights m) /\
       demandsStop position heading checkDistance light /\
       TrafficLight.getState
         (getApproachDirection position (TrafficLight.getPosition light) heading)
         light = Some a /\
       r = stopAt position heading light a /\
       forall other, In other (getAllLights m) ->
         demandsStop position heading checkDistance other ->
         separation position (TrafficLight.getPosition light)
         <= separation position (TrafficLight.getPosition other)).
Proof.
  intros Hidx.
  assert (Hv : Forall (fun light => (TrafficLight.currentPhaseIndex light < 6)%nat)
                      (getAllLights m)).
  { unfold getAllLights, Map.values. apply Forall_map. exact Hidx. }
  destruct (scanLights_nearest position heading checkDistance _ Hv []
              (None, JS.Infinity)) as (nearest & Hscan & Hinv).
  { intros light []. }
  cbn [app] in Hinv. unfold shouldStop. fold (getAllLights m). rewrite Hscan.
  destruct nearest as [[r|] [d|]]; cbn in Hinv; try contradiction.
  - destruct Hinv as (light & a & Hin & Hdem & Hst & -> & -> & Hmin).
    eexists. split; [reflexivity|]. split.
    + intros Hnone. exfalso. exact (Hnone light Hin Hdem).
    + intros _. exists light, a. repeat (split; [assumption || reflexivity|]).
      exact Hmin.
  - eexists. split; [reflexivity|]. split; [reflexivity|].
    intros (light & Hin & Hdem). exfalso. exact (Hinv light Hin Hdem).
Qed.

Lemma shouldStop_reports_nearest_witness :
  exists r, shouldStop city (mkPoint (-88) 0) (PI / 2) 25 = Some r.
Proof.
  destruct (shouldStop_reports_nearest city (mkPoint (-88) 0) (PI / 2) 25
              (created_lights_index CityRoadNetwork.build))
    as (r & H & _).
  exists r. exact H.
Defined.

(** *** The pedestrian signal *)

(** X15.  When every light has a valid phase index,
    [isPedestrianWalkSignal] does not throw.  Without lights it allows
    crossing; otherwise there is a light nearest to the crosswalk, and
    crossing is allowed exactly when that light is more than 20 away or
    shows red to all four directions. *)
Theorem isPedestrianWalkSignal_all_red (m : t) (crosswalkPosition : Point) :
  Forall (fun e => (TrafficLight.currentPhaseIndex (snd e) < 6)%nat)
         (trafficLights m) ->
  exists walk,
    isPedestrianWalkSignal m crosswalkPosition = Some walk /\
    (getAllLights m = [] -> walk = true) /\
    (getAllLights m <> [] ->
     exists light,
       In light (getAllLights m) /\
       (forall other, In other (getAllLights m) ->
          dist (TrafficLight.getPosition light) crosswalkPosition
          <= dist (TrafficLight.getPosition other) crosswalkPosition) /\
       (walk = true <->
        20 < dist (TrafficLight.getPosition light) crosswalkPosition \/
        forall d, TrafficLight.getState d light = Some red)).
Proof.
  intros Hidx.
  assert (Hv : Forall (fun light => (TrafficLight.currentPhaseIndex light < 6)%nat)
                      (getAllLights m)).
  { unfold getAllLights, Map.values. apply Forall_map. exact Hidx. }
  pose proof (fold_nearest
                (fun light => dist (TrafficLight.getPosition light) crosswalkPosition)
                (getAllLights m) [] (None, JS.Infinity) eq_refl) as H.
  cbn [app] in H. unfold getAllLights in H at 2.
  fold (nearestLight m crosswalkPosition) in H.
  unfold isPedestrianWalkSignal.
  destruct (nearestLight m crosswalkPosition) as [[light|] [d|]];
    cbn in H; try contradiction.
  - destruct H as (Hin & -> & Hmin).
    rewrite Forall_forall in Hv. specialize (Hv light Hin).
    set (d := dist (TrafficLight.getPosition light) crosswalkPosition) in *.
    destruct (Rlt_dec 20 d) as [Hfar|Hnear].
    + rewrite gt_true by assumption. exists true. split; [reflexivity|].
      split; [reflexivity|]. intros _. exists light.
      split; [assumption|]. split; [assumption|].
      split; [intros _; left; assumption | reflexivity].
    + rewrite gt_false by lra.
      destruct (TrafficLightFacts.phase_in_range _ Hv) as [p Hp]. rewrite Hp.
      eexists. split; [reflexivity|].
      split; [intros E; rewrite E in Hin; contradiction|].
      intros _. exists light. split; [assumption|]. split; [assumption|].
      split.
      * intros Hred. right. intros dir. unfold TrafficLight.getState. rewrite Hp.
        destruct (ns p), (ew p), dir; try discriminate; reflexivity.
      * intros [Hfar|Hred]; [exfalso; apply Hnear; exact Hfar|].
        pose proof (Hred north) as Hn. pose proof (Hred east) as He.
        unfold TrafficLight.getState in Hn, He. rewrite Hp in Hn, He.
        injection Hn as ->. injection He as ->. reflexivity.
  - exists true. split; [reflexivity|]. split; [reflexivity|].
    intros Hne. contradiction.
Qed.

Lemma isPedestrianWalkSignal_all_red_witness :
  exists walk, isPedestrianWalkSignal city (mkPoint 3 4) = Some walk.
Proof.
  destruct (isPedestrianWalkSignal_all_red city (mkPoint 3 4)
              (created_lights_index CityRoadNetwork.build))
    as (walk & H & _).
  exists walk. exact H.
Defined.

(** *** The stop line *)

(** X16.  The stop position lies 8 units from the centre of the
    intersection, on the axis along which the vehicle is farther away, and
    the vehicle's heading plays no part in it.  For a vehicle that is
    farther away along z it is on the vehicle's side of the centre; for a
    vehicle that is farther away along x it is on the opposite side. *)
Theorem stop_line_side_by_axis (vehiclePos intersectionPos : Point)
    (heading heading' : R) :
  let stop :=
    getStopPosition intersectionPos
      (getApproachDirection vehiclePos intersectionPos heading) in
  getApproachDirection vehiclePos intersectionPos heading
  = getApproachDirection vehiclePos intersectionPos heading' /\
  dist stop intersectionPos = 8 /\
  (Rabs (x intersectionPos - x vehiclePos)
   <= Rabs (z intersectionPos - z vehiclePos) ->
   x stop = x intersectionPos /\
   (z vehiclePos <> z intersectionPos ->
    0 < (z stop - z intersectionPos) * (z vehiclePos - z intersectionPos))) /\
  (Rabs (z intersectionPos - z vehiclePos)
   < Rabs (x intersectionPos - x vehiclePos) ->
   z stop = z intersectionPos /\
   (x stop - x intersectionPos) * (x vehiclePos - x intersectionPos) < 0).
Proof.
  cbv zeta. split; [reflexivity|].
  assert (H8 : forall a b, (a = 8 \/ a = -8) -> b = 0 -> sqrt (a ^ 2 + b ^ 2) = 8).
  { intros a b Ha ->. replace (a ^ 2 + 0 ^ 2) with (8 * 8) by (destruct Ha; subst; lra).
    apply sqrt_square. lra. }
  assert (H8' : forall a b, a = 0 -> (b = 8 \/ b = -8) -> sqrt (a ^ 2 + b ^ 2) = 8).
  { intros a b -> Hb. replace (0 ^ 2 + b ^ 2) with (8 * 8) by (destruct Hb; subst; lra).
    apply sqrt_square. lra. }
  unfold getApproachDirection. cbv zeta.
  set (dx := x intersectionPos - x vehiclePos).
  set (dz := z intersectionPos - z vehiclePos).
  destruct (Rlt_dec (Rabs dz) (Rabs dx)) as [Hx|Hz].
  - rewrite gt_true by assumption.
    assert (Hdx : dx <> 0).
    { intros E. rewrite E, Rabs_R0 in Hx. pose proof (Rabs_pos dz). lra. }
    destruct (Rlt_dec 0 dx) as [Hpos|Hneg].
    + rewrite gt_true by assumption. unfold getStopPosition, dist. cbn [x z].
      split; [apply H8; [left|]; lra|].
      split; [intros; lra|]. intros _. split; [reflexivity|].
      unfold dx in Hpos. nra.
    + rewrite gt_false by lra. unfold getStopPosition, dist. cbn [x z].
      split; [apply H8; [right|]; lra|].
      split; [intros; lra|]. intros _. split; [reflexivity|].
      unfold dx in Hneg, Hdx. nra.
  - rewrite gt_false by lra.
    destruct (Rlt_dec 0 dz) as [Hpos|Hneg].
    + rewrite gt_true by assumption. unfold getStopPosition, dist. cbn [x z].
      split; [apply H8'; [|right]; lra|].
      split; [|intros; lra]. intros _. split; [reflexivity|].
      intros _. unfold dz in Hpos. nra.
    + rewrite gt_false by lra. unfold getStopPosition, dist. cbn [x z].
      split; [apply H8'; [|left]; lra|].
      split; [|intros; lra]. intros _. split; [reflexivity|].
      intros Hne. unfold dz in Hneg. nra.
Qed.

Lemma stop_line_side_by_axis_witness :
  dist (getStopPosition (mkPoint (-80) 0)
          (getApproachDirection (mkPoint (-88) 0) (mkPoint (-80) 0) (PI / 2)))
       (mkPoint (-80) 0) = 8.
Proof.
  exact (proj1 (proj2 (stop_line_side_by_axis (mkPoint (-88) 0) (mkPoint (-80) 0)
                         (PI / 2) 0))).
Defined.

End TrafficManagerFacts.


(** ** The vehicle agents *)

Module NPCVehicleFacts.
Import NPCVehicle.

(** Splits the conditionals of a goal. *)
Ltac split_cases :=
  repeat match goal with
         | |- context [match ?c with _ => _ end] =>
             match type of c with
             | _ => destruct c eqn:?
             end
         end.

Lemma pickNextSegment_frame env rnd current v :
  state (pickNextSegment env rnd current v) = state v /\
  waitTimer (pickNextSegment env rnd current v) = waitTimer v /\
  stoppingDistance (pickNextSegment env rnd current v) = stoppingDistance v.
Proof. unfold pickNextSegment. split_cases; auto. Qed.

Lemma findNearestSegment_frame net rnd v :
  state (findNearestSegment net rnd v) = state v /\
  waitTimer (findNearestSegment net rnd v) = waitTimer v /\
  stoppingDistance (findNearestSegment net rnd v) = stoppingDistance v.
Proof. unfold findNearestSegment. split_cases; auto. Qed.

Lemma followSegment_frame env delta rnd v :
  state (followSegment env delta rnd v) = state v /\
  waitTimer (followSegment env delta rnd v) = waitTimer v /\
  stoppingDistance (followSegment env delta rnd v) = stoppingDistance v.
Proof.
  unfold followSegment.
  destruct (currentSegment v) as [seg|].
  - cbv zeta.
    destruct (JS.lt _ 3); [|auto].
    destruct (JS.ge _ 1); [|auto].
    match goal with
    | |- context [pickNextSegment ?e ?r ?c ?w] =>
        destruct (pickNextSegment_frame e r c w) as (-> & -> & ->)
    end. auto.
  - destruct (roadNetwork env) as [net|]; [|auto].
    apply findNearestSegment_frame.
Qed.

(** The movement, the visuals and the turn signals leave the behaviour
    state, the wait timer and the stopping distance as they are. *)
Lemma updateMovement_frame env delta rnd v :
  state (updateMovement env delta rnd v) = state v /\
  waitTimer (updateMovement env delta rnd v) = waitTimer v /\
  stoppingDistance (updateMovement env delta rnd v) = stoppingDistance v.
Proof.
  unfold updateMovement.
  destruct (followSegment_frame env delta rnd (controlSpeed delta v))
    as (Hs & Hw & Hd).
  set (w := followSegment env delta rnd (controlSpeed delta v)) in *.
  assert (Hk : state (keepInBounds delta w) = state w /\
               waitTimer (keepInBounds delta w) = waitTimer w /\
               stoppingDistance (keepInBounds delta w) = stoppingDistance w).
  { unfold keepInBounds. split_cases; auto. }
  destruct Hk as (Hs' & Hw' & Hd').
  set (k := keepInBounds delta w) in *.
  unfold moveForward. cbv zeta.
  split_cases; cbn; rewrite ?Hs', ?Hw', ?Hd', ?Hs, ?Hw, ?Hd; auto.
Qed.

Lemma updateVisuals_frame delta v :
  state (updateVisuals delta v) = state v /\
  waitTimer (updateVisuals delta v) = waitTimer v /\
  stoppingDistance (updateVisuals delta v) = stoppingDistance v.
Proof. unfold updateVisuals. cbv zeta. destruct (mesh _); auto. Qed.

Lemma updateTurnSignals_frame delta v :
  state (updateTurnSignals delta v) = state v /\
  waitTimer (updateTurnSignals delta v) = waitTimer v /\
  stoppingDistance (updateTurnSignals delta v) = stoppingDistance v.
Proof.
  unfold updateTurnSignals. cbv zeta.
  destruct (JS.gt _ 0.4); destruct (mesh _); auto.
Qed.

(** A vehicle that is stopping still is after it has looked for a vehicle
    ahead, at the same speed. *)
Lemma checkVehicleAhead_stopping allVehicles v :
  state v = stopping ->
  state (checkVehicleAhead allVehicles v) = stopping /\
  speed (checkVehicleAhead allVehicles v) = speed v /\
  stoppingDistance (checkVehicleAhead allVehicles v) = stoppingDistance v.
Proof.
  intros Hs. unfold checkVehicleAhead. cbv zeta.
  split_cases; cbn; auto.
Qed.

(** One tick of a vehicle that waits before a light which still demands a
    stop within 15 units: [checkTrafficLights] puts it back to [stopping],
    and [updateState] re-enters [waiting] with the wait timer at 0. *)
Lemma waiting_before_red_restarts env delta allVehicles rnd v manager result d :
  mesh v <> None ->
  state v = waiting ->
  speed v < 0.5 ->
  trafficManager env = Some manager ->
  TrafficManager.shouldStop manager (position v) (rotation v) 25 = Some result ->
  StopResult.shouldStop result = true ->
  StopResult.distance result = JS.Fin d ->
  d < 15 ->
  exists v',
    update env delta allVehicles rnd v = Some v' /\
    state v' = waiting /\ waitTimer v' = 0 /\ stoppingDistance v' = d - 5.
Proof.
  intros Hmesh Hstate Hspeed Hman Hstop Hshould Hdist Hd.
  unfold update. destruct (mesh v) as [m|] eqn:Em; [|contradiction].
  unfold checkTrafficLights. rewrite Hman, Hstop, Hshould, Hdist.
  cbn [JS.num_lt andb]. rewrite lt_true by assumption.
  set (v1 := set_stoppingDistance (d - 5) (set_state stopping v)).
  assert (H1 : state v1 = stopping) by reflexivity.
  assert (S1 : speed v1 = speed v) by reflexivity.
  assert (D1 : stoppingDistance v1 = d - 5) by reflexivity.
  destruct (checkVehicleAhead_stopping allVehicles v1 H1) as (H2 & S2 & D2).
  set (v2 := checkVehicleAhead allVehicles v1) in *.
  assert (H3 : state (updateState delta v2) = waiting /\
               waitTimer (updateState delta v2) = 0 /\
               stoppingDistance (updateState delta v2) = d - 5).
  { unfold updateState. rewrite H2. cbv zeta.
    change (speed (set_targetSpeed 0 v2)) with (speed v2).
    rewrite S2, S1, lt_true by assumption. cbn. rewrite D2, D1. auto. }
  destruct H3 as (H3 & W3 & D3).
  set (v3 := updateState delta v2) in *.
  eexists. split; [reflexivity|]. cbv zeta.
  destruct (updateMovement_frame env delta rnd v3) as (Hs4 & Hw4 & Hd4).
  set (v4 := updateMovement env delta rnd v3) in *.
  destruct (updateVisuals_frame delta v4) as (Hs5 & Hw5 & Hd5).
  set (v5 := updateVisuals delta v4) in *.
  destruct (updateTurnSignals_frame delta v5) as (Hs6 & Hw6 & Hd6).
  rewrite Hs6, Hw6, Hd6, Hs5, Hw5, Hd5, Hs4, Hw4, Hd4. auto.
Qed.

(** C5, at the failing input.  A spawned vehicle waits 10 units before the
    red light of [intersection-0-1], its wait timer at 0.  After one tick of
    16 ms, whatever the random numbers, it is in state [waiting] again and
    its wait timer is 0, not the 0.016 it would have accumulated. *)
Theorem waiting_timer_does_not_accumulate :
  mesh waitingAtRed <> None /\
  state waitingAtRed = waiting /\
  waitTimer waitingAtRed = 0 /\
  forall rnd : nat -> R,
  exists v',
    update inCity 0.016 [waitingAtRed] rnd waitingAtRed = Some v' /\
    state v' = waiting /\
    waitTimer v' = 0 /\
    waitTimer v' <> waitTimer waitingAtRed + 0.016.
Proof.
  split; [discriminate|]. split; [reflexivity|]. split; [reflexivity|].
  intros rnd.
  destruct (waiting_before_red_restarts inCity 0.016 [waitingAtRed] rnd
              waitingAtRed TrafficManager.city
              (StopResult.mk true (JS.Fin 10) (Some "intersection-0-1"%string)
                 (Some red) (Some (mkPoint (-80 + 8) 0))) 10)
    as (v' & Hu & Hs & Hw & _).
  - discriminate.
  - reflexivity.
  - cbn. lra.
  - reflexivity.
  - apply (TrafficManagerFacts.shouldStop_city_from_west 10). lra.
  - reflexivity.
  - reflexivity.
  - lra.
  - exists v'. repeat split; try assumption.
    rewrite Hw. cbn. lra.
Qed.

(** C10.  A vehicle that has no mesh yet is left as it is by [update],
    whatever the time step, the other vehicles, the surroundings and the
    random numbers: position, rotation, speeds, state and timers included. *)
Theorem update_before_spawn_is_noop
    (env : Surroundings) (delta : R) (allVehicles : list t) (rnd : nat -> R)
    (v : t) :
  mesh v = None ->
  update env delta allVehicles rnd v = Some v.
Proof. intros H. unfold update. rewrite H. reflexivity. Qed.

Lemma update_before_spawn_is_noop_witness :
  mesh (new 7) = None /\
  update inCity 0.016 [new 7; waitingAtRed] (fun _ => 0.5) (new 7) = Some (new 7).
Proof.
  split; [reflexivity|].
  apply update_before_spawn_is_noop. reflexivity.
Defined.

(** *** Angles *)

Lemma wrapDown_spec (fuel : nat) :
  forall a, a <= PI + 2 * PI * INR fuel ->
    exists k : nat,
      JSMath.wrapDown fuel a = a - 2 * PI * INR k /\
      JSMath.wrapDown fuel a <= PI /\
      (PI < a -> - PI < JSMath.wrapDown fuel a) /\
      (a <= PI -> JSMath.wrapDown fuel a = a).
Proof.
  pose proof PI_RGT_0 as Hpi.
  induction fuel as [|fuel IH]; intros a Ha.
  - cbn [INR] in Ha. exists 0%nat. cbn [JSMath.wrapDown INR].
    split; [lra|]. split; [lra|]. split; [lra | reflexivity].
  - rewrite S_INR in Ha. cbn [JSMath.wrapDown].
    destruct (Rlt_dec PI a) as [Hgt|Hle].
    + rewrite gt_true by assumption.
      destruct (IH (a - PI * 2)) as (k & Hk & Hup & Hlo & Hid); [lra|].
      exists (S k). rewrite S_INR.
      split; [rewrite Hk; ring|]. split; [assumption|].
      split; [|lra]. intros _.
      destruct (Rlt_dec PI (a - PI * 2)) as [H1|H1].
      * apply Hlo, H1.
      * rewrite Hid by lra. lra.
    + rewrite gt_false by lra. exists 0%nat. cbn [INR].
      split; [lra|]. split; [lra|]. split; [lra | reflexivity].
Qed.

Lemma wrapUp_spec (fuel : nat) :
  forall a, - PI - 2 * PI * INR fuel <= a ->
    exists k : nat,
      JSMath.wrapUp fuel a = a + 2 * PI * INR k /\
      - PI <= JSMath.wrapUp fuel a /\
      (a < - PI -> JSMath.wrapUp fuel a < PI) /\
      (- PI <= a -> JSMath.wrapUp fuel a = a).
Proof.
  pose proof PI_RGT_0 as Hpi.
  induction fuel as [|fuel IH]; intros a Ha.
  - cbn [INR] in Ha. exists 0%nat. cbn [JSMath.wrapUp INR].
    split; [lra|]. split; [lra|]. split; [lra | reflexivity].
  - rewrite S_INR in Ha. cbn [JSMath.wrapUp].
    destruct (Rlt_dec a (- PI)) as [Hlt|Hge].
    + rewrite lt_true by assumption.
      destruct (IH (a + PI * 2)) as (k & Hk & Hlo & Hup & Hid); [lra|].
      exists (S k). rewrite S_INR.
      split; [rewrite Hk; ring|]. split; [assumption|].
      split; [|lra]. intros _.
      destruct (Rlt_dec (a + PI * 2) (- PI)) as [H1|H1].
      * apply Hup, H1.
      * rewrite Hid by lra. lra.
    + rewrite lt_false by lra. exists 0%nat. cbn [INR].
      split; [lra|]. split; [lra|]. split; [lra | reflexivity].
Qed.

(** X17.  The two [while] loops that normalise an angle difference end
    within a number of rounds bounded by the size of the angle, and leave
    an angle between [-PI] and [PI] that differs from the given one by a
    whole number of turns. *)
Theorem wrapAngle_normalises (a : R) :
  - PI <= JSMath.wrapAngle a <= PI /\
  exists k : Z, JSMath.wrapAngle a = a + 2 * PI * IZR k.
Proof.
  pose proof PI_RGT_0 as Hpi.
  assert (Hpi3 : 3 < PI).
  { pose proof PI2_3_2. lra. }
  unfold JSMath.wrapAngle. cbv zeta.
  set (fuel := Z.to_nat (up (Rabs a))).
  assert (Hfuel : Rabs a < INR fuel).
  { unfold fuel. destruct (archimed (Rabs a)) as [Hup _].
    pose proof (Rabs_pos a) as H0.
    assert (Hz : (0 <= up (Rabs a))%Z).
    { apply le_IZR. lra. }
    rewrite INR_IZR_INZ, Z2Nat.id by assumption. lra. }
  assert (Ha : - Rabs a <= a <= Rabs a).
  { split; [pose proof (Rle_abs (- a)); rewrite Rabs_Ropp in *; lra
           | apply Rle_abs]. }
  assert (Hf0 : 0 <= INR fuel) by apply pos_INR.
  destruct (wrapDown_spec fuel a) as (k1 & Hk1 & Hup1 & Hlo1 & Hid1); [nra|].
  set (b := JSMath.wrapDown fuel a) in *.
  assert (Hb : - PI - 2 * PI * INR fuel <= b).
  { destruct (Rlt_dec PI a) as [Hgt|Hle].
    - specialize (Hlo1 Hgt). nra.
    - rewrite Hid1 by lra. nra. }
  destruct (wrapUp_spec fuel b Hb) as (k2 & Hk2 & Hlo2 & Hup2 & Hid2).
  split.
  - split; [assumption|].
    destruct (Rlt_dec b (- PI)) as [Hlt|Hge].
    + specialize (Hup2 Hlt). lra.
    + rewrite Hid2 by lra. assumption.
  - exists (Z.of_nat k2 - Z.of_nat k1)%Z.
    rewrite Hk2, Hk1, minus_IZR, <- !INR_IZR_INZ. ring.
Qed.

(** *** One tick: what moves and what does not *)

(** The steps before the movement leave the pose, the speed and the mesh. *)
Lemma checkTrafficLights_keeps env v v1 :
  checkTrafficLights env v = Some v1 ->
  ident v1 = ident v /\ position v1 = position v /\ rotation v1 = rotation v /\
  speed v1 = speed v /\ maxSpeed v1 = maxSpeed v /\ mesh v1 = mesh v /\
  followDistance v1 = followDistance v /\ safeDistance v1 = safeDistance v.
Proof.
  unfold checkTrafficLights. intros H.
  destruct (trafficManager env); [|injection H as <-; repeat split].
  destruct (TrafficManager.shouldStop _ _ _ _); [|discriminate].
  destruct (_ && _); [injection H as <-; repeat split|].
  destruct (state v); try (injection H as <-; repeat split);
    destruct (negb _); injection H as <-; repeat split.
Qed.

Lemma checkVehicleAhead_keeps allVehicles v :
  position (checkVehicleAhead allVehicles v) = position v /\
  rotation (checkVehicleAhead allVehicles v) = rotation v /\
  speed (checkVehicleAhead allVehicles v) = speed v /\
  maxSpeed (checkVehicleAhead allVehicles v) = maxSpeed v /\
  mesh (checkVehicleAhead allVehicles v) = mesh v.
Proof. unfold checkVehicleAhead. cbv zeta. split_cases; cbn; auto. Qed.

Lemma updateState_keeps delta v :
  position (updateState delta v) = position v /\
  rotation (updateState delta v) = rotation v /\
  speed (updateState delta v) = speed v /\
  maxSpeed (updateState delta v) = maxSpeed v /\
  mesh (updateState delta v) = mesh v.
Proof. unfold updateState. cbv zeta. split_cases; cbn; auto. Qed.

Lemma pickNextSegment_keeps env rnd current v :
  position (pickNextSegment env rnd current v) = position v /\
  rotation (pickNextSegment env rnd current v) = rotation v /\
  speed (pickNextSegment env rnd current v) = speed v /\
  maxSpeed (pickNextSegment env rnd current v) = maxSpeed v /\
  mesh (pickNextSegment env rnd current v) = mesh v.
Proof. unfold pickNextSegment. split_cases; cbn; auto. Qed.

Lemma findNearestSegment_keeps net rnd v :
  position (findNearestSegment net rnd v) = position v /\
  rotation (findNearestSegment net rnd v) = rotation v /\
  speed (findNearestSegment net rnd v) = speed v /\
  maxSpeed (findNearestSegment net rnd v) = maxSpeed v /\
  mesh (findNearestSegment net rnd v) = mesh v.
Proof. unfold findNearestSegment. cbv zeta. split_cases; cbn; auto. Qed.

Lemma followSegment_keeps env delta rnd v :
  position (followSegment env delta rnd v) = position v /\
  speed (followSegment env delta rnd v) = speed v /\
  maxSpeed (followSegment env delta rnd v) = maxSpeed v /\
  mesh (followSegment env delta rnd v) = mesh v.
Proof.
  unfold followSegment.
  destruct (currentSegment v) as [seg|].
  - cbv zeta.
    destruct (JS.lt _ 3); [|auto].
    destruct (JS.ge _ 1); [|auto].
    match goal with
    | |- context [pickNextSegment ?e ?r ?c ?w] =>
        destruct (pickNextSegment_keeps e r c w) as (-> & _ & -> & -> & ->)
    end. auto.
  - destruct (roadNetwork env) as [net|]; [|auto].
    destruct (findNearestSegment_keeps net rnd v) as (-> & _ & -> & -> & ->). auto.
Qed.

Lemma keepInBounds_keeps delta v :
  position (keepInBounds delta v) = position v /\
  speed (keepInBounds delta v) = speed v /\
  maxSpeed (keepInBounds delta v) = maxSpeed v /\
  mesh (keepInBounds delta v) = mesh v.
Proof. unfold keepInBounds. cbv zeta. split_cases; cbn; auto. Qed.


Lemma controlSpeed_clamps delta v :
  0 <= speed (controlSpeed delta v) /\
  (0 <= maxSpeed v -> speed (controlSpeed delta v) <= maxSpeed v) /\
  position (controlSpeed delta v) = position v /\
  maxSpeed (controlSpeed delta v) = maxSpeed v /\
  mesh (controlSpeed delta v) = mesh v.
Proof.
  unfold controlSpeed. cbv zeta. cbn [speed position maxSpeed mesh set_speed].
  set (s := if JS.lt (speed v) (targetSpeed v) then _ else _).
  unfold JS.Math_max, JS.Math_min.
  destruct (Rlt_dec (maxSpeed v) s) as [H1|H1];
    [rewrite (lt_true _ _ H1) | rewrite (lt_false (maxSpeed v) s) by lra].
  - destruct (Rlt_dec 0 (maxSpeed v)) as [H2|H2];
      [rewrite (lt_true _ _ H2) | rewrite (lt_false 0 (maxSpeed v)) by lra];
      repeat split; lra.
  - destruct (Rlt_dec 0 s) as [H2|H2];
      [rewrite (lt_true _ _ H2) | rewrite (lt_false 0 s) by lra];
      repeat split; lra.
Qed.

Lemma moveForward_moves delta v m :
  mesh v = Some m ->
  position (moveForward delta v)
  = mkPoint (x (position v) + sin (rotation v) * speed v * delta)
            (z (position v) + cos (rotation v) * speed v * delta) /\
  rotation (moveForward delta v) = rotation v /\
  speed (moveForward delta v) = speed v /\
  maxSpeed (moveForward delta v) = maxSpeed v /\
  exists m',
    mesh (moveForward delta v) = Some m' /\
    meshPosition m' = position (moveForward delta v) /\
    meshRotationY m' = rotation (moveForward delta v).
Proof.
  intros Hm. unfold moveForward. cbv zeta.
  cbn [mesh set_position]. rewrite Hm. cbn.
  repeat (split; [reflexivity|]). eexists. split; [reflexivity|]. cbn. auto.
Qed.

Lemma updateVisuals_keeps delta v m :
  mesh v = Some m ->
  position (updateVisuals delta v) = position v /\
  rotation (updateVisuals delta v) = rotation v /\
  speed (updateVisuals delta v) = speed v /\
  maxSpeed (updateVisuals delta v) = maxSpeed v /\
  exists m',
    mesh (updateVisuals delta v) = Some m' /\
    meshPosition m' = meshPosition m /\ meshRotationY m' = meshRotationY m.
Proof.
  intros Hm. unfold updateVisuals. cbv zeta. cbn [mesh set_wheelRotation].
  rewrite Hm. cbn. repeat (split; [reflexivity|]).
  eexists. split; [reflexivity|]. cbn. auto.
Qed.

Lemma updateTurnSignals_keeps delta v m :
  mesh v = Some m ->
  position (updateTurnSignals delta v) = position v /\
  rotation (updateTurnSignals delta v) = rotation v /\
  speed (updateTurnSignals delta v) = speed v /\
  maxSpeed (updateTurnSignals delta v) = maxSpeed v /\
  exists m',
    mesh (updateTurnSignals delta v) = Some m' /\
    meshPosition m' = meshPosition m /\ meshRotationY m' = meshRotationY m.
Proof.
  intros Hm. unfold updateTurnSignals. cbv zeta.
  destruct (JS.gt _ 0.4); cbn [mesh set_turnSignalTimer set_turnSignalVisible];
    rewrite Hm; cbn; repeat (split; [reflexivity|]);
    (eexists; split; [reflexivity|]; cbn; auto).
Qed.

(** One tick of a spawned vehicle, step by step. *)
Lemma update_kinematics env delta allVehicles rnd v v' :
  mesh v <> None ->
  update env delta allVehicles rnd v = Some v' ->
  maxSpeed v' = maxSpeed v /\
  0 <= speed v' /\
  (0 <= maxSpeed v -> speed v' <= maxSpeed v) /\
  position v'
  = mkPoint (x (position v) + sin (rotation v') * speed v' * delta)
            (z (position v) + cos (rotation v') * speed v' * delta) /\
  exists m',
    mesh v' = Some m' /\
    meshPosition m' = position v' /\ meshRotationY m' = rotation v'.
Proof.
  intros Hmesh H. unfold update in H.
  destruct (mesh v) as [m|] eqn:Em; [|contradiction].
  destruct (checkTrafficLights env v) as [v1|] eqn:E1; [|discriminate].
  injection H as <-.
  destruct (checkTrafficLights_keeps env v v1 E1)
    as (_ & P1 & _ & S1 & M1 & Me1 & _).
  destruct (checkVehicleAhead_keeps allVehicles v1) as (P2 & _ & S2 & M2 & Me2).
  set (v2 := checkVehicleAhead allVehicles v1) in *.
  destruct (updateState_keeps delta v2) as (P3 & _ & S3 & M3 & Me3).
  set (v3 := updateState delta v2) in *.
  unfold updateMovement.
  destruct (controlSpeed_clamps delta v3) as (S4 & S4' & P4 & M4 & Me4).
  set (v4 := controlSpeed delta v3) in *.
  destruct (followSegment_keeps env delta rnd v4) as (P5 & S5 & M5 & Me5).
  set (v5 := followSegment env delta rnd v4) in *.
  destruct (keepInBounds_keeps delta v5) as (P6 & S6 & M6 & Me6).
  set (v6 := keepInBounds delta v5) in *.
  assert (Em6 : mesh v6 = Some m) by congruence.
  destruct (moveForward_moves delta v6 m Em6)
    as (P7 & R7 & S7 & M7 & m7 & Me7 & Mp7 & Mr7).
  set (v7 := moveForward delta v6) in *.
  destruct (updateVisuals_keeps delta v7 m7 Me7)
    as (P8 & R8 & S8 & M8 & m8 & Me8 & Mp8 & Mr8).
  set (v8 := updateVisuals delta v7) in *.
  destruct (updateTurnSignals_keeps delta v8 m8 Me8)
    as (P9 & R9 & S9 & M9 & m9 & Me9 & Mp9 & Mr9).
  set (v9 := updateTurnSignals delta v8) in *.
  assert (Hmax : maxSpeed v9 = maxSpeed v) by congruence.
  assert (Hspeed : speed v9 = speed v4) by congruence.
  assert (Hmax3 : maxSpeed v3 = maxSpeed v) by congruence.
  split; [exact Hmax|]. split; [rewrite Hspeed; exact S4|].
  split; [rewrite Hspeed, <- Hmax3; exact S4'|].
  split.
  - rewrite P9, P8, P7, R9, R8, R7, S9, S8, S7. f_equal; congruence.
  - exists m9. split; [exact Me9|]. split; congruence.
Qed.

(** X18.  One tick of a spawned vehicle leaves its speed between 0 and its
    maximum speed, whatever the traffic, the lights and the speed it had;
    the maximum speed itself is never changed. *)
Theorem update_keeps_speed_within_limits env delta allVehicles rnd v v' :
  mesh v <> None ->
  update env delta allVehicles rnd v = Some v' ->
  maxSpeed v' = maxSpeed v /\
  0 <= speed v' /\
  (0 <= maxSpeed v -> speed v' <= maxSpeed v).
Proof.
  intros Hmesh H.
  destruct (update_kinematics env delta allVehicles rnd v v' Hmesh H)
    as (H1 & H2 & H3 & _).
  auto.
Qed.

Lemma dist_along_heading (p : Point) (r s d : R) :
  0 <= s -> 0 <= d ->
  dist (mkPoint (x p + sin r * s * d) (z p + cos r * s * d)) p = s * d.
Proof.
  intros Hs Hd. unfold dist. cbn [x z].
  replace ((x p + sin r * s * d - x p) ^ 2 + (z p + cos r * s * d - z p) ^ 2)
    with ((s * d) * (s * d) * ((sin r)² + (cos r)²)) by (unfold Rsqr; ring).
  rewrite sin2_cos2, Rmult_1_r. apply sqrt_square. nra.
Qed.

(** X19.  One tick of a spawned vehicle moves it along its new heading by
    its new speed times the time step, so by at most the maximum speed
    times the step, and the mesh is left at the vehicle's new position and
    heading. *)
Theorem update_moves_along_heading env delta allVehicles rnd v v' :
  mesh v <> None ->
  0 <= delta ->
  update env delta allVehicles rnd v = Some v' ->
  x (position v') = x (position v) + sin (rotation v') * speed v' * delta /\
  z (position v') = z (position v) + cos (rotation v') * speed v' * delta /\
  dist (position v') (position v) = speed v' * delta /\
  (0 <= maxSpeed v -> dist (position v') (position v) <= maxSpeed v * delta) /\
  exists m',
    mesh v' = Some m' /\
    meshPosition m' = position v' /\ meshRotationY m' = rotation v'.
Proof.
  intros Hmesh Hd H.
  destruct (update_kinematics env delta allVehicles rnd v v' Hmesh H)
    as (_ & H2 & H3 & Hp & Hm).
  assert (Hdist : dist (position v') (position v) = speed v' * delta).
  { rewrite Hp at 1. apply dist_along_heading; assumption. }
  split; [rewrite Hp at 1; reflexivity|].
  split; [rewrite Hp at 1; reflexivity|].
  split; [exact Hdist|]. split; [|exact Hm].
  intros Hmax. rewrite Hdist. specialize (H3 Hmax). nra.
Qed.

Lemma update_keeps_speed_within_limits_witness :
  exists v',
    update (mkSurroundings None None) 0.016 [] (fun _ => 0) (spawn (mkSurroundings None None) 3 4 0 (new 0))
    = Some v' /\ 0 <= speed v' <= 50.
Proof.
  eexists. split; [reflexivity|].
  destruct (update_keeps_speed_within_limits (mkSurroundings None None) 0.016 []
              (fun _ => 0) (spawn (mkSurroundings None None) 3 4 0 (new 0)) _
              ltac:(discriminate) eq_refl) as (_ & H0 & H1).
  split; [exact H0|]. apply H1. cbn. lra.
Defined.

Lemma update_moves_along_heading_witness :
  exists v',
    update (mkSurroundings None None) 0.016 [] (fun _ => 0) (spawn (mkSurroundings None None) 3 4 0 (new 0))
    = Some v' /\
    dist (position v') (mkPoint 3 4) = speed v' * 0.016.
Proof.
  eexists. split; [reflexivity|].
  destruct (update_moves_along_heading (mkSurroundings None None) 0.016 []
              (fun _ => 0) (spawn (mkSurroundings None None) 3 4 0 (new 0)) _
              ltac:(discriminate) ltac:(lra) eq_refl) as (_ & _ & H & _).
  exact H.
Defined.

(** *** The behaviour states *)

(** X20.  No tick enters the state [turning]: a vehicle is in it after
    [update] only if it was in it before, and a vehicle that was in it is
    then still in it, or stopping, or waiting. *)
Theorem update_never_enters_turning env delta allVehicles rnd v v' :
  update env delta allVehicles rnd v = Some v' ->
  (state v' = turning -> state v = turning) /\
  (state v = turning ->
   state v' = turning \/ state v' = stopping \/ state v' = waiting).
Proof.
  intros H. unfold update in H.
  destruct (mesh v) as [m|] eqn:Em; [|injection H as <-; auto].
  destruct (checkTrafficLights env v) as [v1|] eqn:E1; [|discriminate].
  injection H as <-.
  destruct (updateTurnSignals_frame delta
              (updateVisuals delta
                 (updateMovement env delta rnd
                    (updateState delta (checkVehicleAhead allVehicles v1)))))
    as (-> & _ & _).
  destruct (updateVisuals_frame delta
              (updateMovement env delta rnd
                 (updateState delta (checkVehicleAhead allVehicles v1))))
    as (-> & _ & _).
  destruct (updateMovement_frame env delta rnd
              (updateState delta (checkVehicleAhead allVehicles v1)))
    as (-> & _ & _).
  assert (H1 : state v1 = state v \/ state v1 = stopping \/
               (state v1 = accelerating /\ state v <> turning)).
  { unfold checkTrafficLights in E1.
    destruct (trafficManager env); [|injection E1 as <-; auto].
    destruct (TrafficManager.shouldStop _ _ _ _); [|discriminate].
    destruct (_ && _); [injection E1 as <-; auto|].
    destruct (state v) eqn:Es.
    all: try (injection E1 as <-; auto; fail).
    all: destruct (negb _); injection E1 as <-; cbn; rewrite ?Es; auto.
    all: right; right; split; [reflexivity | discriminate]. }
  assert (H2 : state (checkVehicleAhead allVehicles v1) = state v1 \/
               state (checkVehicleAhead allVehicles v1) = stopping).
  { unfold checkVehicleAhead. cbv zeta. split_cases; cbn; auto. }
  set (v2 := checkVehicleAhead allVehicles v1) in *.
  assert (H3 : (state (updateState delta v2) = turning /\ state v2 = turning) \/
               (state (updateState delta v2) <> turning /\ state v2 <> turning /\
                (state v2 = stopping ->
                 state (updateState delta v2) = stopping \/
                 state (updateState delta v2) = waiting))).
  { unfold updateState. cbv zeta.
    destruct (state v2) eqn:Es; split_cases; cbn; rewrite ?Es;
      try (left; split; reflexivity);
      right; (split; [discriminate|]); (split; [discriminate|]);
      intros; auto; discriminate. }
  split.
  - intros Ht.
    destruct H3 as [[_ H3]|[H3 _]]; [|contradiction].
    destruct H2 as [H2|H2]; [|congruence].
    destruct H1 as [H1|[H1|[H1 _]]]; congruence.
  - intros Ht.
    destruct H3 as [[H3 _]|(_ & Hnt & H3)]; [left; assumption|].
    right. apply H3.
    destruct H2 as [H2|H2]; [|assumption].
    destruct H1 as [H1|[H1|[_ H1]]]; [|congruence|contradiction].
    exfalso. apply Hnt. congruence.
Qed.

Lemma update_never_enters_turning_witness :
  exists v',
    update (mkSurroundings None None) 0.016 [] (fun _ => 0) (spawn (mkSurroundings None None) 3 4 0 (new 0))
    = Some v' /\ state v' <> turning.
Proof.
  eexists. split; [reflexivity|].
  intros Ht.
  apply (update_never_enters_turning (mkSurroundings None None) 0.016 []
           (fun _ => 0) (spawn (mkSurroundings None None) 3 4 0 (new 0)) _ eq_refl)
    in Ht.
  discriminate Ht.
Defined.

(** *** The vehicle ahead *)

Lemma nearestAhead_skip v seen ahead other :
  ~ isAhead v other ->
  nearestAhead v seen ahead -> nearestAhead v (seen ++ [other]) ahead.
Proof.
  intros Hno H. destruct ahead as [[o|] [d|]]; cbn in *; try contradiction.
  - destruct H as (Hin & Ha & Hd & Hmin).
    split; [apply in_or_app; left; assumption|].
    split; [assumption|]. split; [assumption|].
    intros o' Ho' Ha'. apply in_app_or in Ho'. destruct Ho' as [Ho'|[<-|[]]].
    + apply Hmin; assumption.
    + contradiction.
  - intros o Ho. apply in_app_or in Ho. destruct Ho as [Ho|[<-|[]]].
    + apply H, Ho.
    + assumption.
Qed.

Lemma senseVehicle_nearest v seen ahead other :
  nearestAhead v seen ahead ->
  nearestAhead v (seen ++ [other]) (senseVehicle v ahead other).
Proof.
  intros Hinv. unfold senseVehicle. cbv zeta. cbn [x z].
  fold (gap v other).
  destruct (Nat.eqb (ident other) (ident v)) eqn:Eid.
  { apply nearestAhead_skip; [|assumption].
    apply Nat.eqb_eq in Eid. intros (H & _). contradiction. }
  apply Nat.eqb_neq in Eid.
  destruct (Rlt_dec (followDistance v * 2) (gap v other)) as [Hfar|Hnear].
  { rewrite gt_true by assumption.
    apply nearestAhead_skip; [|assumption]. intros (_ & H & _). lra. }
  rewrite gt_false by lra.
  match goal with
  | |- context [JS.lt ?dot 0] => destruct (Rlt_dec dot 0) as [Hbehind|Hfront]
  end.
  { rewrite lt_true by assumption.
    apply nearestAhead_skip; [|assumption]. intros (_ & _ & H & _). lra. }
  rewrite lt_false by lra.
  match goal with
  | |- context [JS.gt ?lat 3] => destruct (Rlt_dec 3 lat) as [Hside|Hlane]
  end.
  { rewrite gt_true by assumption.
    apply nearestAhead_skip; [|assumption]. intros (_ & _ & _ & H). lra. }
  rewrite gt_false by lra.
  assert (Ha : isAhead v other).
  { split; [assumption|]. split; [lra|]. split; lra. }
  destruct ahead as [[o|] [d|]]; cbn in Hinv; try contradiction;
    cbn [snd JS.lt_num].
  - destruct Hinv as (Hin & Hao & -> & Hmin).
    destruct (Rlt_dec (gap v other) (gap v o)) as [Hlt|Hge].
    + rewrite lt_true by assumption. cbn.
      split; [apply in_or_app; right; left; reflexivity|].
      split; [assumption|]. split; [reflexivity|].
      intros o' Ho' Ha'. apply in_app_or in Ho'. destruct Ho' as [Ho'|[<-|[]]].
      * specialize (Hmin o' Ho' Ha'). lra.
      * lra.
    + rewrite lt_false by lra. cbn.
      split; [apply in_or_app; left; assumption|].
      split; [assumption|]. split; [reflexivity|].
      intros o' Ho' Ha'. apply in_app_or in Ho'. destruct Ho' as [Ho'|[<-|[]]].
      * apply Hmin; assumption.
      * lra.
  - cbn. split; [apply in_or_app; right; left; reflexivity|].
    split; [assumption|]. split; [reflexivity|].
    intros o' Ho' Ha'. apply in_app_or in Ho'. destruct Ho' as [Ho'|[<-|[]]].
    + exfalso. exact (Hinv o' Ho' Ha').
    + lra.
Qed.

Lemma fold_senseVehicle_nearest v allVehicles :
  forall seen ahead,
    nearestAhead v seen ahead ->
    nearestAhead v (seen ++ allVehicles)
      (fold_left (senseVehicle v) allVehicles ahead).
Proof.
  induction allVehicles as [|other rest IH]; intros seen ahead H;
    cbn [fold_left].
  - rewrite app_nil_r. exact H.
  - replace (seen ++ other :: rest) with ((seen ++ [other]) ++ rest)
      by (rewrite <- app_assoc; reflexivity).
    apply IH, senseVehicle_nearest, H.
Qed.

(** X21.  [checkVehicleAhead] never takes the vehicle itself for the one
    ahead.  It records no vehicle exactly when no other vehicle is within
    twice the follow distance, not behind and at most 3 to the side; else
    it records such a vehicle and its distance, none of them being nearer.
    Below the safe distance the vehicle starts stopping; between the safe
    and the follow distance it caps its target speed at the other
    vehicle's speed; farther away nothing else changes. *)
Theorem checkVehicleAhead_finds_nearest (allVehicles : list t) (v : t) :
  ((forall other, In other allVehicles -> ~ isAhead v other) ->
   vehicleAhead (checkVehicleAhead allVehicles v) = None /\
   distanceToVehicleAhead (checkVehicleAhead allVehicles v) = JS.Infinity /\
   state (checkVehicleAhead allVehicles v) = state v /\
   targetSpeed (checkVehicleAhead allVehicles v) = targetSpeed v) /\
  ((exists other, In other allVehicles /\ isAhead v other) ->
   exists other,
     In other allVehicles /\ isAhead v other /\
     ident other <> ident v /\
     vehicleAhead (checkVehicleAhead allVehicles v) = Some (ident other) /\
     distanceToVehicleAhead (checkVehicleAhead allVehicles v)
     = JS.Fin (gap v other) /\
     (forall o, In o allVehicles -> isAhead v o -> gap v other <= gap v o) /\
     (gap v other < followDistance v -> gap v other < safeDistance v ->
      state (checkVehicleAhead allVehicles v) = stopping /\
      targetSpeed (checkVehicleAhead allVehicles v) = targetSpeed v) /\
     (gap v other < followDistance v -> safeDistance v <= gap v other ->
      state (checkVehicleAhead allVehicles v) = state v /\
      targetSpeed (checkVehicleAhead allVehicles v)
      = JS.Math_min (targetSpeed v) (speed other)) /\
     (followDistance v <= gap v other ->
      state (checkVehicleAhead allVehicles v) = state v /\
      targetSpeed (checkVehicleAhead allVehicles v) = targetSpeed v)).
Proof.
  pose proof (fold_senseVehicle_nearest v allVehicles [] (None, JS.Infinity))
    as Hinv.
  cbn [app] in Hinv. specialize (Hinv ltac:(intros o [])).
  unfold checkVehicleAhead. cbv zeta.
  destruct (fold_left (senseVehicle v) allVehicles (None, JS.Infinity))
    as [[other|] [d|]]; cbn in Hinv; try contradiction.
  - destruct Hinv as (Hin & Ha & -> & Hmin).
    cbn [fst snd option_map JS.num_lt followDistance safeDistance targetSpeed
         set_distanceToVehicleAhead set_vehicleAhead].
    split.
    + intros Hnone. exfalso. exact (Hnone other Hin Ha).
    + intros _. exists other.
      split; [assumption|]. split; [assumption|].
      split; [exact (proj1 Ha)|].
      destruct (Rlt_dec (gap v other) (followDistance v)) as [Hf|Hf];
        [rewrite (lt_true _ _ Hf)
        | rewrite (lt_false (gap v other) (followDistance v)) by lra].
      * destruct (Rlt_dec (gap v other) (safeDistance v)) as [Hs|Hs];
          [rewrite (lt_true _ _ Hs)
          | rewrite (lt_false (gap v other) (safeDistance v)) by lra];
          cbn; (split; [reflexivity|]); (split; [reflexivity|]);
          (split; [assumption|]);
          (split; [intros; first [split; reflexivity | lra]|]);
          (split; [intros; first [split; reflexivity | lra]|]);
          intros; lra.
      * cbn. split; [reflexivity|]. split; [reflexivity|].
        split; [assumption|].
        split; [intros; lra|]. split; [intros; lra|].
        intros _. split; reflexivity.
  - split.
    + intros _. cbn. auto.
    + intros (other & Hin & Ha). exfalso. exact (Hinv other Hin Ha).
Qed.

Lemma checkVehicleAhead_finds_nearest_witness :
  vehicleAhead (checkVehicleAhead [create (new 0)] (create (new 0))) = None.
Proof.
  apply (proj1 (checkVehicleAhead_finds_nearest [create (new 0)] (create (new 0)))).
  intros other [<-|[]] (H & _). apply H. reflexivity.
Defined.

(** *** Braking to a halt *)

Lemma movement_keeps_brakeForce env delta rnd v :
  brakeForce (updateTurnSignals delta
                (updateVisuals delta (updateMovement env delta rnd v)))
  = brakeForce v.
Proof.
  assert (H1 : forall w, brakeForce (updateTurnSignals delta w) = brakeForce w).
  { intros w. unfold updateTurnSignals. cbv zeta. split_cases; reflexivity. }
  assert (H2 : forall w, brakeForce (updateVisuals delta w) = brakeForce w).
  { intros w. unfold updateVisuals. cbv zeta. split_cases; reflexivity. }
  assert (H3 : forall w, brakeForce (moveForward delta w) = brakeForce w).
  { intros w. unfold moveForward. cbv zeta. split_cases; reflexivity. }
  assert (H4 : forall w, brakeForce (keepInBounds delta w) = brakeForce w).
  { intros w. unfold keepInBounds. cbv zeta. split_cases; reflexivity. }
  assert (H5 : forall c w, brakeForce (pickNextSegment env rnd c w) = brakeForce w).
  { intros c w. unfold pickNextSegment. split_cases; reflexivity. }
  assert (H6 : forall net w, brakeForce (findNearestSegment net rnd w) = brakeForce w).
  { intros net w. unfold findNearestSegment. cbv zeta. split_cases; reflexivity. }
  assert (H7 : forall w, brakeForce (followSegment env delta rnd w) = brakeForce w).
  { intros w. unfold followSegment.
    destruct (currentSegment w) as [seg|].
    - cbv zeta. destruct (JS.lt _ 3); [|reflexivity].
      destruct (JS.ge _ 1); [|reflexivity]. rewrite H5. reflexivity.
    - destruct (roadNetwork env); [apply H6 | reflexivity]. }
  rewrite H1, H2. unfold updateMovement. rewrite H3, H4, H7. reflexivity.
Qed.

Lemma movement_speed env delta rnd v :
  speed (updateTurnSignals delta
           (updateVisuals delta (updateMovement env delta rnd v)))
  = speed (controlSpeed delta v).
Proof.
  assert (H1 : forall w, speed (updateTurnSignals delta w) = speed w).
  { intros w. unfold updateTurnSignals. cbv zeta. split_cases; reflexivity. }
  assert (H2 : forall w, speed (updateVisuals delta w) = speed w).
  { intros w. unfold updateVisuals. cbv zeta. split_cases; reflexivity. }
  assert (H3 : forall w, speed (moveForward delta w) = speed w).
  { intros w. unfold moveForward. cbv zeta. split_cases; reflexivity. }
  rewrite H1, H2. unfold updateMovement. rewrite H3.
  rewrite (proj1 (proj2 (keepInBounds_keeps delta _))).
  rewrite (proj1 (proj2 (followSegment_keeps env delta rnd _))).
  reflexivity.
Qed.

(** One frame of a stopping vehicle that is alone and has no coordinator. *)
Lemma stopping_frame env delta rnd v :
  trafficManager env = None ->
  mesh v <> None ->
  state v = stopping ->
  0 < delta -> 0 < brakeForce v ->
  exists v',
    update env delta [] rnd v = Some v' /\
    mesh v' <> None /\
    brakeForce v' = brakeForce v /\
    (speed v < 0.5 -> state v' = waiting) /\
    (0.5 <= speed v ->
     state v' = stopping /\
     (speed v' = 0 \/ speed v' <= speed v - brakeForce v * delta)).
Proof.
  intros Hman Hmesh Hstate Hdelta Hbrake.
  assert (Hu : update env delta [] rnd v
               = Some (updateTurnSignals delta
                         (updateVisuals delta
                            (updateMovement env delta rnd
                               (updateState delta (checkVehicleAhead [] v)))))).
  { unfold update. destruct (mesh v); [|contradiction].
    unfold checkTrafficLights. rewrite Hman. reflexivity. }
  eexists. split; [exact Hu|].
  destruct (update_kinematics env delta [] rnd v _ Hmesh Hu)
    as (_ & _ & _ & _ & m' & Hm' & _).
  split; [rewrite Hm'; discriminate|].
  set (v2 := checkVehicleAhead [] v).
  assert (S2 : state v2 = stopping) by exact Hstate.
  assert (V2 : speed v2 = speed v) by reflexivity.
  assert (B2 : brakeForce v2 = brakeForce v) by reflexivity.
  set (v3 := updateState delta v2).
  destruct (updateTurnSignals_frame delta
              (updateVisuals delta (updateMovement env delta rnd v3)))
    as (-> & _ & _).
  destruct (updateVisuals_frame delta (updateMovement env delta rnd v3))
    as (-> & _ & _).
  destruct (updateMovement_frame env delta rnd v3) as (-> & _ & _).
  rewrite movement_keeps_brakeForce, movement_speed.
  assert (B3 : brakeForce v3 = brakeForce v).
  { unfold v3, updateState. rewrite S2. cbv zeta. split_cases; exact B2. }
  split; [exact B3|].
  split.
  - intros Hslow. unfold v3, updateState. rewrite S2. cbv zeta.
    change (speed (set_targetSpeed 0 v2)) with (speed v2).
    rewrite V2, lt_true by assumption. reflexivity.
  - intros Hfast.
    assert (E3 : v3 = set_targetSpeed 0 v2).
    { unfold v3, updateState. rewrite S2. cbv zeta.
      change (speed (set_targetSpeed 0 v2)) with (speed v2).
      rewrite V2, lt_false by assumption. reflexivity. }
    split; [rewrite E3; exact S2|].
    rewrite E3. unfold controlSpeed. cbv zeta.
    cbn [speed targetSpeed set_targetSpeed set_speed brakeForce maxSpeed acceleration].
    rewrite V2, B2.
    rewrite (lt_false (speed v) 0) by lra.
    rewrite (gt_true (speed v) 0) by lra.
    unfold JS.Math_max, JS.Math_min.
    set (s := speed v - brakeForce v * delta).
    destruct (Rlt_dec (maxSpeed v2) s) as [H1|H1];
      [rewrite (lt_true _ _ H1) | rewrite (lt_false (maxSpeed v2) s) by lra].
    + destruct (Rlt_dec 0 (maxSpeed v2)) as [H2|H2];
        [rewrite (lt_true _ _ H2); right; lra
        | rewrite (lt_false 0 (maxSpeed v2)) by lra; left; reflexivity].
    + destruct (Rlt_dec 0 s) as [H2|H2];
        [rewrite (lt_true _ _ H2); right; lra
        | rewrite (lt_false 0 s) by lra; left; reflexivity].
Qed.

(** X22.  A stopping vehicle that is alone on the road and has no signal
    coordinator brakes to a halt: if its speed is below 0.5 plus [k] times
    what one frame of braking takes off, it is in state [waiting] after at
    most [k + 1] frames. *)
Theorem braking_reaches_waiting env delta (k : nat) :
  trafficManager env = None ->
  0 < delta ->
  forall rnd v,
    mesh v <> None ->
    state v = stopping ->
    0 < brakeForce v ->
    speed v < 0.5 + INR k * (brakeForce v * delta) ->
    exists n v',
      (n <= S k)%nat /\
      driveAlone env delta rnd n v = Some v' /\
      state v' = waiting.
Proof.
  intros Hman Hdelta.
  induction k as [|k IH]; intros rnd v Hmesh Hstate Hbrake Hspeed.
  - cbn [INR] in Hspeed.
    destruct (stopping_frame env delta (rnd 0%nat) v Hman Hmesh Hstate Hdelta Hbrake)
      as (v' & Hu & _ & _ & Hslow & _).
    exists 1%nat, v'. split; [lia|]. cbn [driveAlone]. rewrite Hu.
    split; [reflexivity | apply Hslow; lra].
  - destruct (stopping_frame env delta (rnd 0%nat) v Hman Hmesh Hstate Hdelta Hbrake)
      as (v' & Hu & Hmesh' & Hb' & Hslow & Hfast).
    destruct (Rlt_dec (speed v) 0.5) as [H1|H1].
    + exists 1%nat, v'. split; [lia|]. cbn [driveAlone]. rewrite Hu.
      split; [reflexivity | apply Hslow; assumption].
    + destruct (Hfast ltac:(lra)) as (Hst' & Hsp').
      rewrite S_INR in Hspeed.
      assert (Hk : 0 <= INR k * (brakeForce v * delta)).
      { pose proof (pos_INR k). nra. }
      destruct (IH (fun i => rnd (S i)) v' Hmesh' Hst')
        as (n & v'' & Hn & Hrun & Hw).
      * rewrite Hb'. assumption.
      * rewrite Hb'. destruct Hsp' as [Hz|Hle]; [rewrite Hz; lra | lra].
      * exists (S n), v''. split; [lia|]. cbn [driveAlone]. rewrite Hu.
        split; assumption.
Qed.

Lemma braking_reaches_waiting_witness :
  exists n v',
    (n <= 7)%nat /\
    driveAlone (mkSurroundings None None) 0.1 (fun _ _ => 0) n
      (set_state stopping (spawn (mkSurroundings None None) 3 4 0 (new 0)))
    = Some v' /\
    state v' = waiting.
Proof.
  apply (braking_reaches_waiting (mkSurroundings None None) 0.1 6 eq_refl
           ltac:(lra) (fun _ _ => 0)
           (set_state stopping (spawn (mkSurroundings None None) 3 4 0 (new 0)))).
  - discriminate.
  - reflexivity.
  - cbn. lra.
  - cbn. lra.
Defined.

(** *** Spawning *)

Lemma nearestOnLanes_step net px pz seen nearest lane wid :
  nearestOnLanes net px pz seen nearest ->
  nearestOnLanes net px pz (seen ++ [(lane, wid)])
    (match CityRoadNetwork.getWaypoint net wid with
     | Some wp =>
         if JS.lt_num (sqrt ((x (Waypoint.position wp) - px) ^ 2
                             + (z (Waypoint.position wp) - pz) ^ 2))
                      (snd nearest)
         then (Some lane,
               JS.Fin (sqrt ((x (Waypoint.position wp) - px) ^ 2
                             + (z (Waypoint.position wp) - pz) ^ 2)))
         else nearest
     | None => nearest
     end).
Proof.
  intros Hinv.
  destruct (CityRoadNetwork.getWaypoint net wid) as [wp|] eqn:Ew.
  - change (sqrt ((x (Waypoint.position wp) - px) ^ 2
                  + (z (Waypoint.position wp) - pz) ^ 2))
      with (dist (Waypoint.position wp) (mkPoint px pz)).
    set (d := dist (Waypoint.position wp) (mkPoint px pz)).
    destruct nearest as [[l0|] [d0|]]; cbn in Hinv; try contradiction;
      cbn [snd JS.lt_num].
    + destruct Hinv as (wid0 & wp0 & Hin & Hw0 & -> & Hmin).
      destruct (Rlt_dec d (dist (Waypoint.position wp0) (mkPoint px pz)))
        as [Hlt|Hge].
      * rewrite lt_true by assumption. cbn. exists wid, wp.
        split; [apply in_or_app; right; left; reflexivity|].
        split; [assumption|]. split; [reflexivity|].
        intros lane2 wid2 wp2 Hin2 Hw2. apply in_app_or in Hin2.
        destruct Hin2 as [Hin2|[E|[]]].
        -- specialize (Hmin _ _ _ Hin2 Hw2). fold d. lra.
        -- injection E as <- <-. rewrite Ew in Hw2. injection Hw2 as <-.
           fold d. lra.
      * rewrite lt_false by lra. cbn. exists wid0, wp0.
        split; [apply in_or_app; left; assumption|].
        split; [assumption|]. split; [reflexivity|].
        intros lane2 wid2 wp2 Hin2 Hw2. apply in_app_or in Hin2.
        destruct Hin2 as [Hin2|[E|[]]].
        -- apply (Hmin _ _ _ Hin2 Hw2).
        -- injection E as <- <-. rewrite Ew in Hw2. injection Hw2 as <-.
           fold d. lra.
    + cbn. exists wid, wp.
      split; [apply in_or_app; right; left; reflexivity|].
      split; [assumption|]. split; [reflexivity|].
      intros lane2 wid2 wp2 Hin2 Hw2. apply in_app_or in Hin2.
      destruct Hin2 as [Hin2|[E|[]]].
      * rewrite (Hinv _ _ Hin2) in Hw2. discriminate.
      * injection E as <- <-. rewrite Ew in Hw2. injection Hw2 as <-.
        fold d. lra.
  - destruct nearest as [[l0|] [d0|]]; cbn in Hinv |- *; try contradiction.
    + destruct Hinv as (wid0 & wp0 & Hin & Hw0 & -> & Hmin).
      exists wid0, wp0.
      split; [apply in_or_app; left; assumption|].
      split; [assumption|]. split; [reflexivity|].
      intros lane2 wid2 wp2 Hin2 Hw2. apply in_app_or in Hin2.
      destruct Hin2 as [Hin2|[E|[]]].
      * apply (Hmin _ _ _ Hin2 Hw2).
      * injection E as <- <-. rewrite Ew in Hw2. discriminate.
    + intros lane2 wid2 Hin2. apply in_app_or in Hin2.
      destruct Hin2 as [Hin2|[E|[]]].
      * apply (Hinv _ _ Hin2).
      * injection E as <- <-. assumption.
Qed.

Lemma findNearestLane_scan net px pz :
  nearestOnLanes net px pz
    (flat_map (fun lane => map (pair lane) (Lane.waypoints lane))
       (CityRoadNetwork.lanes net))
    (fold_left
       (fun nearest lane =>
          fold_left
            (fun nearest wpId =>
               match CityRoadNetwork.getWaypoint net wpId with
               | Some wp =>
                   let dist :=
                     sqrt ((x (Waypoint.position wp) - px) ^ 2
                           + (z (Waypoint.position wp) - pz) ^ 2) in
                   if JS.lt_num dist (snd nearest)
                   then (Some lane, JS.Fin dist)
                   else nearest
               | None => nearest
               end)
            (Lane.waypoints lane) nearest)
       (CityRoadNetwork.lanes net) (None, JS.Infinity)).
Proof.
  assert (Inner : forall lane wids seen nearest,
             nearestOnLanes net px pz seen nearest ->
             nearestOnLanes net px pz (seen ++ map (pair lane) wids)
               (fold_left
                  (fun nearest wpId =>
                     match CityRoadNetwork.getWaypoint net wpId with
                     | Some wp =>
                         let dist :=
                           sqrt ((x (Waypoint.position wp) - px) ^ 2
                                 + (z (Waypoint.position wp) - pz) ^ 2) in
                         if JS.lt_num dist (snd nearest)
                         then (Some lane, JS.Fin dist)
                         else nearest
                     | None => nearest
                     end)
                  wids nearest)).
  { intros lane. induction wids as [|wid wids IH]; intros seen nearest H;
      cbn [fold_left map].
    - rewrite app_nil_r. exact H.
    - replace (seen ++ (lane, wid) :: map (pair lane) wids)
        with ((seen ++ [(lane, wid)]) ++ map (pair lane) wids)
        by (rewrite <- app_assoc; reflexivity).
      apply IH. cbv zeta. apply nearestOnLanes_step, H. }
  assert (Outer : forall lanes seen nearest,
             nearestOnLanes net px pz seen nearest ->
             nearestOnLanes net px pz
               (seen ++ flat_map (fun lane => map (pair lane) (Lane.waypoints lane))
                          lanes)
               (fold_left
                  (fun nearest lane =>
                     fold_left
                       (fun nearest wpId =>
                          match CityRoadNetwork.getWaypoint net wpId with
                          | Some wp =>
                              let dist :=
                                sqrt ((x (Waypoint.position wp) - px) ^ 2
                                      + (z (Waypoint.position wp) - pz) ^ 2) in
                              if JS.lt_num dist (snd nearest)
                              then (Some lane, JS.Fin dist)
                              else nearest
                          | None => nearest
                          end)
                       (Lane.waypoints lane) nearest)
                  lanes nearest)).
  { induction lanes as [|lane lanes IH]; intros seen nearest H;
      cbn [fold_left flat_map].
    - rewrite app_nil_r. exact H.
    - rewrite app_assoc. apply IH, Inner, H. }
  apply (Outer (CityRoadNetwork.lanes net) [] (None, JS.Infinity)).
  intros lane wid [].
Qed.

(** X23.  [spawn] on a road graph whose lanes resolve puts the vehicle and
    its mesh at the given point and heading, and takes the lane of a
    waypoint nearest to that point as the current lane: no waypoint of any
    lane is nearer.  The target speed is that lane's speed limit, or 30
    when the limit is 0, and the vehicle starts at half of it. *)
Theorem spawn_takes_nearest_lane (net : CityRoadNetwork.t)
    (manager : option TrafficManager.t) (px pz heading : R) (v : t) :
  CityRoadNetwork.lanes_resolve net ->
  CityRoadNetwork.lanes net <> [] ->
  exists lane wid wp m,
    currentLane (spawn (mkSurroundings (Some net) manager) px pz heading v)
    = Some lane /\
    In lane (CityRoadNetwork.lanes net) /\
    In wid (Lane.waypoints lane) /\
    CityRoadNetwork.getWaypoint net wid = Some wp /\
    (forall lane2 wid2 wp2,
       In lane2 (CityRoadNetwork.lanes net) ->
       In wid2 (Lane.waypoints lane2) ->
       CityRoadNetwork.getWaypoint net wid2 = Some wp2 ->
       dist (Waypoint.position wp) (mkPoint px pz)
       <= dist (Waypoint.position wp2) (mkPoint px pz)) /\
    targetSpeed (spawn (mkSurroundings (Some net) manager) px pz heading v)
    = JS.or_else (Lane.speedLimit lane) 30 /\
    speed (spawn (mkSurroundings (Some net) manager) px pz heading v)
    = JS.or_else (Lane.speedLimit lane) 30 * 0.5 /\
    position (spawn (mkSurroundings (Some net) manager) px pz heading v)
    = mkPoint px pz /\
    rotation (spawn (mkSurroundings (Some net) manager) px pz heading v)
    = heading /\
    mesh (spawn (mkSurroundings (Some net) manager) px pz heading v) = Some m /\
    meshPosition m = mkPoint px pz /\ meshRotationY m = heading.
Proof.
  intros Hres Hne.
  pose proof (findNearestLane_scan net px pz) as Hscan.
  unfold spawn. cbv zeta. cbn [roadNetwork].
  unfold findNearestLane.
  set (pairs := flat_map (fun lane => map (pair lane) (Lane.waypoints lane))
                  (CityRoadNetwork.lanes net)) in *.
  assert (Hpairs : forall lane wid,
             In (lane, wid) pairs <->
             In lane (CityRoadNetwork.lanes net) /\ In wid (Lane.waypoints lane)).
  { intros lane wid. unfold pairs. rewrite in_flat_map. split.
    - intros (l & Hl & Hin). apply in_map_iff in Hin.
      destruct Hin as (w & E & Hw). injection E as <- <-. auto.
    - intros [Hl Hw]. exists lane. split; [assumption|].
      apply in_map, Hw. }
  match type of Hscan with
  | nearestOnLanes _ _ _ _ ?f => destruct f as [[lane|] [d|]]
  end; cbn in Hscan; try contradiction.
  - destruct Hscan as (wid & wp & Hin & Hw & -> & Hmin).
    apply Hpairs in Hin. destruct Hin as [Hl Hwid].
    cbn. exists lane, wid, wp. eexists.
    split; [reflexivity|]. split; [assumption|]. split; [assumption|].
    split; [assumption|].
    split.
    { intros lane2 wid2 wp2 Hl2 Hw2 Hg2.
      apply (Hmin lane2 wid2 wp2); [apply Hpairs; auto | assumption]. }
    repeat (split; [reflexivity|]). split; reflexivity.
  - exfalso.
    destruct (CityRoadNetwork.lanes net) as [|lane lanes] eqn:El;
      [contradiction|].
    destruct (Hres lane) as [Hnonempty Hids]; [rewrite El; left; reflexivity|].
    destruct (Lane.waypoints lane) as [|wid wids] eqn:Ew; [contradiction|].
    destruct (Hids wid (or_introl eq_refl)) as [wp Hwp].
    rewrite (Hscan lane wid) in Hwp; [discriminate|].
    apply Hpairs. rewrite Ew. split; left; reflexivity.
Qed.

Lemma spawn_takes_nearest_lane_witness :
  exists lane,
    currentLane (spawn (mkSurroundings (Some CityRoadNetwork.junction) None)
                   3 4 0 (new 0)) = Some lane /\
    In lane (CityRoadNetwork.lanes CityRoadNetwork.junction).
Proof.
  destruct (spawn_takes_nearest_lane CityRoadNetwork.junction None 3 4 0 (new 0)
              CityRoadNetworkFacts.junction_resolves ltac:(discriminate))
    as (lane & _ & _ & _ & H & Hin & _).
  exists lane. split; assumption.
Defined.

End NPCVehicleFacts.

(** ** The cars on fixed tracks *)

Module NPCManagerFacts.
Import NPCManager.

Lemma sqrt_lt_bound (c u : R) : 0 < c -> 0 <= u < c * c -> sqrt u < c.
Proof.
  intros Hc [H0 Hu]. rewrite <- (sqrt_square c) by lra.
  apply sqrt_lt_1_alt. split; assumption.
Qed.

Lemma collide_length prev car others :
  List.length (snd (collide prev car others)) = List.length others.
Proof.
  revert car. induction others as [|o rest IH]; intros car; cbn; [reflexivity|].
  destruct (checkCarCollision car o).
  - specialize (IH (Car.mk prev (Car.rotationY (reverse car))
                       (Car.userData (reverse car)))).
    destruct (collide prev _ rest) as [c r]. cbn in *. rewrite IH. reflexivity.
  - specialize (IH car).
    destruct (collide prev car rest) as [c r]. cbn in *. rewrite IH. reflexivity.
Qed.

(** The recursion bound of [update] is enough: every car gets its turn. *)
Lemma updateCars_enough delta :
  forall fuel cars, (List.length cars <= fuel)%nat ->
    updateCars fuel delta cars = updateCars (List.length cars) delta cars.
Proof.
  induction fuel as [|fuel IH]; intros cars Hf.
  - destruct cars; [reflexivity | cbn in Hf; lia].
  - destruct cars as [|car rest]; [reflexivity|].
    cbn [updateCars List.length].
    pose proof (collide_length (Car.position car) (moveCar delta car) rest) as Hl.
    destruct (collide (Car.position car) (moveCar delta car) rest) as [c r].
    cbn [snd] in Hl. f_equal.
    rewrite (IH r) by (cbn in Hf; lia).
    rewrite Hl. reflexivity.
Qed.

(** One tick of two cars that are within the collision radius once the
    first has moved. *)
Lemma update_two_colliding (delta : R) (c1 c2 : Car.t) :
  checkCarCollision (moveCar delta c1) c2 = true ->
  update delta [c1; c2]
  = [ Car.mk (Car.position c1)
        (Car.rotationY (reverse (moveCar delta c1)))
        (Car.userData (reverse (moveCar delta c1)));
      moveCar delta (reverse c2) ].
Proof.
  intros H. unfold update. cbn [List.length updateCars collide].
  rewrite H. reflexivity.
Qed.

Lemma eastbound_step : moveCar 0.1 eastbound
  = Car.mk (mkPoint (0 + 0.4 * 1 * 0.1 * 20) 0) 0 (Car.userData eastbound).
Proof.
  unfold moveCar, eastbound. cbn. js_cmp. reflexivity.
Qed.

Lemma head_on_collision : checkCarCollision (moveCar 0.1 eastbound) westbound = true.
Proof.
  rewrite eastbound_step. unfold checkCarCollision, carCollisionRadius, westbound.
  cbn [Car.position x z]. apply lt_true, sqrt_lt_bound; [lra | split; nra].
Qed.

(** C6, counterexample.  Two cars on the horizontal road drive at each
    other from x = 0 and x = 2.  In a tick of 0.1 s the first moves to 0.8,
    within the radius 2.5 of the second: both directions are reversed and
    the first car is put back to x = 0, but the second car then moves, with
    its new direction, from x = 2 to x = 2.8. *)
Lemma collision_rollback_claim_fails : ~ collision_rollback_claim.
Proof.
  intros H.
  destruct (H 0.1 eastbound westbound ltac:(lra) head_on_collision)
    as (c1' & c2' & Hu & _ & _ & _ & Hp).
  rewrite (update_two_colliding _ _ _ head_on_collision) in Hu.
  injection Hu as _ <-.
  unfold moveCar, reverse, westbound in Hp. cbn in Hp.
  revert Hp. js_cmp. cbn. intros Hp. injection Hp as Hp. lra.
Qed.

(** The collision test looks at the two positions only. *)
Lemma checkCarCollision_position (a b o : Car.t) :
  Car.position a = Car.position b ->
  checkCarCollision a o = checkCarCollision b o.
Proof. unfold checkCarCollision. intros ->. reflexivity. Qed.

(** The collision loop when no later car is within the radius. *)
Lemma collide_clear (prev : Point) (car : Car.t) (others : list Car.t) :
  (forall o, In o others -> checkCarCollision car o = false) ->
  collide prev car others = (car, others).
Proof.
  induction others as [|o others IH]; intros H; cbn [collide]; [reflexivity|].
  rewrite (H o (or_introl eq_refl)), IH; [reflexivity|].
  intros p Hp. apply H. right. exact Hp.
Qed.

(** The collision loop once the car is back where it was: every later car
    within the radius of that place is reversed and reverses the car. *)
Lemma collide_restored (car : Car.t) (others : list Car.t) :
  forall c, Car.position c = Car.position car ->
    Car.position (fst (collide (Car.position car) c others)) = Car.position car /\
    direction (Car.userData (fst (collide (Car.position car) c others)))
    = direction (Car.userData c)
      * (-1) ^ List.length (filter (checkCarCollision car) others) /\
    snd (collide (Car.position car) c others)
    = map (fun q => if checkCarCollision car q then reverse q else q) others.
Proof.
  induction others as [|o others IH]; intros c Hc; cbn [collide filter map].
  - cbn [fst snd List.length pow]. split; [assumption|]. split; [lra | reflexivity].
  - rewrite (checkCarCollision_position c car o Hc).
    destruct (checkCarCollision car o).
    + specialize (IH (Car.mk (Car.position car) (Car.rotationY (reverse c))
                        (Car.userData (reverse c))) eq_refl).
      destruct (collide (Car.position car) _ others) as [c' rest'].
      cbn [fst snd] in *. destruct IH as (Hp & Hd & Hr).
      split; [assumption|]. split.
      * rewrite Hd. cbn [Car.userData reverse direction withDirection List.length pow].
        ring.
      * rewrite Hr. reflexivity.
    + specialize (IH c Hc).
      destruct (collide (Car.position car) c others) as [c' rest'].
      cbn [fst snd] in *. destruct IH as (Hp & Hd & Hr).
      split; [assumption|]. split; [assumption|]. rewrite Hr. reflexivity.
Qed.

Lemma update_cons (delta : R) (c : Car.t) (rest : list Car.t) :
  update delta (c :: rest)
  = fst (collide (Car.position c) (moveCar delta c) rest)
    :: update delta (snd (collide (Car.position c) (moveCar delta c) rest)).
Proof.
  unfold update. cbn [List.length updateCars].
  pose proof (collide_length (Car.position c) (moveCar delta c) rest) as Hl.
  destruct (collide (Car.position c) (moveCar delta c) rest) as [c' rest'].
  cbn [fst snd] in *. rewrite Hl. reflexivity.
Qed.

(** C6, as amended.  In a tick of the manager's update over any number of
    cars, the car whose turn it is moves and is then checked against every
    later car of the list.  If none is within the collision radius, it keeps
    its move and the later cars are untouched.  Otherwise, at the first
    later car within the radius of the moved car, the direction of both is
    negated and the car whose turn it is is put back where it was before the
    tick; the later car is not moved by the response.  The loop goes on from
    the restored position: every remaining later car within the radius of it
    is reversed too and negates the direction of the car once more.  The
    later cars then take their own turns, in the state these reversals left
    them in. *)
Theorem collision_reverses_and_restores_car_in_turn
    (delta : R) (c : Car.t) (rest : list Car.t) :
  ((forall o, In o rest -> checkCarCollision (moveCar delta c) o = false) ->
   update delta (c :: rest) = moveCar delta c :: update delta rest) /\
  (forall pre o post,
     rest = pre ++ o :: post ->
     (forall p, In p pre -> checkCarCollision (moveCar delta c) p = false) ->
     checkCarCollision (moveCar delta c) o = true ->
     exists c',
       update delta (c :: rest)
       = c' :: update delta
                 (pre ++ reverse o
                      :: map (fun q => if checkCarCollision c q
                                       then reverse q else q) post) /\
       Car.position c' = Car.position c /\
       direction (Car.userData c')
       = direction (Car.userData (moveCar delta c)) * -1
         * (-1) ^ List.length (filter (checkCarCollision c) post) /\
       Car.position (reverse o) = Car.position o /\
       direction (Car.userData (reverse o)) = direction (Car.userData o) * -1).
Proof.
  split.
  - intros Hclear. rewrite update_cons, collide_clear by assumption. reflexivity.
  - intros pre o post -> Hpre Hhit. rewrite update_cons.
    assert (Hsplit : forall car,
               (forall p, In p pre -> checkCarCollision car p = false) ->
               checkCarCollision car o = true ->
               collide (Car.position c) car (pre ++ o :: post)
               = (fst (collide (Car.position c)
                         (Car.mk (Car.position c) (Car.rotationY (reverse car))
                            (Car.userData (reverse car))) post),
                  pre ++ reverse o
                      :: snd (collide (Car.position c)
                                (Car.mk (Car.position c) (Car.rotationY (reverse car))
                                   (Car.userData (reverse car))) post))).
    { intros car Hp Ho. clear Hpre Hhit.
      induction pre as [|p pre IH]; cbn [collide List.app].
      - rewrite Ho. destruct (collide _ _ post). reflexivity.
      - rewrite (Hp p (or_introl eq_refl)), IH; [reflexivity|].
        intros q Hq. apply Hp. right. exact Hq. }
    rewrite (Hsplit _ Hpre Hhit). cbn [fst snd].
    destruct (collide_restored c post
                (Car.mk (Car.position c) (Car.rotationY (reverse (moveCar delta c)))
                   (Car.userData (reverse (moveCar delta c)))) eq_refl)
      as (Hp & Hd & Hr).
    eexists. split; [rewrite Hr; reflexivity|].
    split; [exact Hp|]. split; [|split; reflexivity].
    rewrite Hd. reflexivity.
Qed.

Lemma collision_reverses_and_restores_car_in_turn_witness :
  exists c',
    update 0.1
      [eastbound; westbound;
       Car.mk (mkPoint 1 0) 0 (mkUserData 0 None 0 1 (Some axisX) (-40) 40)]
    = c' :: update 0.1
              [reverse westbound;
               reverse (Car.mk (mkPoint 1 0) 0
                          (mkUserData 0 None 0 1 (Some axisX) (-40) 40))] /\
    Car.position c' = Car.position eastbound /\
    direction (Car.userData c') = direction (Car.userData eastbound).
Proof.
  pose (third := Car.mk (mkPoint 1 0) 0 (mkUserData 0 None 0 1 (Some axisX) (-40) 40)).
  assert (Hnear : checkCarCollision eastbound third = true).
  { unfold checkCarCollision, carCollisionRadius, eastbound, third.
    cbn [Car.position x z]. apply lt_true, sqrt_lt_bound; [lra | split; nra]. }
  destruct (proj2 (collision_reverses_and_restores_car_in_turn 0.1 eastbound
                     [westbound; third])
              [] westbound [third] eq_refl)
    as (c' & Hu & Hp & Hd & _).
  - intros p [].
  - exact head_on_collision.
  - exists c'. fold third. split; [|split; [exact Hp|]].
    + rewrite Hu. cbn [List.app map]. rewrite Hnear. reflexivity.
    + rewrite Hd. cbn [filter]. rewrite Hnear. cbn [List.length pow].
      rewrite eastbound_step. cbn [Car.userData]. ring.
Defined.

(** *** What a tick keeps of every car *)

Lemma sameTrack_refl (c : Car.t) : sameTrack c c.
Proof.
  unfold sameTrack. repeat (split; [first [reflexivity | left; reflexivity]|]).
  destruct (circular _); [auto|]. destruct (axis _) as [[|]|]; reflexivity.
Qed.

Lemma circular_same (c c' : Car.t) :
  radius (Car.userData c') = radius (Car.userData c) ->
  circular (Car.userData c') = circular (Car.userData c).
Proof. unfold circular. intros ->. reflexivity. Qed.

Lemma sameTrack_trans (a b c : Car.t) :
  sameTrack a b -> sameTrack b c -> sameTrack a c.
Proof.
  intros (R1 & S1 & A1 & Mi1 & Ma1 & D1 & T1) (R2 & S2 & A2 & Mi2 & Ma2 & D2 & T2).
  pose proof (circular_same a b R1) as C1.
  unfold sameTrack.
  split; [congruence|]. split; [congruence|]. split; [congruence|].
  split; [congruence|]. split; [congruence|].
  split.
  - destruct D1 as [D1|D1], D2 as [D2|D2]; rewrite D2, D1;
      first [left; lra | right; lra].
  - rewrite C1, A1 in T2.
    destruct (circular (Car.userData a)); [auto|].
    destruct (axis (Car.userData a)) as [[|]|]; congruence.
Qed.

Lemma sameTrack_reverse (c : Car.t) : sameTrack c (reverse c).
Proof.
  unfold sameTrack, reverse. cbn.
  repeat (split; [first [reflexivity | right; reflexivity]|]).
  destruct (circular _); [auto|]. destruct (axis _) as [[|]|]; reflexivity.
Qed.

Lemma sameTrack_moveCar (delta : R) (c : Car.t) : sameTrack c (moveCar delta c).
Proof.
  unfold moveCar. cbv zeta.
  destruct (circular (Car.userData c)) as [r|] eqn:Ec.
  - unfold sameTrack. cbn. rewrite Ec.
    repeat (split; [first [reflexivity | left; reflexivity]|]).
    intros _.
    set (a := angle (Car.userData c)
              + carSpeed (Car.userData c) * delta * direction (Car.userData c)).
    replace (cos a * r * (cos a * r) + sin a * r * (sin a * r))
      with (r * r * ((sin a)² + (cos a)²)) by (unfold Rsqr; ring).
    rewrite sin2_cos2. ring.
  - destruct (axis (Car.userData c)) as [[|]|] eqn:Ea.
    + destruct (_ || _); unfold sameTrack; cbn; rewrite Ec, Ea;
        repeat (split; [first [reflexivity | left; reflexivity
                               | right; reflexivity]|]); reflexivity.
    + destruct (_ || _); unfold sameTrack; cbn; rewrite Ec, Ea;
        repeat (split; [first [reflexivity | left; reflexivity
                               | right; reflexivity]|]); reflexivity.
    + apply sameTrack_refl.
Qed.

(** Putting a car back where it was before it moved keeps it on its track. *)
Lemma sameTrack_rollback (c0 car : Car.t) :
  sameTrack c0 car ->
  sameTrack c0 (Car.mk (Car.position c0) (Car.rotationY (reverse car))
                  (Car.userData (reverse car))).
Proof.
  intros (R1 & S1 & A1 & Mi1 & Ma1 & D1 & T1).
  unfold sameTrack, reverse. cbn.
  repeat (split; [assumption|]).
  split.
  - destruct D1 as [D1|D1]; rewrite D1; [right; reflexivity | left; lra].
  - destruct (circular _); [auto|]. destruct (axis (Car.userData c0)) as [[|]|];
      reflexivity.
Qed.

Lemma collide_sameTrack (c0 : Car.t) (others : list Car.t) :
  forall car,
    sameTrack c0 car ->
    sameTrack c0 (fst (collide (Car.position c0) car others)) /\
    Forall2 sameTrack others (snd (collide (Car.position c0) car others)).
Proof.
  induction others as [|o others IH]; intros car H; cbn [collide].
  - split; [assumption | constructor].
  - destruct (checkCarCollision car o).
    + specialize (IH _ (sameTrack_rollback c0 car H)).
      destruct (collide (Car.position c0) _ others) as [car'' rest'].
      cbn [fst snd] in *. destruct IH as [IH1 IH2].
      split; [assumption|]. constructor; [apply sameTrack_reverse | assumption].
    + specialize (IH _ H).
      destruct (collide (Car.position c0) car others) as [car'' rest'].
      cbn [fst snd] in *. destruct IH as [IH1 IH2].
      split; [assumption|]. constructor; [apply sameTrack_refl | assumption].
Qed.

Lemma Forall2_sameTrack_trans (l1 l2 l3 : list Car.t) :
  Forall2 sameTrack l1 l2 -> Forall2 sameTrack l2 l3 -> Forall2 sameTrack l1 l3.
Proof.
  intros H. revert l3. induction H as [|a b l1 l2 Hab H IH]; intros l3 H3.
  - inversion H3. constructor.
  - inversion H3 as [|b' c l2' l3' Hbc H3']; subst.
    constructor; [eapply sameTrack_trans; eassumption | apply IH, H3'].
Qed.

Lemma updateCars_sameTrack (fuel : nat) (delta : R) :
  forall cars, Forall2 sameTrack cars (updateCars fuel delta cars).
Proof.
  assert (Hrefl : forall l, Forall2 sameTrack l l).
  { induction l; constructor; [apply sameTrack_refl | assumption]. }
  induction fuel as [|fuel IH]; intros cars; [destruct cars; apply Hrefl|].
  destruct cars as [|car rest]; [constructor|].
  cbn [updateCars].
  destruct (collide_sameTrack car rest (moveCar delta car)
              (sameTrack_moveCar delta car)) as [H1 H2].
  destruct (collide (Car.position car) (moveCar delta car) rest) as [car' rest'].
  cbn [fst snd] in *.
  constructor; [assumption|].
  eapply Forall2_sameTrack_trans; [exact H2 | apply IH].
Qed.

(** X24.  A tick of the car loop keeps the number and the order of the
    cars.  Each car keeps its radius, speed, axis and bounds; its direction
    changes by the sign at most; a car of the circular road that is on its
    circle stays on it, and a car of a straight road keeps the coordinate
    across its axis, collisions included. *)
Theorem update_keeps_cars_on_track (delta : R) (cars : list Car.t) :
  List.length (update delta cars) = List.length cars /\
  Forall2 sameTrack cars (update delta cars).
Proof.
  assert (H : Forall2 sameTrack cars (update delta cars))
    by apply updateCars_sameTrack.
  split; [|exact H].
  symmetry. exact (Forall2_length H).
Qed.

End NPCManagerFacts.
